(** * EdgeGit: the Git Smart HTTP protocol engine of [src/index.ts]

    A shallow embedding of the Worker's protocol engine (pkt-line codec,
    ref and pack storage on the R2 bucket, the three request handlers)
    and the properties of the specification, proved on it or refuted
    with the statement that holds instead.

    Conventions of the embedding.
    - A [Uint8Array] is a [list byte].
    - A JavaScript string is a list of Unicode code points ([ustring]).
      Every string of the program is produced by [TextDecoder.decode], by
      a template literal over such strings, or by [trim]/[split] of one;
      none holds a lone surrogate, and on such strings the operations
      used here ([trim], [split] on an ASCII separator, concatenation,
      [===], UTF-8 encoding) act on UTF-16 code units exactly as they do
      on code points.
    - A JavaScript number that the program computes is an integer or
      [NaN]: [num := option Z], [None] being [NaN].
    - The R2 bucket is an association list of objects kept in key order;
      [put], [get] and [list] never fail (storage errors are outside the
      model), and [list] returns every object under the prefix.
    - The writes of one request are stamped with one reading [now] of
      the clock of R2; no property below depends on how the stamps of
      one request differ.
    - An [async] function is run to completion by its caller; the
      interleaving of two requests at their [await]s on the bucket is
      modelled apart, in [Module Race].
    - A loop of the program whose number of turns is not the length of
      a list takes a bound on its turns; the bounds given by the
      handlers are shown to be enough ([parse_loop_fuel],
      [upload_loop_spec]). *)

From Stdlib Require Import String Ascii ZArith NArith List Bool Lia Sorted.
From Stdlib Require Import Strings.Byte.
Import ListNotations.

(** ** Bytes and strings *)

Definition bytes := list byte.
Definition ustring := list N.

(** An ASCII literal of the source as a string, and as bytes. *)
Definition lit (s : string) : ustring :=
  map Byte.to_N (list_byte_of_string s).

Definition nl : ustring := [10%N].
Definition nul : ustring := [0%N].
Definition sp : N := 32%N.

Definition byte_of_N (n : N) : byte :=
  match Byte.of_N (n mod 256) with
  | Some b => b
  | None => x00
  end.

(** *** [TextEncoder.encode]: UTF-8 encoding *)

Definition is_surrogate (c : N) : bool :=
  ((0xD800 <=? c) && (c <=? 0xDFFF))%N.

Definition replacement : bytes := [xef; xbf; xbd].

Definition encode_cp (c : N) : bytes :=
  (if c <? 0x80 then [byte_of_N c]
   else if c <? 0x800 then
     [byte_of_N (0xC0 + c / 0x40); byte_of_N (0x80 + c mod 0x40)]
   else if c <? 0x10000 then
     if is_surrogate c then replacement
     else [byte_of_N (0xE0 + c / 0x1000);
           byte_of_N (0x80 + (c / 0x40) mod 0x40);
           byte_of_N (0x80 + c mod 0x40)]
   else if c <? 0x110000 then
     [byte_of_N (0xF0 + c / 0x40000);
      byte_of_N (0x80 + (c / 0x1000) mod 0x40);
      byte_of_N (0x80 + (c / 0x40) mod 0x40);
      byte_of_N (0x80 + c mod 0x40)]
   else replacement)%N.

Definition encode (s : ustring) : bytes := flat_map encode_cp s.

(** *** [TextDecoder.decode]: UTF-8 decoding, errors replaced by U+FFFD,
    a leading byte order mark dropped *)

Record dstate := mkD {
  needed : nat;      (* continuation bytes still expected *)
  cp : N;            (* code point accumulated so far *)
  lower : N;         (* bounds of the next continuation byte *)
  upper : N
}.

Definition d0 : dstate := mkD 0 0 0x80 0xBF.

(** A byte read when no sequence is open. *)
Definition lead (b : N) : ustring * dstate :=
  (if b <? 0x80 then ([b], d0)
   else if (0xC2 <=? b) && (b <=? 0xDF) then ([], mkD 1 (N.land b 0x1F) 0x80 0xBF)
   else if (0xE0 <=? b) && (b <=? 0xEF) then
     ([], mkD 2 (N.land b 0xF)
            (if b =? 0xE0 then 0xA0 else 0x80)
            (if b =? 0xED then 0x9F else 0xBF))
   else if (0xF0 <=? b) && (b <=? 0xF4) then
     ([], mkD 3 (N.land b 0x7)
            (if b =? 0xF0 then 0x90 else 0x80)
            (if b =? 0xF4 then 0x8F else 0xBF))
   else ([0xFFFD], d0))%N.

Definition dstep (st : dstate) (b : N) : ustring * dstate :=
  match needed st with
  | O => lead b
  | S k =>
      if ((lower st <=? b) && (b <=? upper st))%N then
        let c := N.lor (N.shiftl (cp st) 6) (N.land b 0x3F) in
        match k with
        | O => ([c], d0)
        | S _ => ([], mkD k c 0x80 0xBF)
        end
      else
        (* the sequence is broken: one error, and the byte is read again
           as the start of a sequence *)
        let '(out, st') := lead b in (0xFFFD%N :: out, st')
  end.

Fixpoint decode_from (st : dstate) (l : bytes) : ustring :=
  match l with
  | [] => match needed st with O => [] | S _ => [0xFFFD%N] end
  | b :: r =>
      let '(out, st') := dstep st (Byte.to_N b) in
      out ++ decode_from st' r
  end.

Definition decode (l : bytes) : ustring :=
  match decode_from d0 l with
  | c :: r => if (c =? 0xFEFF)%N then r else c :: r
  | [] => []
  end.

(** *** [String.prototype.trim], [split], [padStart], [toString(16)] *)

(** WhiteSpace and LineTerminator code points of ECMAScript. *)
Definition is_js_space (c : N) : bool :=
  ((c =? 9) || (c =? 10) || (c =? 11) || (c =? 12) || (c =? 13) ||
   (c =? 32) || (c =? 0xA0) || (c =? 0x1680) ||
   ((0x2000 <=? c) && (c <=? 0x200A)) ||
   (c =? 0x2028) || (c =? 0x2029) || (c =? 0x202F) || (c =? 0x205F) ||
   (c =? 0x3000) || (c =? 0xFEFF))%N.

Fixpoint trimStart (s : ustring) : ustring :=
  match s with
  | c :: r => if is_js_space c then trimStart r else s
  | [] => []
  end.

Definition trimEnd (s : ustring) : ustring := rev (trimStart (rev s)).

Definition trim (s : ustring) : ustring := trimEnd (trimStart s).

(** [s.split(sep)] for a one-character separator. *)
Fixpoint split (sep : N) (s : ustring) : list ustring :=
  match s with
  | [] => [[]]
  | c :: r =>
      if (c =? sep)%N then [] :: split sep r
      else match split sep r with
           | h :: t => (c :: h) :: t
           | [] => [[c]]
           end
  end.

Definition padStart (s : ustring) (n : nat) (c : N) : ustring :=
  repeat c (n - length s) ++ s.

Definition hex_digit (d : N) : N :=
  (if d <? 10 then 48 + d else 87 + d)%N.

Fixpoint to_hex (fuel : nat) (n : N) (acc : ustring) : ustring :=
  match fuel with
  | O => acc
  | S f =>
      let acc' := hex_digit (n mod 16) :: acc in
      if (n / 16 =? 0)%N then acc' else to_hex f (n / 16) acc'
  end.

(** [n.toString(16)] for a non-negative integer. *)
Definition toString16 (n : N) : ustring :=
  to_hex (S (N.to_nat (N.log2 n))) n [].

(** *** JavaScript numbers: an integer or NaN *)

Definition num := option Z.

Definition nadd (a b : num) : num :=
  match a, b with
  | Some x, Some y => Some (x + y)%Z
  | _, _ => None
  end.

(** ToIntegerOrInfinity: NaN becomes 0. *)
Definition to_int (a : num) : Z :=
  match a with Some x => x | None => 0%Z end.

(** [len === 0] (negative zero is an integer zero here). *)
Definition is_zero (a : num) : bool :=
  match a with Some x => (x =? 0)%Z | None => false end.

Definition hex_val (c : N) : option N :=
  (if (48 <=? c) && (c <=? 57) then Some (c - 48)
   else if (97 <=? c) && (c <=? 102) then Some (c - 87)
   else if (65 <=? c) && (c <=? 70) then Some (c - 55)
   else None)%N.

(** The value of the longest prefix of hexadecimal digits; [acc] is
    [None] as long as no digit was read. *)
Fixpoint hex_prefix (s : ustring) (acc : option N) : option N :=
  match s with
  | [] => acc
  | c :: r =>
      match hex_val c with
      | None => acc
      | Some d =>
          hex_prefix r
            (Some (16 * (match acc with Some a => a | None => 0 end) + d)%N)
      end
  end.

(** [parseInt(s, 16)]: leading white space is skipped, then an optional
    sign, then an optional [0x]/[0X], then the longest run of
    hexadecimal digits; NaN when that run is empty. *)
Definition parseInt16 (s : ustring) : num :=
  let s1 := trimStart s in
  let '(sign, s2) :=
    match s1 with
    | c :: r =>
        if (c =? 45)%N then ((-1)%Z, r)          (* - *)
        else if (c =? 43)%N then (1%Z, r)        (* + *)
        else (1%Z, s1)
    | [] => (1%Z, s1)
    end in
  let s3 :=
    match s2 with
    | c :: x :: r =>
        if ((c =? 48) && ((x =? 120) || (x =? 88)))%N then r else s2
    | _ => s2
    end in
  match hex_prefix s3 None with
  | Some n => Some (sign * Z.of_N n)%Z
  | None => None
  end.

(** *** [Uint8Array]: [slice], [set], allocation *)

Definition rel_index (len x : Z) : Z :=
  (if x <? 0 then Z.max (len + x) 0 else Z.min x len)%Z.

(** [buf.slice(s, e)]: negative indices count from the end. *)
Definition slice {A : Type} (buf : list A) (s e : Z) : list A :=
  let len := Z.of_nat (length buf) in
  let k := rel_index len s in
  let f := rel_index len e in
  firstn (Z.to_nat (f - k)) (skipn (Z.to_nat k) buf).

(** [buf.slice(s)]. *)
Definition slice_from {A : Type} (buf : list A) (s : Z) : list A :=
  slice buf s (Z.of_nat (length buf)).

(** [new Uint8Array(n)]. *)
Definition zeros (n : nat) : bytes := repeat x00 n.

(** [out.set(src, off)] when [src] fits in [out] from [off] on (the
    program never calls it otherwise). *)
Definition u8_set (out src : bytes) (off : nat) : bytes :=
  firstn off out ++ src ++ skipn (off + length src) out.

(** [a === b] on strings. *)
Fixpoint str_eqb (a b : ustring) : bool :=
  match a, b with
  | [], [] => true
  | x :: a', y :: b' => (x =? y)%N && str_eqb a' b'
  | _, _ => false
  end.

(** [key.startsWith(prefix)]: how R2 selects the objects of a listing. *)
Fixpoint starts_with (prefix s : ustring) : bool :=
  match prefix, s with
  | [], _ => true
  | x :: p', y :: s' => (x =? y)%N && starts_with p' s'
  | _ :: _, [] => false
  end.

(** Keys are listed in the order of their UTF-8 bytes, which is the
    lexicographic order of their code points. *)
Fixpoint key_compare (a b : ustring) : comparison :=
  match a, b with
  | [], [] => Eq
  | [], _ :: _ => Lt
  | _ :: _, [] => Gt
  | x :: a', y :: b' =>
      match (x ?= y)%N with
      | Eq => key_compare a' b'
      | c => c
      end
  end.

(** What a function that may throw yields; [OutOfFuel] marks a loop cut
    short by the model's bound. *)
Inductive outcome (A : Type) : Type :=
| Returned (a : A)
| Thrown
| OutOfFuel.
Arguments Returned {A} a.
Arguments Thrown {A}.
Arguments OutOfFuel {A}.

(** ** Basic tools *)

Definition pktLine (payload : bytes) : bytes :=
  let len := length payload + 4 in
  let header := encode (padStart (toString16 (N.of_nat len)) 4 48%N) in
  let out := zeros len in
  let out := u8_set out header 0 in
  u8_set out payload 4.

(** [pktLine] applied to a string. *)
Definition pktLineS (data : ustring) : bytes := pktLine (encode data).

Definition sidebandPacket (data : bytes) : bytes :=
  let out := zeros (length data + 1) in
  let out := u8_set out [x01] 0 in      (* out[0] = 1, channel 1 *)
  let out := u8_set out data 1 in
  pktLine out.

Definition pktFlush : bytes := encode (lit "0000").

Definition concat (chunks : list bytes) : bytes :=
  let total := fold_left (fun s c => s + length c) chunks 0 in
  let out := zeros total in
  fst (fold_left
         (fun (st : bytes * nat) c =>
            let '(out, offset) := st in
            (u8_set out c offset, offset + length c))
         chunks (out, 0)).

Definition zeroOid : ustring :=
  lit "0000000000000000000000000000000000000000".

(** [p.join("/")]. *)
Fixpoint join (p : list ustring) : ustring :=
  match p with
  | [] => []
  | [x] => x
  | x :: r => x ++ lit "/" ++ join r
  end.

(** ** The R2 bucket *)

Record r2object := mkObj {
  key : ustring;
  body : bytes;
  uploaded : Z
}.

Definition bucket := list r2object.

(** [GIT_R2.put(key, value)] at time [now]: the object replaces the one
    of that key, or takes its place in key order. *)
Fixpoint put (env : bucket) (k : ustring) (v : bytes) (now : Z) : bucket :=
  match env with
  | [] => [mkObj k v now]
  | o :: r =>
      match key_compare k (key o) with
      | Lt => mkObj k v now :: o :: r
      | Eq => mkObj k v now :: r
      | Gt => o :: put r k v now
      end
  end.

(** [put] of a string stores its UTF-8 encoding. *)
Definition put_text (env : bucket) (k : ustring) (v : ustring) (now : Z)
  : bucket :=
  put env k (encode v) now.

(** [GIT_R2.get(key)]; [None] is [null]. *)
Definition get (env : bucket) (k : ustring) : option r2object :=
  find (fun o => str_eqb (key o) k) env.

(** [(await GIT_R2.list({ prefix })).objects]. *)
Definition r2_list (env : bucket) (prefix : ustring) : list r2object :=
  filter (fun o => starts_with prefix (key o)) env.

(** [obj.text()] and [obj.arrayBuffer()]. *)
Definition text (o : r2object) : ustring := decode (body o).
Definition arrayBuffer (o : r2object) : bytes := body o.

(** ** R2 repository operations *)

Definition repoExists (env : bucket) (org repo : ustring) : bool :=
  let list := firstn 1 (r2_list env (join [lit "repos"; org; repo])) in
  (0 <? length list).

(** [refs[k] = v] on an object whose keys are not array indices: the
    property keeps its place, a new one goes last. *)
Fixpoint record_set (refs : list (ustring * ustring)) (k v : ustring)
  : list (ustring * ustring) :=
  match refs with
  | [] => [(k, v)]
  | (k', v') :: r =>
      if str_eqb k' k then (k', v) :: r else (k', v') :: record_set r k v
  end.

Fixpoint listRefs_loop (env : bucket) (prefix : ustring)
    (objects : list r2object) (refs : list (ustring * ustring))
  : outcome (list (ustring * ustring)) :=
  match objects with
  | [] => Returned refs
  | obj :: rest =>
      (* the key starts with the prefix: what is left is the name *)
      let name := skipn (length prefix) (key obj) in
      match get env (key obj) with
      | None => Thrown                       (* [data!] is null *)
      | Some data =>
          let sha := trim (text data) in
          listRefs_loop env prefix rest
            (if negb (str_eqb sha [])
             then record_set refs (lit "refs/heads/" ++ name) sha
             else refs)
      end
  end.

Definition listRefs (env : bucket) (org repo : ustring)
  : outcome (list (ustring * ustring)) :=
  let prefix := join [lit "repos"; org; repo; lit "refs/heads/"] in
  listRefs_loop env prefix (r2_list env prefix) [].

Definition initRepo (env : bucket) (now : Z) (org repo : ustring) : bucket :=
  let base := join [lit "repos"; org; repo] in
  let env := put_text env (join [base; lit "HEAD"])
               (lit "ref: refs/heads/main" ++ nl) now in
  put_text env (join [base; lit "refs/heads/main"]) (zeroOid ++ nl) now.

Definition readRef (env : bucket) (base ref : ustring) : ustring :=
  match get env (join [base; ref]) with
  | None => zeroOid
  | Some obj =>
      let text := trim (text obj) in
      if str_eqb text [] then zeroOid else text
  end.

(** ** Responses *)

Record response := mkResp {
  status : Z;
  contentType : option ustring;   (* the header given to [new Response] *)
  rbody : bytes
}.

(** A header value that [new Response] accepts: one without NUL, LF or
    CR.  [new Response] throws a TypeError for a value that holds one
    of them.  (White space around a value is stripped before the test;
    no value that the program builds starts or ends with white space.
    The Workers runtime does not refuse a character above U+00FF in a
    value.) *)
Definition header_value_ok (v : ustring) : bool :=
  forallb (fun c => negb ((c =? 0) || (c =? 10) || (c =? 13))%N) v.

(** ** info/refs *)

Definition receive_caps : ustring :=
  lit "report-status delete-refs side-band-64k quiet atomic ofs-delta".

Definition upload_caps : ustring :=
  lit "multi_ack_detailed multi_ack thin-pack side-band side-band-64k ofs-delta shallow no-progress include-tag".

Fixpoint advertise_loop (entries : list (ustring * ustring))
    (capabilities : ustring) (first : bool) (out : list bytes) : list bytes :=
  match entries with
  | [] => out
  | (ref, sha) :: rest =>
      if first then
        advertise_loop rest capabilities false
          (out ++ [pktLineS ((if str_eqb sha [] then zeroOid else sha)
                             ++ [sp] ++ ref ++ nul ++ capabilities ++ nl)])
      else
        advertise_loop rest capabilities first
          (out ++ [pktLineS (sha ++ [sp] ++ ref ++ nl)])
  end.

Definition handleInfoRefs (env : bucket) (now : Z)
    (org repo service : ustring) : outcome response * bucket :=
  let exists_ := repoExists env org repo in
  (* a push may create the repository *)
  let env :=
    if negb exists_ && str_eqb service (lit "git-receive-pack")
    then initRepo env now org repo else env in
  if negb exists_ && str_eqb service (lit "git-upload-pack") then
    (Returned (mkResp 404 None (encode (lit "Repository not found"))), env)
  else
    match listRefs env org repo with
    | Returned refs =>
        let capabilities :=
          if str_eqb service (lit "git-receive-pack")
          then receive_caps else upload_caps in
        let out := [] in
        let out := out ++ [pktLineS (lit "# service=" ++ service ++ nl)] in
        let out := out ++ [pktFlush] in
        let out := advertise_loop refs capabilities true out in
        let out := out ++ [pktFlush] in
        let contentType :=
          lit "application/x-" ++ service ++ lit "-advertisement" in
        (* [new Response] checks the header it is given *)
        if header_value_ok contentType then
          (Returned (mkResp 200 (Some contentType) (concat out)), env)
        else (Thrown, env)
    | Thrown => (Thrown, env)
    | OutOfFuel => (OutOfFuel, env)
    end.

(** ** git-upload-pack (clone) *)

(** [objects.sort(cmp)]: the sort is stable. *)
Fixpoint sort_insert {A : Type} (cmp : A -> A -> Z) (x : A) (l : list A)
  : list A :=
  match l with
  | [] => [x]
  | y :: r =>
      if (cmp x y <=? 0)%Z then x :: y :: r else y :: sort_insert cmp x r
  end.

Definition sort_by {A : Type} (cmp : A -> A -> Z) (l : list A) : list A :=
  fold_right (sort_insert cmp) [] l.

Definition MAX : Z := 65500.

(** The loop [for (let i = 0; i < packData.length; i += MAX)], from [i]
    on. *)
Fixpoint upload_loop (fuel : nat) (packData : bytes) (i : Z) : list bytes :=
  match fuel with
  | O => []
  | S f =>
      if (i <? Z.of_nat (length packData))%Z then
        let slice_ := slice packData i (i + MAX) in
        let side := zeros (length slice_ + 1) in
        let side := u8_set side [x01] 0 in     (* channel 1 = pack *)
        let side := u8_set side slice_ 1 in
        pktLine side :: upload_loop f packData (i + MAX)%Z
      else []
  end.

Definition upload_result_type : ustring :=
  lit "application/x-git-upload-pack-result".

Definition handleUploadPack (env : bucket) (org repo : ustring)
  : outcome response :=
  let prefix := join [lit "repos"; org; repo; lit "objects/pack/"] in
  let objects := r2_list env prefix in
  if length objects =? 0 then
    Returned (mkResp 200 (Some upload_result_type) pktFlush)
  else
    match sort_by (fun a b => (uploaded b - uploaded a)%Z) objects with
    | [] => Thrown                              (* [latest] is undefined *)
    | latest :: _ =>
        match get env (key latest) with
        | None => Thrown                        (* [packObj!] is null *)
        | Some packObj =>
            let packData := arrayBuffer packObj in
            let chunks := upload_loop (length packData) packData 0 in
            let chunks := chunks ++ [pktFlush] in
            Returned (mkResp 200 (Some upload_result_type) (concat chunks))
        end
    end.

(** ** git-receive-pack (push) *)

Record command := mkCmd {
  old : ustring;
  new : ustring;
  ref : ustring
}.

(** The body of the parsing loop after the line is decoded: the
    destructuring of [line.trim().split(" ")] and [refPart.split("\0")[0]];
    [None] is the TypeError of [refPart] being undefined. *)
Definition parse_command (line : ustring) : option command :=
  match split sp (trim line) with
  | oldSha :: newSha :: refPart :: _ =>
      Some (mkCmd oldSha newSha (hd [] (split 0%N refPart)))
  | _ => None
  end.

(** The length field read at [i], and the payload bytes that follow it. *)
Definition frame_len (buf : bytes) (i : num) : num :=
  parseInt16 (decode (slice buf (to_int i) (to_int (nadd i (Some 4%Z))))).

Definition frame_payload (buf : bytes) (i len : num) : bytes :=
  slice buf (to_int (nadd i (Some 4%Z))) (to_int (nadd i len)).

Fixpoint parse_loop (fuel : nat) (buf : bytes) (i : num)
    (commands : list command) : outcome (list command) :=
  match fuel with
  | O => OutOfFuel
  | S f =>
      let len := frame_len buf i in
      if is_zero len then Returned commands
      else
        let line := decode (frame_payload buf i len) in
        let i := nadd i len in
        match parse_command line with
        | None => Thrown
        | Some c => parse_loop f buf i (commands ++ [c])
        end
  end.

(** [buf[j] === n]; out of range [buf[j]] is [undefined]. *)
Definition byte_is (buf : bytes) (j : Z) (n : N) : bool :=
  match nth_error buf (Z.to_nat j) with
  | Some x => (Byte.to_N x =? n)%N
  | None => false
  end.

(** The loop of [findPackStart], from [i] on. *)
Fixpoint findPackStart_loop (fuel : nat) (buf : bytes) (i : Z) : Z :=
  match fuel with
  | O => 0%Z
  | S f =>
      if (i <? Z.of_nat (length buf) - 4)%Z then
        if byte_is buf i 0x50                      (* P *)
           && byte_is buf (i + 1) 0x41             (* A *)
           && byte_is buf (i + 2) 0x43             (* C *)
           && byte_is buf (i + 3) 0x4b             (* K *)
        then i
        else findPackStart_loop f buf (i + 1)%Z
      else 0%Z
  end.

Definition findPackStart (buf : bytes) : Z :=
  findPackStart_loop (length buf) buf 0.

(** Every turn of the parsing loop that goes on moves the read position
    forward in the buffer, so [S (length buf)] turns are enough (lemma
    [parse_loop_fuel]). *)
Definition parseReceiveCommands (buf : bytes)
  : outcome (list command * Z) :=
  match parse_loop (S (length buf)) buf (Some 0%Z) [] with
  | Returned commands => Returned (commands, findPackStart buf)
  | Thrown => Thrown
  | OutOfFuel => OutOfFuel
  end.

Definition ng_line (c : command) : ustring :=
  lit "ng " ++ ref c ++ lit " non-fast-forward" ++ nl.

Definition ok_line (c : command) : ustring :=
  lit "ok " ++ ref c ++ nl.

(** One turn of the loop over the commands. *)
Definition receive_command (now : Z) (base : ustring)
    (st : bucket * list bytes) (cmd : command) : bucket * list bytes :=
  let '(env, results) := st in
  let current := readRef env base (ref cmd) in
  let oldSha := if str_eqb (old cmd) zeroOid then zeroOid else old cmd in
  if negb (str_eqb current oldSha) && negb (str_eqb oldSha zeroOid) then
    (env, results ++ [pktLineS (ng_line cmd)])
  else
    (put_text env (join [base; ref cmd]) (new cmd ++ nl) now,
     results ++ [pktLineS (ok_line cmd)]).

(** The loop [for (const cmd of commands)], from the state [st]. *)
Definition run_commands (now : Z) (base : ustring) (cmds : list command)
    (st : bucket * list bytes) : bucket * list bytes :=
  fold_left (receive_command now base) cmds st.

Definition pack_key (base hash : ustring) : ustring :=
  join [base; lit "objects/pack/pack-" ++ hash ++ lit ".pack"].

Definition receive_result_type : ustring :=
  lit "application/x-git-receive-pack-result".

(** [hash] is [crypto.randomUUID().replace(/-/g, "")], drawn by the
    platform. *)
Definition handleReceivePack (env : bucket) (now : Z) (hash : ustring)
    (org repo : ustring) (buf : bytes) : outcome response * bucket :=
  match parseReceiveCommands buf with
  | Returned (commands, packStart) =>
      let base := join [lit "repos"; org; repo] in
      let results := [pktLineS (lit "unpack ok" ++ nl)] in
      let '(env, results) :=
        run_commands now base commands (env, results) in
      (* store the pack *)
      let pack := slice_from buf packStart in
      let env :=
        if 0 <? length pack then put env (pack_key base hash) pack now
        else env in
      (* every pkt-line goes into a side-band channel 1 packet *)
      let sideband := concat (map sidebandPacket results) in
      let final := concat [sideband; pktFlush] in
      (Returned (mkResp 200 (Some receive_result_type) final), env)
  | Thrown => (Thrown, env)
  | OutOfFuel => (OutOfFuel, env)
  end.

(** * Two requests on one bucket *)

Module Race.

(** A push of one command takes two steps on the bucket, between which
    another request may run: the [get] of [readRef], after which the
    comparison rejects the command at once or lets it go on, and the
    [put] of the new id. *)
Inductive phase : Type :=
| Start
| Pending              (* the stored id was read and accepted *)
| Done (ok : bool).    (* [ok <ref>] or [ng <ref> non-fast-forward] reported *)

Inductive req : Type := First | Second.

Definition req_eqb (a b : req) : bool :=
  match a, b with
  | First, First | Second, Second => true
  | _, _ => false
  end.

Record world := mkWorld {
  store : bucket;
  ph1 : phase;
  ph2 : phase
}.

(** The test of [handleReceivePack] on the id just read. *)
Definition rejects (base : ustring) (env : bucket) (c : command) : bool :=
  let current := readRef env base (ref c) in
  let oldSha := if str_eqb (old c) zeroOid then zeroOid else old c in
  negb (str_eqb current oldSha) && negb (str_eqb oldSha zeroOid).

Definition step_req (base : ustring) (now : Z) (c : command)
    (env : bucket) (ph : phase) : bucket * phase :=
  match ph with
  | Start => if rejects base env c then (env, Done false) else (env, Pending)
  | Pending =>
      (put_text env (join [base; ref c]) (new c ++ nl) now, Done true)
  | Done ok => (env, Done ok)
  end.

(** The first request runs [c1] at time [now1], the second [c2] at
    [now2]. *)
Definition step (base : ustring) (now1 now2 : Z) (c1 c2 : command)
    (w : world) (who : req) : world :=
  match who with
  | First =>
      let '(env, ph) := step_req base now1 c1 (store w) (ph1 w) in
      mkWorld env ph (ph2 w)
  | Second =>
      let '(env, ph) := step_req base now2 c2 (store w) (ph2 w) in
      mkWorld env (ph1 w) ph
  end.

(** The run of a schedule: which request takes the next step. *)
Definition run (base : ustring) (now1 now2 : Z) (c1 c2 : command)
    (sched : list req) (w : world) : world :=
  fold_left (step base now1 now2 c1 c2) sched w.

Definition start (env : bucket) : world := mkWorld env Start Start.

Definition both_done (w : world) : bool :=
  match ph1 w, ph2 w with
  | Done _, Done _ => true
  | _, _ => false
  end.

Definition succeeded (ph : phase) : bool :=
  match ph with Done true => true | _ => false end.

Definition phase_of (who : req) (w : world) : phase :=
  match who with First => ph1 w | Second => ph2 w end.

End Race.

(** * Vocabulary of the properties *)

(** ** The pkt-line header *)

(** The header that [pktLine] computes for a frame of [n] bytes. *)
Definition header (n : N) : bytes :=
  encode (padStart (toString16 n) 4 48%N).

Definition is_lower_hex (x : byte) : bool :=
  let c := Byte.to_N x in
  (((48 <=? c) && (c <=? 57)) || ((97 <=? c) && (c <=? 102)))%N.

(** The four digits of a number below [16^4]. *)
Definition digits4 (n : N) : ustring :=
  [hex_digit (n / 4096); hex_digit ((n / 256) mod 16);
   hex_digit ((n / 16) mod 16); hex_digit (n mod 16)]%N.

(** ** Text and object ids *)

(** Strings of ASCII characters. *)
Definition ascii_str (s : ustring) : Prop := Forall (fun c => (c < 128)%N) s.

Definition is_hex_char (c : N) : bool :=
  match hex_val c with Some _ => true | None => false end.

(** A syntactically valid id: 40 hexadecimal characters (the zero id is
    one). *)
Definition is_oid (s : ustring) : bool :=
  (length s =? 40) && forallb is_hex_char s.

Definition main_ref : ustring := lit "refs/heads/main".

Definition unpack_ok : ustring := lit "unpack ok" ++ nl.

(** ** Advertisements *)

(** The Content-Type that [handleInfoRefs] gives to its response. *)
Definition content_type (service : ustring) : ustring :=
  lit "application/x-" ++ service ++ lit "-advertisement".

(** The repository has no record: no key of the bucket starts with
    [repos/<org>/<repo>/]. *)
Definition repo_absent (env : bucket) (org repo : ustring) : Prop :=
  r2_list env (join [lit "repos"; org; repo] ++ lit "/") = [].

(** ** The parsing loop *)

(** The place in the buffer that the read position [i] denotes. *)
Definition pos (buf : bytes) (i : num) : Z :=
  rel_index (Z.of_nat (length buf)) (to_int i).

(** The parsing loop arrives at the read position [i] with the commands
    [cmds] read so far. *)
Inductive reaches (buf : bytes) : num -> list command -> Prop :=
| reaches_start : reaches buf (Some 0%Z) []
| reaches_step i cmds c :
    reaches buf i cmds ->
    is_zero (frame_len buf i) = false ->
    parse_command (decode (frame_payload buf i (frame_len buf i))) = Some c ->
    reaches buf (nadd i (frame_len buf i)) (cmds ++ [c]).

(** The bytes of the length field at [i]: four, or fewer at the end of
    the body. *)
Definition field_at (buf : bytes) (i : num) : bytes :=
  slice buf (to_int i) (to_int (nadd i (Some 4%Z))).

(** A length field as the protocol writes it: four hexadecimal digits. *)
Definition well_formed_field (f : bytes) : bool :=
  (length f =? 4) && forallb (fun x => is_hex_char (Byte.to_N x)) f.

(** The length field at [i] cannot be parsed as the protocol has it: it
    is not four hexadecimal digits. *)
Definition unparseable (buf : bytes) (i : num) : Prop :=
  well_formed_field (field_at buf i) = false.

(** [parseInt] reads no number from the length field at [i]: it gives
    NaN. *)
Definition reads_nan (buf : bytes) (i : num) : Prop :=
  frame_len buf i = None.

(** The frame at [i] declares more bytes than the body holds. *)
Definition truncated (buf : bytes) (i : num) : Prop :=
  exists z len,
    i = Some z /\ frame_len buf i = Some len /\
    (0 <= z)%Z /\ (Z.of_nat (length buf) < z + len)%Z.

(** The pack magic, [PACK]. *)
Definition magic : bytes := [x50; x41; x43; x4b].

(** The body holds the four bytes [PACK] somewhere. *)
Definition contains_magic (buf : bytes) : Prop :=
  exists pre post, buf = pre ++ magic ++ post.

(** ** The bucket *)

(** The order of the keys, on objects. *)
Definition obj_lt (a b : r2object) : Prop :=
  key_compare (key a) (key b) = Lt.

(** The keys of the bucket are strictly increasing. *)
Definition bucket_ok (env : bucket) : Prop := StronglySorted obj_lt env.

(** The comparator that [handleUploadPack] sorts with. *)
Definition by_upload_desc (a b : r2object) : Z := (uploaded b - uploaded a)%Z.

Definition pack_prefix (org repo : ustring) : ustring :=
  join [lit "repos"; org; repo; lit "objects/pack/"].

(** A record that holds a syntactically valid id and a newline. *)
Definition ref_record_ok (v : bytes) : Prop :=
  exists id, is_oid id = true /\ v = encode (id ++ nl).

(** Every record of the repository under [refs/] is such a record. *)
Definition refs_valid (base : ustring) (env : bucket) : Prop :=
  forall r o,
    starts_with (lit "refs/") r = true ->
    get env (join [base; r]) = Some o ->
    ref_record_ok (body o).

(** ** Report lines *)

(** The status line of a command: [ok] or [ng]. *)
Definition status_of (c : command) (line : ustring) : Prop :=
  line = ok_line c \/ line = ng_line c.

(** ** Claims of the specification that the code does not satisfy, as
    the specification has them *)

(** The claim as the specification has it: a body without the magic is
    scanned to offset 0 and, when it is not empty, stored whole as a pack
    under the key of the fresh identifier. *)
Definition body_always_persisted : Prop :=
  forall env now hash org repo buf,
    ~ contains_magic buf ->
    findPackStart buf = 0%Z /\
    (buf <> [] ->
     let k := pack_key (join [lit "repos"; org; repo]) hash in
     get (snd (handleReceivePack env now hash org repo buf)) k
     = Some (mkObj k buf now)).

(** The claim as the specification has it: [init] and every receive-pack
    request keep the ref records valid. *)
Definition ref_invariant_preserved : Prop :=
  forall env now hash org repo buf,
    let base := join [lit "repos"; org; repo] in
    refs_valid base env ->
    refs_valid base (initRepo env now org repo) /\
    refs_valid base (snd (handleReceivePack env now hash org repo buf)).

(** The claim as the specification has it: every receive-pack request
    is answered, and the body of the response starts with the line
    [unpack ok] in its side-band packet. *)
Definition unpack_ok_always_reported : Prop :=
  forall env now hash org repo buf,
    exists resp env' rest,
      handleReceivePack env now hash org repo buf = (Returned resp, env') /\
      rbody resp = sidebandPacket (pktLineS unpack_ok) ++ rest.

(** The claim as the specification has it: a request in whose body the
    parsing comes to a length field that is not four hexadecimal digits,
    or to a frame cut short of its declared length, is aborted. *)
Definition malformed_always_aborts : Prop :=
  forall env now hash org repo buf i cmds,
    reaches buf i cmds ->
    unparseable buf i \/ truncated buf i ->
    fst (handleReceivePack env now hash org repo buf) = Thrown.

(** Of two pushes of the same ref with the same declared old id,
    whatever the interleaving of their steps, one succeeds and the other
    is rejected. *)
Definition exactly_one_succeeds : Prop :=
  forall base now1 now2 env r oldId new1 new2 sched,
    let w := Race.run base now1 now2 (mkCmd oldId new1 r) (mkCmd oldId new2 r)
               sched (Race.start env) in
    Race.both_done w = true ->
    xorb (Race.succeeded (Race.ph1 w)) (Race.succeeded (Race.ph2 w)) = true.

(** ** Sample data *)

Definition oid_a : ustring := lit "aaaaaaaaaaaaaaaaaaaaaaaaaaaaaaaaaaaaaaaa".
Definition oid_b : ustring := lit "bbbbbbbbbbbbbbbbbbbbbbbbbbbbbbbbbbbbbbbb".
Definition oid_c : ustring := lit "cccccccccccccccccccccccccccccccccccccccc".

(** The bucket that a push of the one command [zero aaaa... refs/tags/v1]
    to a new repository leaves: the repository exists and has no branch
    ref. *)
Definition tag_only_bucket : bucket :=
  snd (handleReceivePack [] 7 (lit "cafe") (lit "o") (lit "r")
         (pktLineS (zeroOid ++ [sp] ++ oid_a ++ [sp] ++ lit "refs/tags/v1")
          ++ pktFlush)).

Definition pack1 : bytes := list_byte_of_string "PACK-one".
Definition pack2 : bytes := list_byte_of_string "PACK-two".

Definition two_packs : bucket :=
  put (put [] (pack_key (lit "repos/o/r") (lit "ff")) pack1 1)
    (pack_key (lit "repos/o/r") (lit "00")) pack2 2.

(** A bucket whose only record is [refs/heads/main] of the repository
    [o/r], holding [id]. *)
Definition main_at (id : ustring) : bucket :=
  put_text [] (lit "repos/o/r/refs/heads/main") (id ++ nl) 1.

(** A bucket that holds the repository [o/r2] only: the repository
    [o/r] has no record. *)
Definition sibling_bucket : bucket :=
  put_text [] (lit "repos/o/r2/refs/heads/main") (oid_a ++ nl) 1.

(** ** Checking a property of each number below a bound *)

Definition all_below (n : nat) (P : N -> bool) : bool :=
  forallb P (map N.of_nat (seq 0 n)).

(** What is used of a hexadecimal digit character, for each of the
    sixteen digits. *)
Definition digit_ok (d : N) : bool :=
  let c := hex_digit d in
  (c <? 128)%N
  && negb (is_js_space c)
  && negb (c =? 45)%N && negb (c =? 43)%N
  && negb (c =? 120)%N && negb (c =? 88)%N
  && negb (c =? 0xFEFF)%N
  && is_lower_hex (byte_of_N c)
  && match hex_val c with Some v => (v =? d)%N | None => false end.

(** * The rest of the Worker *)

(** ** Path parsing *)

Record repo_path := mkPath {
  p_org : ustring;
  p_repo : ustring;       (* xxx.git *)
  p_subpath : ustring
}.

(** [None] is [null]. *)
Definition parseRepoPath (path : ustring) : option repo_path :=
  let parts := filter (fun s => negb (str_eqb s [])) (split 47%N path) in
  match parts with
  | org :: repo :: rest => Some (mkPath org repo (join rest))
  | _ => None
  end.

(** ** The Worker's entry point *)

(** What [fetch] reads of the request: [new URL(request.url).pathname],
    [url.searchParams.get("service")] ([None] is [null]),
    [request.method] and the bytes of the body. *)
Record request := mkReq {
  pathname : ustring;
  service_param : option ustring;
  method : ustring;
  req_body : bytes
}.

Definition fetch (env : bucket) (now : Z) (hash : ustring) (rq : request)
  : outcome response * bucket :=
  match parseRepoPath (pathname rq) with
  | None => (Returned (mkResp 400 None (encode (lit "Bad path"))), env)
  | Some (mkPath org repoName subpath) =>
      if str_eqb subpath (lit "info/refs") then
        match service_param rq with
        | None =>
            (Returned (mkResp 400 None (encode (lit "Missing service"))), env)
        | Some service =>
            if str_eqb service [] then
              (Returned (mkResp 400 None (encode (lit "Missing service"))),
               env)
            else handleInfoRefs env now org repoName service
        end
      else if str_eqb subpath (lit "git-upload-pack")
              && str_eqb (method rq) (lit "POST") then
        (handleUploadPack env org repoName, env)
      else if str_eqb subpath (lit "git-receive-pack")
              && str_eqb (method rq) (lit "POST") then
        handleReceivePack env now hash org repoName (req_body rq)
      else (Returned (mkResp 404 None (encode (lit "Not found"))), env)
  end.

(** * The earlier version of the Worker *)

(** [extractNewHead], which [index.ts] still holds and no longer calls.
    The regular expression
    [/0000000000000000000000000000000000000000 ([0-9a-f]{40})/] has no
    choice in it: at a given position it matches in one way or not at
    all, and [match] returns the group of the first position where it
    does. *)
Definition is_lower_hex_char (c : N) : bool :=
  (((48 <=? c) && (c <=? 57)) || ((97 <=? c) && (c <=? 102)))%N.

(** The match at the start of [text]. *)
Definition new_head_at (text : ustring) : option ustring :=
  if starts_with (zeroOid ++ [sp]) text then
    let m := firstn 40 (skipn 41 text) in
    if (length m =? 40) && forallb is_lower_hex_char m then Some m else None
  else None.

Fixpoint new_head_scan (text : ustring) : option ustring :=
  match new_head_at text with
  | Some m => Some m
  | None =>
      match text with
      | [] => None
      | _ :: r => new_head_scan r
      end
  end.

(** [None] is [null]. *)
Definition extractNewHead (buf : bytes) : option ustring :=
  let text := decode buf in
  new_head_scan text.

(** [src/unnamed/part_000], the version of the Worker before the
    commands of a push were parsed.  Its tools, [parseRepoPath],
    [repoExists], [listRefs], [findPackStart] and [extractNewHead] are
    those above; the functions that differ follow. *)
Module Earlier.

Definition initRepo (env : bucket) (now : Z) (org repo : ustring) : bucket :=
  let base := join [lit "repos"; org; repo] in
  let env := put_text env (join [base; lit "HEAD"])
               (lit "ref: refs/heads/main" ++ nl) now in
  put_text env (join [base; lit "refs/heads/main"]) [] now.

Definition upload_caps : ustring :=
  lit "multi_ack thin-pack side-band side-band-64k ofs-delta shallow".

Definition handleInfoRefs (env : bucket) (now : Z)
    (org repo service : ustring) : outcome response * bucket :=
  let exists_ := repoExists env org repo in
  (* a push may create the repository *)
  let env :=
    if negb exists_ && str_eqb service (lit "git-receive-pack")
    then initRepo env now org repo else env in
  if negb exists_ && str_eqb service (lit "git-upload-pack") then
    (Returned (mkResp 404 None (encode (lit "Repository not found"))), env)
  else
    match listRefs env org repo with
    | Returned refs =>
        let capabilities :=
          if str_eqb service (lit "git-receive-pack")
          then receive_caps else upload_caps in
        let out := [] in
        let out := out ++ [pktLineS (lit "# service=" ++ service ++ nl)] in
        let out := out ++ [pktFlush] in
        let out := advertise_loop refs capabilities true out in
        let out := out ++ [pktFlush] in
        let contentType :=
          lit "application/x-" ++ service ++ lit "-advertisement" in
        (* [new Response] checks the header it is given *)
        if header_value_ok contentType then
          (Returned (mkResp 200 (Some contentType) (concat out)), env)
        else (Thrown, env)
    | Thrown => (Thrown, env)
    | OutOfFuel => (OutOfFuel, env)
    end.

(** The whole pack goes into one side-band frame. *)
Definition handleUploadPack (env : bucket) (org repo : ustring)
  : outcome response :=
  let prefix := join [lit "repos"; org; repo; lit "objects/pack/"] in
  let objects := r2_list env prefix in
  if length objects =? 0 then
    Returned (mkResp 200 (Some upload_result_type) pktFlush)
  else
    match sort_by (fun a b => (uploaded b - uploaded a)%Z) objects with
    | [] => Thrown                              (* [latest] is undefined *)
    | latest :: _ =>
        match get env (key latest) with
        | None => Thrown                        (* [pack!] is null *)
        | Some pack =>
            let sideband := x01 :: arrayBuffer pack in
            Returned (mkResp 200 (Some upload_result_type)
                        (concat [pktLine sideband; pktFlush]))
        end
    end.

(** [hash] is [crypto.randomUUID().replace(/-/g, "")], drawn by the
    platform. *)
Definition handleReceivePack (env : bucket) (now : Z) (hash : ustring)
    (org repo : ustring) (raw : bytes) : outcome response * bucket :=
  let packStart := findPackStart raw in
  let pack := slice_from raw packStart in
  let base := join [lit "repos"; org; repo] in
  let env :=
    put env (join [base; lit "objects/pack/pack-" ++ hash ++ lit ".pack"])
      pack now in
  let env :=
    match extractNewHead raw with
    | Some newSha =>
        put_text env (join [base; lit "refs/heads/main"]) (newSha ++ nl) now
    | None => env
    end in
  let out :=
    concat [pktLineS (lit "unpack ok" ++ nl);
            pktLineS (lit "ok refs/heads/main" ++ nl);
            pktFlush] in
  (Returned (mkResp 200 (Some receive_result_type) out), env).

Definition fetch (env : bucket) (now : Z) (hash : ustring) (rq : request)
  : outcome response * bucket :=
  match parseRepoPath (pathname rq) with
  | None => (Returned (mkResp 400 None (encode (lit "Bad path"))), env)
  | Some (mkPath org repoName subpath) =>
      if str_eqb subpath (lit "info/refs") then
        match service_param rq with
        | None =>
            (Returned (mkResp 400 None (encode (lit "Missing service"))), env)
        | Some service =>
            if str_eqb service [] then
              (Returned (mkResp 400 None (encode (lit "Missing service"))),
               env)
            else handleInfoRefs env now org repoName service
        end
      else if str_eqb subpath (lit "git-upload-pack")
              && str_eqb (method rq) (lit "POST") then
        (handleUploadPack env org repoName, env)
      else if str_eqb subpath (lit "git-receive-pack")
              && str_eqb (method rq) (lit "POST") then
        handleReceivePack env now hash org repoName (req_body rq)
      else (Returned (mkResp 404 None (encode (lit "Not found"))), env)
  end.

End Earlier.

(** * The Worker that reads the push from the request stream *)

(** The second program of [index.ts] (lines 334-459): pkt-lines are
    strings, the push is read frame by frame from the stream of the
    request body, and the records live under [<org>/<repo>/]. *)
Module StreamWorker.

(** [str.length]: the number of UTF-16 code units of the string. *)
Definition units (s : ustring) : nat :=
  fold_right (fun c n => (if (c <? 0x10000)%N then 1 else 2) + n) 0 s.

(** [s.substring(n)]: [n] code units are dropped; a cut in the middle of
    a character above U+FFFF leaves its low surrogate. *)
Fixpoint substring (n : nat) (s : ustring) {struct s} : ustring :=
  match n with
  | O => s
  | S k =>
      match s with
      | [] => []
      | c :: r =>
          if (c <? 0x10000)%N then substring k r
          else match k with
               | O => (0xDC00 + (c - 0x10000) mod 0x400)%N :: r
               | S k' => substring k' r
               end
      end
  end.

(** ** pkt-line format *)

Definition pktLine (str : ustring) : ustring :=
  let hexLength := padStart (toString16 (N.of_nat (units str + 5))) 4 48%N in
  hexLength ++ str ++ nl.

Definition flushPkt : ustring := lit "0000".

(** [buffer.length < bytes]: no number is below NaN. *)
Definition lt_num (a : Z) (b : num) : bool :=
  match b with Some y => (a <? y)%Z | None => false end.

(** The inner function [read] of [parsePktLine].  The reader is the
    list of the chunks that the stream still holds; [reader.read()]
    takes the first one, and is done when none is left.  The result is
    the value returned ([None] is [null]), the buffer and the reader
    afterwards. *)
Fixpoint read (reader : list bytes) (buffer : bytes) (n : num)
  : option bytes * bytes * list bytes :=
  if lt_num (Z.of_nat (length buffer)) n then
    match reader with
    | [] => (None, buffer, [])
    | value :: reader' => read reader' (buffer ++ value) n
    end
  else
    (Some (slice buffer 0 (to_int n)), slice_from buffer (to_int n), reader).

(** [parsePktLine(reader)]: the line, or [None] for [null], and the
    reader afterwards.  The buffer is a variable of the call: what it
    still holds when the call returns is gone. *)
Definition parsePktLine (reader : list bytes) : option ustring * list bytes :=
  let '(lengthHex, buffer, reader) := read reader [] (Some 4%Z) in
  match lengthHex with
  | None => (None, reader)
  | Some lengthHex =>
      let length := parseInt16 (decode lengthHex) in
      if is_zero length then (None, reader)
      else
        let '(data, _, reader) :=
          read reader buffer (nadd length (Some (-4)%Z)) in
        match data with
        | None => (None, reader)
        | Some data => (Some (decode data), reader)
        end
  end.

(** ** Routing *)

(** The class [[a-zA-Z0-9_-]]. *)
Definition name_char (c : N) : bool :=
  (((97 <=? c) && (c <=? 122)) || ((65 <=? c) && (c <=? 90))
   || ((48 <=? c) && (c <=? 57)) || (c =? 95) || (c =? 45))%N.

(** The longest prefix of characters of a class, and what follows it. *)
Fixpoint span (p : N -> bool) (s : ustring) : ustring * ustring :=
  match s with
  | c :: r =>
      if p c then let '(a, b) := span p r in (c :: a, b) else ([], s)
  | [] => ([], [])
  end.

(** [pathname.match(repoRegex)] for
    [/^\/([a-zA-Z0-9_-]+)\/([a-zA-Z0-9_-]+)\.git\/(info\/refs|git-receive-pack)$/]:
    the groups [org], [repo] and [action], or [None] for [null].  The
    class of the names holds neither the slash nor the dot that must
    follow a name, so a name can only end where the run of its
    characters ends. *)
Definition match_repoRegex (pathname : ustring)
  : option (ustring * ustring * ustring) :=
  match pathname with
  | c :: s =>
      if (c =? 47)%N then
        let '(org, s) := span name_char s in
        if str_eqb org [] then None
        else
          match s with
          | c :: s =>
              if (c =? 47)%N then
                let '(repo, s) := span name_char s in
                if str_eqb repo [] then None
                else if starts_with (lit ".git/") s then
                  let action := skipn 5 s in
                  if str_eqb action (lit "info/refs")
                     || str_eqb action (lit "git-receive-pack")
                  then Some (org, repo, action) else None
                else None
              else None
          | [] => None
          end
      else None
  | [] => None
  end.

(** ** The entry point *)

(** What [fetch] reads of the request; the body is [None] when
    [request.body] is [null], and the chunks of its stream otherwise. *)
Record request := mkReq {
  pathname : ustring;
  service : option ustring;
  method : ustring;
  chunks : option (list bytes)
}.

(** A response: the status, the headers that the code sets, and the
    body, a string or [None] for [null]. *)
Record response := mkResp {
  status : Z;
  headers : list (ustring * ustring);
  rbody : option ustring
}.

Definition not_found : response :=
  mkResp 404 [] (Some (lit "Not found")).

Definition upload_caps : ustring :=
  lit "multi_ack thin-pack side-band side-band-64k ofs-delta shallow deepen-since deepen-not deepen-relative no-progress include-tag multi_ack_detailed symref=HEAD:".

Definition advertisement (body : ustring) : response :=
  mkResp 200
    [(lit "Content-Type", lit "application/x-git-upload-pack-advertisement");
     (lit "Cache-Control", lit "no-cache")]
    (Some body).

(** [service === '...'] on a value that may be [null]. *)
Definition service_is (service : option ustring) (s : ustring) : bool :=
  match service with Some v => str_eqb v s | None => false end.

(** The branch [Git clone] of [fetch]. *)
Definition clone (env : bucket) (repoPrefix : ustring) : response :=
  match get env (repoPrefix ++ lit "/HEAD") with
  | None =>
      (* No HEAD, repository is empty *)
      advertisement
        (List.concat
           [pktLine (lit "# service=git-upload-pack");
            flushPkt;
            pktLine (zeroOid ++ lit " HEAD" ++ nul ++ upload_caps
                     ++ lit "refs/heads/master");
            flushPkt])
  | Some head =>
      let headRefPath := substring 5 (trim (text head)) in
      match get env (repoPrefix ++ lit "/" ++ headRefPath) with
      | None => not_found
      | Some headRef =>
          let headSha := trim (text headRef) in
          advertisement
            (List.concat
               [pktLine (lit "# service=git-upload-pack");
                flushPkt;
                pktLine (headSha ++ lit " HEAD" ++ nul ++ upload_caps
                         ++ headRefPath);
                pktLine (headSha ++ lit " " ++ headRefPath);
                flushPkt])
      end
  end.

(** The body of the loop over the lines of a push. *)
Definition push_line (env : bucket) (now : Z) (repoPrefix : ustring)
    (line : ustring) : bucket :=
  match split sp (trim line) with
  | _ :: newSha :: ref :: _ =>
      if str_eqb ref [] then env
      else
        let env := put_text env (repoPrefix ++ lit "/" ++ ref) newSha now in
        match get env (repoPrefix ++ lit "/HEAD") with
        | None =>
            put_text env (repoPrefix ++ lit "/HEAD") (lit "ref: " ++ ref) now
        | Some _ => env
        end
  | _ => env
  end.

(** The loop [while (line !== null)]. *)
Fixpoint push_loop (fuel : nat) (env : bucket) (now : Z)
    (repoPrefix : ustring) (line : option ustring) (reader : list bytes)
  : outcome bucket :=
  match line with
  | None => Returned env
  | Some l =>
      match fuel with
      | O => OutOfFuel
      | S f =>
          let env := push_line env now repoPrefix l in
          let '(line, reader) := parsePktLine reader in
          push_loop f env now repoPrefix line reader
      end
  end.

(** The branch [Git push] of [fetch], for a body that is not [null]. *)
Definition push (env : bucket) (now : Z) (repoPrefix : ustring)
    (reader : list bytes) : outcome bucket :=
  let '(line, reader') := parsePktLine reader in
  push_loop (length reader) env now repoPrefix line reader'.

Definition fetch (env : bucket) (now : Z) (rq : request)
  : outcome response * bucket :=
  match match_repoRegex (pathname rq) with
  | None => (Returned not_found, env)
  | Some (org, repo, action) =>
      let repoPrefix := org ++ lit "/" ++ repo in
      if str_eqb (method rq) (lit "GET") && str_eqb action (lit "info/refs")
         && service_is (service rq) (lit "git-upload-pack") then
        (Returned (clone env repoPrefix), env)
      else if str_eqb (method rq) (lit "POST")
              && str_eqb action (lit "git-receive-pack")
              && service_is (service rq) (lit "git-receive-pack") then
        match chunks rq with
        | None => (Returned (mkResp 400 [] (Some (lit "No body"))), env)
        | Some reader =>
            match push env now repoPrefix reader with
            | Returned env' => (Returned (mkResp 200 [] None), env')
            | Thrown => (Thrown, env)
            | OutOfFuel => (OutOfFuel, env)
            end
        end
      else (Returned not_found, env)
  end.

End StreamWorker.

(** * Vocabulary of the further properties *)

(** The four bytes at [j] are the pack magic: the test of
    [findPackStart]. *)
Definition magic_at (buf : bytes) (j : Z) : bool :=
  byte_is buf j 0x50 && byte_is buf (j + 1) 0x41
  && byte_is buf (j + 2) 0x43 && byte_is buf (j + 3) 0x4b.

(** A token of a command line as a client writes it: ASCII characters
    that are neither white space nor NUL, at least one. *)
Definition token_char (c : N) : bool :=
  (c <? 128)%N && negb (is_js_space c) && negb (c =? 0)%N.

Definition is_token (s : ustring) : bool :=
  negb (str_eqb s []) && forallb token_char s.

(** What may follow the three tokens on the line: white space only (a
    newline, or nothing), or a NUL and the capabilities of the client. *)
Definition tail_ok (tail : ustring) : bool :=
  forallb (fun c => (c <? 128)%N) tail
  && (forallb is_js_space tail
      || match tail with c :: _ => (c =? 0)%N | [] => false end).

Definition command_text (c : command) (tail : ustring) : ustring :=
  old c ++ [sp] ++ new c ++ [sp] ++ ref c ++ tail.

(** A line that fits in one frame. *)
Definition wf_line (l : command * ustring) : Prop :=
  is_token (old (fst l)) = true /\ is_token (new (fst l)) = true /\
  is_token (ref (fst l)) = true /\ tail_ok (snd l) = true /\
  (Z.of_nat (length (command_text (fst l) (snd l))) <= 65531)%Z.

(** The body of a push: one frame per command line, a flush, the pack. *)
Definition push_body (lines : list (command * ustring)) (pack : bytes)
  : bytes :=
  List.concat (map (fun l => pktLineS (command_text (fst l) (snd l))) lines)
  ++ pktFlush ++ pack.

(** The capabilities that a client sends after the first command. *)
Definition caps_tail : ustring :=
  nul ++ lit "report-status side-band-64k agent=git/2.43.0".

(** The prefix of the branch refs of a repository. *)
Definition refs_prefix (org repo : ustring) : ustring :=
  join [lit "repos"; org; repo; lit "refs/heads/"].

(** An entry of the list of refs: the branch [name] has a record whose
    text trims to the id [snd e], which is not empty. *)
Definition listed (env : bucket) (org repo : ustring)
    (e : ustring * ustring) : Prop :=
  exists name data,
    fst e = lit "refs/heads/" ++ name /\
    get env (refs_prefix org repo ++ name) = Some data /\
    snd e = trim (text data) /\ snd e <> [].

(** The ref lines of an advertisement: the first carries the
    capabilities after a NUL. *)
Definition advert_lines (capabilities : ustring)
    (refs : list (ustring * ustring)) : list bytes :=
  match refs with
  | [] => []
  | (r, s) :: rest =>
      pktLineS (s ++ [sp] ++ r ++ nul ++ capabilities ++ nl)
      :: map (fun e => pktLineS (snd e ++ [sp] ++ fst e ++ nl)) rest
  end.

(** The capabilities that [handleInfoRefs] picks for a service. *)
Definition caps_of (service : ustring) : ustring :=
  if str_eqb service (lit "git-receive-pack")
  then receive_caps else upload_caps.

(** [Boolean] on a string. *)
Definition not_empty (s : ustring) : bool := negb (str_eqb s []).

(** A path segment: not empty, without a slash. *)
Definition segment (s : ustring) : bool :=
  negb (str_eqb s []) && forallb (fun c => negb (c =? 47)%N) s.

(** The key prefix of a repository. *)
Definition repo_base (org repo : ustring) : ustring :=
  join [lit "repos"; org; repo].

(** A name of an organisation or a repository as the stream Worker
    accepts it: letters, digits, [_] and [-], at least one. *)
Definition is_name (s : ustring) : bool :=
  not_empty s && forallb StreamWorker.name_char s.

(** The two actions that the stream Worker routes. *)
Definition is_action (a : ustring) : bool :=
  str_eqb a (lit "info/refs") || str_eqb a (lit "git-receive-pack").

(** The path of an action on a repository. *)
Definition repo_url (org repo action : ustring) : ustring :=
  lit "/" ++ org ++ lit "/" ++ repo ++ lit ".git/" ++ action.

(** A chunk of the request stream that starts with the frame of the
    payload [fst it]; [snd it] is what follows the frame in the chunk. *)
Definition chunk_of (it : bytes * bytes) : bytes :=
  pktLine (fst it) ++ snd it.

(** Where the loop of a push stops: at the end of the stream, or at a
    chunk that starts with a flush. *)
Definition stops (tail : list bytes) : Prop :=
  match tail with
  | [] => True
  | c :: _ => firstn 4 c = pktFlush
  end.

(** The key prefix of a repository of the stream Worker. *)
Definition stream_base (org repo : ustring) : ustring :=
  org ++ lit "/" ++ repo.

(** The pattern of [extractNewHead] stands at the start of [text], with
    the id [id] in its group. *)
Definition new_head_match (text id : ustring) : Prop :=
  length id = 40 /\ forallb is_lower_hex_char id = true /\
  exists post, text = zeroOid ++ [sp] ++ id ++ post.

(** * Properties *)

(** ** Lists, slices and typed arrays *)

Lemma firstn_app_exact {A : Type} (l r : list A) :
  firstn (length l) (l ++ r) = l.
Proof.
  induction l as [|x l IH]; simpl; [now destruct r | now rewrite IH].
Qed.

Lemma skipn_app_exact {A : Type} (l r : list A) :
  skipn (length l) (l ++ r) = r.
Proof. induction l as [|x l IH]; simpl; auto. Qed.

Lemma length_zeros n : length (zeros n) = n.
Proof. apply repeat_length. Qed.

Lemma skipn_zeros n k : skipn k (zeros n) = zeros (n - k).
Proof.
  unfold zeros. revert k. induction n as [|n IH]; intros [|k]; simpl; auto.
Qed.

(** Writing [src] at the start of a fresh array that it fits in. *)
Lemma u8_set_zeros_0 src n :
  length src <= n -> u8_set (zeros n) src 0 = src ++ zeros (n - length src).
Proof.
  intros _. unfold u8_set. simpl. now rewrite skipn_zeros.
Qed.

(** Writing [src] just after a prefix [pre], up to the end of the array. *)
Lemma u8_set_tail pre rest src :
  length rest = length src -> u8_set (pre ++ rest) src (length pre) = pre ++ src.
Proof.
  intros H. unfold u8_set.
  rewrite firstn_app_exact.
  rewrite skipn_all2; [now rewrite app_nil_r|].
  rewrite length_app. lia.
Qed.

(** The channel byte 1, then the data. *)
Lemma side_band_eq data :
  u8_set (u8_set (zeros (length data + 1)) [x01] 0) data 1 = x01 :: data.
Proof.
  rewrite u8_set_zeros_0 by (simpl; lia).
  replace (length data + 1 - length [x01]) with (length data) by (simpl; lia).
  apply (u8_set_tail [x01] (zeros (length data)) data).
  apply length_zeros.
Qed.

(** [concat] lays the chunks one after the other. *)
Lemma concat_loop chunks : forall done,
  fst (fold_left
         (fun (st : bytes * nat) c =>
            let '(out, offset) := st in
            (u8_set out c offset, offset + length c))
         chunks
         (done ++ zeros (length (List.concat chunks)), length done))
  = done ++ List.concat chunks.
Proof.
  induction chunks as [|c chunks IH]; intros done; simpl.
  - reflexivity.
  - rewrite length_app.
    assert (E : u8_set (done ++ zeros (length c + length (List.concat chunks)))
                  c (length done)
                = (done ++ c) ++ zeros (length (List.concat chunks))).
    { unfold u8_set. rewrite firstn_app_exact.
      rewrite skipn_app, skipn_all2 by (rewrite ?length_app; lia).
      rewrite skipn_zeros. simpl.
      replace (length done + length c - length done) with (length c) by lia.
      replace (length c + length (List.concat chunks) - length c)
        with (length (List.concat chunks)) by lia.
      now rewrite <- app_assoc. }
    rewrite E.
    replace (length done + length c) with (length (done ++ c))
      by (rewrite length_app; lia).
    rewrite IH. now rewrite <- app_assoc.
Qed.

Lemma concat_total chunks : forall n,
  fold_left (fun s (c : bytes) => s + length c) chunks n
  = n + length (List.concat chunks).
Proof.
  induction chunks as [|c chunks IH]; intros n; simpl; [lia|].
  rewrite IH, length_app. lia.
Qed.

Lemma concat_flat chunks : concat chunks = List.concat chunks.
Proof.
  unfold concat. rewrite concat_total. simpl.
  apply (concat_loop chunks []).
Qed.

(** ** The length field *)

Lemma all_below_spec n P :
  all_below n P = true -> forall x, (x < N.of_nat n)%N -> P x = true.
Proof.
  unfold all_below. rewrite forallb_forall. intros H x Hx.
  apply H. rewrite in_map_iff. exists (N.to_nat x).
  split; [apply N2Nat.id|]. apply in_seq. lia.
Qed.

Lemma digit_ok_all : all_below 16 digit_ok = true.
Proof. vm_compute. reflexivity. Qed.

Lemma digit_facts d :
  (d < 16)%N ->
  let c := hex_digit d in
  (c < 128)%N /\ is_js_space c = false /\
  (c =? 45)%N = false /\ (c =? 43)%N = false /\
  (c =? 120)%N = false /\ (c =? 88)%N = false /\
  (c =? 0xFEFF)%N = false /\
  is_lower_hex (byte_of_N c) = true /\ hex_val c = Some d.
Proof.
  intros Hd c. pose proof (all_below_spec 16 digit_ok digit_ok_all d Hd) as H.
  unfold digit_ok in H. fold c in H.
  repeat (apply andb_prop in H; destruct H as [H ?]).
  repeat match goal with
         | K : negb _ = true |- _ => apply negb_true_iff in K
         end.
  apply N.ltb_lt in H.
  destruct (hex_val c) as [v|]; [|discriminate].
  match goal with K : (v =? d)%N = true |- _ => apply N.eqb_eq in K; subst v end.
  repeat split; assumption.
Qed.

Lemma to_hex_S f n acc :
  to_hex (S f) n acc =
  if (n / 16 =? 0)%N then hex_digit (n mod 16) :: acc
  else to_hex f (n / 16) (hex_digit (n mod 16) :: acc).
Proof. reflexivity. Qed.

Lemma log2_fuel n k :
  (2 ^ N.of_nat k <= n)%N -> exists f, N.to_nat (N.log2 n) = k + f.
Proof.
  intros H. exists (N.to_nat (N.log2 n) - k).
  assert (N.of_nat k <= N.log2 n)%N; [|lia].
  apply N.log2_le_pow2; [|assumption].
  pose proof (N.pow_nonzero 2 (N.of_nat k)). lia.
Qed.

Lemma padded_digits n :
  (n < 65536)%N -> padStart (toString16 n) 4 48%N = digits4 n.
Proof.
  intros Hn. unfold toString16, digits4.
  destruct (N.lt_ge_cases n 16) as [H1|H1].
  { rewrite to_hex_S.
    rewrite (N.div_small n 16), (N.div_small n 4096), (N.div_small n 256)
      by lia.
    rewrite (N.mod_small n 16) by lia. reflexivity. }
  destruct (N.lt_ge_cases n 256) as [H2|H2].
  { destruct (log2_fuel n 4) as [f ->]; [simpl; lia|].
    simpl Nat.add. rewrite !to_hex_S.
    assert (E1 : (n / 16 =? 0)%N = false)
      by (apply N.eqb_neq; intros E; apply N.div_small_iff in E; lia).
    rewrite E1, N.Div0.div_div. change (16 * 16)%N with 256%N.
    rewrite (N.div_small n 256), (N.div_small n 4096) by lia.
    rewrite (N.mod_small (n / 16) 16)
      by (apply N.Div0.div_lt_upper_bound; lia).
    reflexivity. }
  destruct (N.lt_ge_cases n 4096) as [H3|H3].
  { destruct (log2_fuel n 8) as [f ->]; [simpl; lia|].
    simpl Nat.add. rewrite !to_hex_S.
    assert (E1 : (n / 16 =? 0)%N = false)
      by (apply N.eqb_neq; intros E; apply N.div_small_iff in E; lia).
    rewrite E1, !N.Div0.div_div. change (16 * 16)%N with 256%N.
    assert (E2 : (n / 256 =? 0)%N = false)
      by (apply N.eqb_neq; intros E; apply N.div_small_iff in E; lia).
    rewrite E2. change (256 * 16)%N with 4096%N.
    rewrite (N.div_small n 4096) by lia.
    rewrite (N.mod_small (n / 256) 16)
      by (apply N.Div0.div_lt_upper_bound; lia).
    reflexivity. }
  destruct (log2_fuel n 12) as [f ->]; [simpl; lia|].
  simpl Nat.add. rewrite !to_hex_S.
  assert (E1 : (n / 16 =? 0)%N = false)
    by (apply N.eqb_neq; intros E; apply N.div_small_iff in E; lia).
  rewrite E1, !N.Div0.div_div. change (16 * 16)%N with 256%N.
  assert (E2 : (n / 256 =? 0)%N = false)
    by (apply N.eqb_neq; intros E; apply N.div_small_iff in E; lia).
  rewrite E2. change (256 * 16)%N with 4096%N.
  assert (E3 : (n / 4096 =? 0)%N = false)
    by (apply N.eqb_neq; intros E; apply N.div_small_iff in E; lia).
  rewrite E3. change (4096 * 16)%N with 65536%N.
  rewrite (N.div_small n 65536) by lia.
  assert (E4 : ((n / 4096) mod 16 = n / 4096)%N)
    by (apply N.mod_small, N.Div0.div_lt_upper_bound; lia).
  rewrite E4. reflexivity.
Qed.

(** ** ASCII text through the encoder and the decoder *)

Lemma to_N_byte_of_N c : (c < 256)%N -> Byte.to_N (byte_of_N c) = c.
Proof.
  intros H. unfold byte_of_N. rewrite N.mod_small by assumption.
  destruct (Byte.of_N c) as [x|] eqn:E.
  - now apply Byte.to_of_N.
  - apply Byte.of_N_None_iff in E. lia.
Qed.

Lemma encode_ascii s : ascii_str s -> encode s = map byte_of_N s.
Proof.
  induction 1 as [|c s Hc _ IH]; [reflexivity|].
  unfold encode in *. cbn [flat_map map]. rewrite IH. unfold encode_cp.
  apply N.ltb_lt in Hc. assert (Hc' : (c <? 128)%N = true) by exact Hc.
  now rewrite Hc'.
Qed.

Lemma decode_from_ascii s :
  ascii_str s -> decode_from d0 (map byte_of_N s) = s.
Proof.
  induction 1 as [|c s Hc _ IH]; [reflexivity|].
  cbn [map decode_from]. rewrite to_N_byte_of_N by lia.
  unfold dstep. cbn [needed d0]. unfold lead.
  apply N.ltb_lt in Hc. assert (Hc' : (c <? 128)%N = true) by exact Hc.
  rewrite Hc'. fold d0. rewrite IH. reflexivity.
Qed.

(** Encoding then decoding an ASCII string gives it back. *)
Lemma decode_encode_ascii s : ascii_str s -> decode (encode s) = s.
Proof.
  intros H. rewrite encode_ascii by assumption.
  unfold decode. rewrite decode_from_ascii by assumption.
  destruct s as [|c r]; [reflexivity|].
  inversion H as [|? ? Hc _]; subst.
  assert (E : (c =? 65279)%N = false) by (apply N.eqb_neq; lia).
  now rewrite E.
Qed.

Lemma length_encode_ascii s : ascii_str s -> length (encode s) = length s.
Proof. intros H. rewrite encode_ascii by assumption. apply length_map. Qed.

Lemma digits4_ascii n : (n < 65536)%N -> ascii_str (digits4 n).
Proof.
  intros Hn. unfold digits4.
  assert (n / 4096 < 16)%N by (apply N.Div0.div_lt_upper_bound; lia).
  pose proof (N.mod_upper_bound (n / 256) 16).
  pose proof (N.mod_upper_bound (n / 16) 16).
  pose proof (N.mod_upper_bound n 16).
  repeat constructor; apply digit_facts; lia.
Qed.

(** [parseInt] reads the four digits back. *)
Lemma parseInt16_digits4 n :
  (n < 65536)%N -> parseInt16 (digits4 n) = Some (Z.of_N n).
Proof.
  intros Hn. unfold digits4.
  assert (Ha : (n / 4096 < 16)%N) by (apply N.Div0.div_lt_upper_bound; lia).
  assert (Hb : ((n / 256) mod 16 < 16)%N) by (apply N.mod_upper_bound; lia).
  assert (Hc : ((n / 16) mod 16 < 16)%N) by (apply N.mod_upper_bound; lia).
  assert (Hd : (n mod 16 < 16)%N) by (apply N.mod_upper_bound; lia).
  destruct (digit_facts _ Ha) as (_ & Sa & Ma & Pa & _ & _ & _ & _ & Va).
  destruct (digit_facts _ Hb) as (_ & _ & _ & _ & Xb & XXb & _ & _ & Vb).
  destruct (digit_facts _ Hc) as (_ & _ & _ & _ & _ & _ & _ & _ & Vc).
  destruct (digit_facts _ Hd) as (_ & _ & _ & _ & _ & _ & _ & _ & Vd).
  unfold parseInt16. cbn [trimStart]. rewrite Sa, Ma, Pa, Xb, XXb.
  rewrite andb_false_r. cbn [hex_prefix]. rewrite Va, Vb, Vc, Vd.
  f_equal.
  pose proof (N.Div0.div_mod n 16) as E1.
  pose proof (N.Div0.div_mod (n / 16) 16) as E2.
  pose proof (N.Div0.div_mod (n / 256) 16) as E3.
  rewrite N.Div0.div_div in E2, E3.
  change (16 * 16)%N with 256%N in E2. change (256 * 16)%N with 4096%N in E3.
  lia.
Qed.

Lemma header_digits n :
  (n < 65536)%N -> header n = map byte_of_N (digits4 n).
Proof.
  intros Hn. unfold header. rewrite padded_digits by assumption.
  apply encode_ascii, digits4_ascii, Hn.
Qed.

Lemma length_header n : (n < 65536)%N -> length (header n) = 4.
Proof. intros Hn. now rewrite header_digits. Qed.

Lemma decode_header n : (n < 65536)%N -> decode (header n) = digits4 n.
Proof.
  intros Hn. unfold header. rewrite padded_digits by assumption.
  apply decode_encode_ascii, digits4_ascii, Hn.
Qed.


(** A frame is its four-byte header followed by the payload. *)
Lemma pktLine_eq payload :
  (Z.of_nat (length payload) <= 65531)%Z ->
  pktLine payload = header (N.of_nat (length payload + 4)) ++ payload.
Proof.
  intros H. unfold pktLine. fold (header (N.of_nat (length payload + 4))).
  set (h := header _).
  assert (Hh : length h = 4) by (apply length_header; lia).
  rewrite u8_set_zeros_0 by lia. rewrite Hh.
  replace (length payload + 4 - 4) with (length payload) by lia.
  replace 4 with (length h) at 1 by exact Hh.
  apply u8_set_tail, length_zeros.
Qed.

(** [parseInt] reads the longest prefix of digits and ignores what
    follows: the field [00zz] is the length 0, which the parsing loop
    takes for a flush; only a field without a leading digit is NaN. *)
Example parseInt16_reads_a_prefix :
  parseInt16 (lit "00zz") = Some 0%Z /\
  parseInt16 (lit "001e") = Some 30%Z /\
  parseInt16 (lit "zzzz") = None /\
  parseInt16 (lit "") = None.
Proof. repeat split. Qed.

(** ** Slices *)

Lemma rel_index_in len x : (0 <= x <= len)%Z -> rel_index len x = x.
Proof. intros H. unfold rel_index. destruct (Z.ltb_spec x 0); lia. Qed.

(** The slice that covers exactly the middle part of a buffer. *)
Lemma slice_app_mid {A : Type} (pre mid post : list A) :
  slice (pre ++ mid ++ post)
        (Z.of_nat (length pre)) (Z.of_nat (length pre) + Z.of_nat (length mid))
  = mid.
Proof.
  unfold slice. rewrite !length_app.
  rewrite !rel_index_in by lia.
  replace (Z.to_nat (Z.of_nat (length pre) + Z.of_nat (length mid)
                     - Z.of_nat (length pre))) with (length mid) by lia.
  rewrite Nat2Z.id, skipn_app_exact. apply firstn_app_exact.
Qed.

Lemma slice_empty {A : Type} (buf : list A) s e :
  (rel_index (Z.of_nat (length buf)) e <= rel_index (Z.of_nat (length buf)) s)%Z ->
  slice buf s e = [].
Proof.
  intros H. unfold slice.
  replace (Z.to_nat _) with 0 by lia. reflexivity.
Qed.

Lemma slice_from_0 {A : Type} (buf : list A) : slice_from buf 0 = buf.
Proof.
  unfold slice_from, slice. rewrite !rel_index_in by lia.
  rewrite Z.sub_0_r, Nat2Z.id. simpl. apply firstn_all.
Qed.

(** ** C3: the pkt-line round trip *)



(** ** Strings and keys *)

Lemma str_eqb_eq a b : str_eqb a b = true <-> a = b.
Proof.
  revert b. induction a as [|x a IH]; intros [|y b]; simpl;
    try (split; [discriminate|discriminate]); [tauto|].
  rewrite andb_true_iff, N.eqb_eq, IH.
  split; [intros [-> ->]; reflexivity | intros E; inversion E; auto].
Qed.

Lemma str_eqb_refl a : str_eqb a a = true.
Proof. now apply str_eqb_eq. Qed.

Lemma str_eqb_neq a b : str_eqb a b = false <-> a <> b.
Proof.
  rewrite <- str_eqb_eq. destruct (str_eqb a b); split; congruence.
Qed.

Lemma key_compare_eq a b : key_compare a b = Eq <-> a = b.
Proof.
  revert b. induction a as [|x a IH]; intros [|y b]; simpl;
    try (split; [discriminate|discriminate]); [tauto|].
  destruct (N.compare_spec x y) as [->|H|H].
  - rewrite IH. split; [intros ->; reflexivity | intros E; inversion E; auto].
  - split; [discriminate | intros E; inversion E; lia].
  - split; [discriminate | intros E; inversion E; lia].
Qed.

Lemma starts_with_app p s : starts_with p (p ++ s) = true.
Proof. induction p as [|x p IH]; simpl; [reflexivity|now rewrite N.eqb_refl]. Qed.

Lemma starts_with_app_inv p q s :
  starts_with (p ++ q) (p ++ s) = starts_with q s.
Proof. induction p as [|x p IH]; simpl; [reflexivity|now rewrite N.eqb_refl]. Qed.

Lemma starts_with_app_l p q s :
  starts_with (p ++ q) s = true -> starts_with p s = true.
Proof.
  revert s. induction p as [|x p IH]; intros s; simpl; [reflexivity|].
  destruct s as [|y s]; [discriminate|].
  rewrite !andb_true_iff. intros [? ?]. split; auto.
Qed.

(** ** The bucket: reading after writing *)

Lemma get_put_same env k v now :
  get (put env k v now) k = Some (mkObj k v now).
Proof.
  unfold get. induction env as [|o env IH]; simpl.
  - now rewrite str_eqb_refl.
  - destruct (key_compare k (key o)) eqn:E; simpl.
    + now rewrite str_eqb_refl.
    + now rewrite str_eqb_refl.
    + assert (N : str_eqb (key o) k = false).
      { apply str_eqb_neq. intros Heq. rewrite Heq in E.
        assert (key_compare k k = Eq) by now apply key_compare_eq.
        congruence. }
      now rewrite N.
Qed.

Lemma get_put_other env k v now k' :
  k' <> k -> get (put env k v now) k' = get env k'.
Proof.
  intros Hk. unfold get.
  assert (Nk : str_eqb k k' = false) by (apply str_eqb_neq; congruence).
  induction env as [|o env IH]; simpl.
  - now rewrite Nk.
  - destruct (key_compare k (key o)) eqn:E; simpl.
    + apply key_compare_eq in E. rewrite <- E. now rewrite Nk.
    + now rewrite Nk.
    + destruct (str_eqb (key o) k'); [reflexivity|exact IH].
Qed.

(** A listing is not changed by a write outside its prefix. *)
Lemma r2_list_put_outside env k v now prefix :
  starts_with prefix k = false ->
  r2_list (put env k v now) prefix = r2_list env prefix.
Proof.
  intros Hk. unfold r2_list. induction env as [|o env IH]; simpl.
  - now rewrite Hk.
  - destruct (key_compare k (key o)) eqn:E; simpl.
    + apply key_compare_eq in E. rewrite <- E. now rewrite Hk.
    + now rewrite Hk.
    + now rewrite IH.
Qed.

(** The listing of a prefix that held nothing, after a write under it. *)
Lemma r2_list_put_inside env k v now prefix :
  starts_with prefix k = true ->
  r2_list env prefix = [] ->
  r2_list (put env k v now) prefix = [mkObj k v now].
Proof.
  intros Hk. unfold r2_list. induction env as [|o env IH]; simpl.
  - now rewrite Hk.
  - destruct (starts_with prefix (key o)) eqn:Ho; [discriminate|].
    intros He. destruct (key_compare k (key o)) eqn:E; simpl.
    + now rewrite Hk, He.
    + now rewrite Hk, Ho, He.
    + rewrite Ho. auto.
Qed.

(** ** Object ids *)

Lemma is_js_space_cases c :
  is_js_space c = true -> (9 <= c <= 13 \/ c = 32 \/ 160 <= c)%N.
Proof.
  unfold is_js_space. rewrite !orb_true_iff, !andb_true_iff, !N.eqb_eq, !N.leb_le.
  lia.
Qed.

Lemma hex_char_facts c :
  is_hex_char c = true -> (c < 128)%N /\ is_js_space c = false.
Proof.
  unfold is_hex_char, hex_val. intros H.
  assert (R : (48 <= c <= 57 \/ 97 <= c <= 102 \/ 65 <= c <= 70)%N).
  { destruct ((48 <=? c) && (c <=? 57))%N eqn:E1;
      [apply andb_true_iff in E1; rewrite !N.leb_le in E1; lia|].
    destruct ((97 <=? c) && (c <=? 102))%N eqn:E2;
      [apply andb_true_iff in E2; rewrite !N.leb_le in E2; lia|].
    destruct ((65 <=? c) && (c <=? 70))%N eqn:E3;
      [apply andb_true_iff in E3; rewrite !N.leb_le in E3; lia|].
    discriminate. }
  split; [lia|].
  destruct (is_js_space c) eqn:S; [|reflexivity].
  apply is_js_space_cases in S. lia.
Qed.

Lemma oid_facts s :
  is_oid s = true ->
  length s = 40 /\ ascii_str s /\ Forall (fun c => is_js_space c = false) s.
Proof.
  unfold is_oid. rewrite andb_true_iff, Nat.eqb_eq, forallb_forall.
  intros [L H]. split; [exact L|].
  split; apply Forall_forall; intros c Hc; apply hex_char_facts; auto.
Qed.

Lemma zeroOid_is_oid : is_oid zeroOid = true.
Proof. reflexivity. Qed.

(** ** Trimming *)

Lemma trimStart_id s :
  Forall (fun c => is_js_space c = false) s -> trimStart s = s.
Proof. intros H. destruct H as [|c r Hc _]; simpl; [reflexivity|now rewrite Hc]. Qed.

(** A record [id + "\n"] trims back to the id when the id holds no white
    space. *)
Lemma trim_line s :
  Forall (fun c => is_js_space c = false) s -> trim (s ++ nl) = s.
Proof.
  intros H. unfold trim, trimEnd.
  destruct s as [|c r].
  - reflexivity.
  - assert (E : trimStart ((c :: r) ++ nl) = (c :: r) ++ nl).
    { inversion H; subst. simpl. now rewrite H2. }
    rewrite E, rev_app_distr.
    change (rev nl ++ rev (c :: r)) with (10%N :: rev (c :: r)).
    set (t := rev (c :: r)). cbn [trimStart].
    change (is_js_space 10) with true. cbv iota. unfold t.
    rewrite trimStart_id by (apply Forall_rev, H).
    apply rev_involutive.
Qed.

(** Reading a ref whose record is an id and a newline. *)
Lemma readRef_put_oid env base r id now :
  is_oid id = true ->
  readRef (put_text env (join [base; r]) (id ++ nl) now) base r = id.
Proof.
  intros H. destruct (oid_facts id H) as (L & A & S).
  unfold readRef, put_text. rewrite get_put_same. unfold text. cbn [body].
  rewrite decode_encode_ascii
    by (apply Forall_app; split; [exact A | repeat constructor]).
  rewrite trim_line by exact S.
  destruct id; [discriminate L|reflexivity].
Qed.

(** ** C1: the outcome of each push command *)

Section ReceiveLoop.

Variables (now : Z) (base : ustring).


Lemma receive_command_ok env results c :
  old c = zeroOid \/ old c = readRef env base (ref c) ->
  receive_command now base (env, results) c
  = (put_text env (join [base; ref c]) (new c ++ nl) now,
     results ++ [pktLineS (ok_line c)]).
Proof.
  intros H. unfold receive_command.
  destruct (str_eqb (old c) zeroOid) eqn:Z0.
  - rewrite str_eqb_refl. cbn [negb]. now rewrite andb_false_r.
  - destruct H as [H|H]; [apply str_eqb_neq in Z0; contradiction|].
    rewrite Z0, <- H, str_eqb_refl. reflexivity.
Qed.



End ReceiveLoop.



(** The same through the whole handler: the first push to an empty
    bucket, with the zero id as old id, is reported ok and
    [refs/heads/main] then reads as the new id. *)
Example first_push_to_empty_bucket :
  let buf := pktLineS (zeroOid ++ [sp] ++ oid_a ++ [sp] ++ main_ref
                       ++ nul ++ lit "report-status side-band-64k")
             ++ pktFlush ++ pack1 in
  let '(result, env) :=
    handleReceivePack [] 7 (lit "cafe") (lit "o") (lit "r") buf in
  result
  = Returned
      (mkResp 200 (Some receive_result_type)
         (sidebandPacket (pktLineS unpack_ok)
          ++ sidebandPacket
               (pktLineS (lit "ok refs/heads/main" ++ nl))
          ++ pktFlush))
  /\ readRef env (lit "repos/o/r") main_ref = oid_a.
Proof. vm_compute. split; reflexivity. Qed.

(** ** The parsing loop terminates *)

Lemma rel_index_bounds len x : (0 <= len -> 0 <= rel_index len x <= len)%Z.
Proof. intros H. unfold rel_index. destruct (Z.ltb_spec x 0); lia. Qed.

Lemma slice_nonempty {A : Type} (buf : list A) s e :
  slice buf s e <> [] ->
  (rel_index (Z.of_nat (length buf)) s < rel_index (Z.of_nat (length buf)) e)%Z.
Proof.
  intros H. destruct (Z.lt_ge_cases (rel_index (Z.of_nat (length buf)) s)
                        (rel_index (Z.of_nat (length buf)) e)) as [L|G]; auto.
  exfalso. apply H. apply slice_empty. lia.
Qed.

Lemma parse_command_empty : parse_command (decode []) = None.
Proof. reflexivity. Qed.

Lemma pos_bounds buf i : (0 <= pos buf i <= Z.of_nat (length buf))%Z.
Proof. apply rel_index_bounds. lia. Qed.

(** A turn of the loop that reads a command leaves the read position
    strictly further in the buffer: an empty header gives NaN, and NaN or
    an empty payload gives a line without a ref, which throws. *)
Lemma parse_step_progress buf i c :
  parse_command (decode (frame_payload buf i (frame_len buf i))) = Some c ->
  (pos buf i < pos buf (nadd i (frame_len buf i)))%Z.
Proof.
  intros Hc.
  assert (Hp : frame_payload buf i (frame_len buf i) <> []).
  { intros E. rewrite E, parse_command_empty in Hc. discriminate. }
  assert (Hh : slice buf (to_int i) (to_int (nadd i (Some 4%Z))) <> []).
  { intros E. apply Hp. unfold frame_len. rewrite E.
    change (parseInt16 (decode [])) with (@None Z).
    unfold frame_payload.
    assert (N0 : to_int (nadd i None) = 0%Z) by (destruct i; reflexivity).
    rewrite N0. apply slice_empty.
    pose proof (rel_index_bounds (Z.of_nat (length buf))
                  (to_int (nadd i (Some 4%Z)))).
    rewrite (rel_index_in _ 0) by lia. lia. }
  apply slice_nonempty in Hh. apply slice_nonempty in Hp.
  unfold pos. lia.
Qed.

Lemma parse_loop_fuel buf : forall fuel i commands,
  (Z.of_nat (length buf) < Z.of_nat fuel + pos buf i)%Z ->
  parse_loop fuel buf i commands <> OutOfFuel.
Proof.
  induction fuel as [|f IH]; intros i commands Hf.
  - pose proof (pos_bounds buf i). lia.
  - cbn [parse_loop].
    destruct (is_zero (frame_len buf i)); [discriminate|].
    destruct (parse_command _) as [c|] eqn:Hc; [|discriminate].
    apply IH. apply parse_step_progress in Hc. lia.
Qed.

(** More turns than needed change nothing. *)
Lemma parse_loop_more_fuel buf : forall fuel k i commands,
  parse_loop fuel buf i commands <> OutOfFuel ->
  parse_loop (fuel + k) buf i commands = parse_loop fuel buf i commands.
Proof.
  induction fuel as [|f IH]; intros k i commands H.
  - now contradiction H.
  - cbn [parse_loop Nat.add] in *.
    destruct (is_zero (frame_len buf i)); [reflexivity|].
    destruct (parse_command _) as [c|]; [|reflexivity].
    now apply IH.
Qed.

(** [parseReceiveCommands] returns or throws. *)
Lemma parseReceiveCommands_total buf : parseReceiveCommands buf <> OutOfFuel.
Proof.
  unfold parseReceiveCommands.
  destruct (parse_loop _ _ _ _) eqn:E; try discriminate.
  exfalso. revert E. apply parse_loop_fuel.
  change (pos buf (Some 0%Z)) with (rel_index (Z.of_nat (length buf)) 0).
  rewrite rel_index_in by lia. lia.
Qed.

(** ** C8: the response of receive-pack *)

Lemma receive_command_line now base env results c :
  exists env' line,
    receive_command now base (env, results) c
    = (env', results ++ [pktLineS line]) /\ status_of c line.
Proof.
  unfold receive_command, status_of.
  destruct (negb _ && negb _); eauto.
Qed.

Lemma run_commands_lines now base cmds : forall env results,
  exists lines,
    snd (run_commands now base cmds (env, results))
    = results ++ map pktLineS lines /\
    Forall2 status_of cmds lines.
Proof.
  induction cmds as [|c cmds IH]; intros env results.
  - exists []. split; [simpl; now rewrite app_nil_r | constructor].
  - destruct (receive_command_line now base env results c)
      as (env' & line & E & Hl).
    destruct (IH env' (results ++ [pktLineS line])) as (lines & E' & Hls).
    exists (line :: lines). split; [|now constructor].
    unfold run_commands in *. cbn [fold_left]. rewrite E, E'.
    now rewrite <- app_assoc.
Qed.

(** What the handler does once the commands are parsed. *)
Lemma handleReceivePack_returned env now hash org repo buf cmds ps :
  parseReceiveCommands buf = Returned (cmds, ps) ->
  let base := join [lit "repos"; org; repo] in
  let st := run_commands now base cmds (env, [pktLineS unpack_ok]) in
  let pack := slice_from buf ps in
  handleReceivePack env now hash org repo buf
  = (Returned (mkResp 200 (Some receive_result_type)
                 (List.concat (map sidebandPacket (snd st)) ++ pktFlush)),
     if 0 <? length pack then put (fst st) (pack_key base hash) pack now
     else fst st).
Proof.
  intros E base st pack. unfold handleReceivePack. rewrite E.
  fold base. fold unpack_ok. fold st.
  destruct st as [env1 results]. cbn [fst snd]. fold pack.
  rewrite !concat_flat. cbn [List.concat]. now rewrite app_nil_r.
Qed.

(** The claim as stated fails on the empty body: the first turn of the
    parsing loop throws, and the request has no response. *)
Lemma unpack_ok_always_reported_counterexample : ~ unpack_ok_always_reported.
Proof.
  intros H.
  destruct (H [] 7%Z (lit "cafe") (lit "o") (lit "r") [])
    as (resp & env' & rest & E & _).
  discriminate E.
Qed.

(** C8 (amended). When the commands of a receive-pack request are parsed, the
    handler answers 200 with a body made of the line [unpack ok] first,
    then one [ok]/[ng] line per command in the order received, each line
    pkt-line encoded and then wrapped in a side-band packet of channel 1
    (a pkt-line whose payload is the byte 1 followed by the encoded
    line), all concatenated and followed by one flush; when the parsing
    throws, the handler throws and there is no response; and the parsing
    always returns or throws. *)
Theorem receive_pack_response (env : bucket) (now : Z)
    (hash org repo : ustring) (buf : bytes) :
  (forall data, sidebandPacket data = pktLine (x01 :: data)) /\
  match parseReceiveCommands buf with
  | Returned (cmds, _) =>
      exists lines env',
        Forall2 status_of cmds lines /\
        handleReceivePack env now hash org repo buf
        = (Returned
             (mkResp 200 (Some receive_result_type)
                (List.concat
                   (map (fun line => sidebandPacket (pktLineS line))
                      (unpack_ok :: lines))
                 ++ pktFlush)),
           env')
  | Thrown => handleReceivePack env now hash org repo buf = (Thrown, env)
  | OutOfFuel => False
  end.
Proof.
  split.
  { intros data. unfold sidebandPacket. now rewrite side_band_eq. }
  pose proof (parseReceiveCommands_total buf) as T.
  destruct (parseReceiveCommands buf) as [[cmds ps]| |] eqn:E.
  - destruct (run_commands_lines now (join [lit "repos"; org; repo]) cmds
                env [pktLineS unpack_ok]) as (lines & El & Hl).
    exists lines. eexists. split; [exact Hl|].
    rewrite (handleReceivePack_returned env now hash org repo buf cmds ps E).
    rewrite El. cbn [map app]. rewrite map_map. reflexivity.
  - unfold handleReceivePack. now rewrite E.
  - congruence.
Qed.

(** A push of two commands on a ref that holds [a]: the first declares
    [a] and is applied, the second declares [a] again and is rejected;
    the bytes from the magic on are stored as a pack. *)
Example receive_pack_two_commands :
  let c1 := mkCmd oid_a oid_b main_ref in
  let c2 := mkCmd oid_a oid_c main_ref in
  let line (c : command) := old c ++ [sp] ++ new c ++ [sp] ++ ref c in
  let buf := pktLineS (line c1 ++ nul ++ lit "report-status")
             ++ pktLineS (line c2) ++ pktFlush ++ pack1 in
  handleReceivePack (main_at oid_a) 7 (lit "cafe") (lit "o") (lit "r") buf
  = (Returned
       (mkResp 200 (Some receive_result_type)
          (sidebandPacket (pktLineS unpack_ok)
           ++ sidebandPacket (pktLineS (ok_line c1))
           ++ sidebandPacket (pktLineS (ng_line c2))
           ++ pktFlush)),
     put (put_text (main_at oid_a) (lit "repos/o/r/refs/heads/main")
            (oid_b ++ nl) 7)
       (pack_key (lit "repos/o/r") (lit "cafe")) pack1 7).
Proof. vm_compute. reflexivity. Qed.

(** ** C9: malformed pkt-lines *)

Lemma reaches_run buf i cmds :
  reaches buf i cmds ->
  exists k, forall f,
    parse_loop (k + f) buf (Some 0%Z) [] = parse_loop f buf i cmds.
Proof.
  induction 1 as [|i cmds c _ [k IH] Hz Hc].
  - exists 0. reflexivity.
  - exists (S k). intros f.
    replace (S k + f) with (k + S f) by lia.
    rewrite IH. cbn [parse_loop]. now rewrite Hz, Hc.
Qed.

Lemma frame_payload_nan buf i : frame_payload buf i None = [].
Proof.
  unfold frame_payload.
  assert (N0 : to_int (nadd i None) = 0%Z) by (destruct i; reflexivity).
  rewrite N0. apply slice_empty.
  pose proof (rel_index_bounds (Z.of_nat (length buf))
                (to_int (nadd i (Some 4%Z)))).
  rewrite (rel_index_in _ 0) by lia. lia.
Qed.

(** NaN as a length: the line is empty and the turn throws. *)
Lemma parse_loop_nan buf i cmds f :
  reads_nan buf i -> parse_loop (S f) buf i cmds = Thrown.
Proof.
  unfold reads_nan. intros H. cbn [parse_loop]. rewrite H. cbn [is_zero].
  now rewrite frame_payload_nan, parse_command_empty.
Qed.

Lemma frame_len_past_end buf z :
  (Z.of_nat (length buf) <= z)%Z -> frame_len buf (Some z) = None.
Proof.
  intros H. unfold frame_len. cbn [to_int nadd].
  rewrite slice_empty; [reflexivity|].
  unfold rel_index.
  destruct (Z.ltb_spec z 0), (Z.ltb_spec (z + 4) 0); lia.
Qed.

(** A truncated frame: the turn throws, or the next one reads its
    header past the end of the body and throws. *)
Lemma parse_loop_truncated buf i cmds f :
  truncated buf i -> parse_loop (S (S f)) buf i cmds = Thrown.
Proof.
  intros (z & len & -> & Hl & Hz & Ht).
  cbn [parse_loop]. rewrite Hl.
  assert (L0 : is_zero (Some len) = false).
  { cbn [is_zero]. apply Z.eqb_neq. intros ->.
    rewrite frame_len_past_end in Hl by lia. discriminate. }
  rewrite L0.
  destruct (parse_command _) as [c|]; [|reflexivity].
  cbn [nadd]. fold (parse_loop (S f)).
  apply parse_loop_nan. apply frame_len_past_end. lia.
Qed.

(** What the loop gives from a position that it reaches is what the
    parsing of the body gives. *)
Lemma parse_from_reached buf i cmds f R :
  reaches buf i cmds ->
  parse_loop f buf i cmds = R -> R <> OutOfFuel ->
  parse_loop (S (length buf)) buf (Some 0%Z) [] = R.
Proof.
  intros Hr E Hn. destruct (reaches_run _ _ _ Hr) as [k Hk].
  assert (T : parse_loop (k + f) buf (Some 0%Z) [] = R)
    by (rewrite Hk; exact E).
  assert (F : parse_loop (S (length buf)) buf (Some 0%Z) [] <> OutOfFuel).
  { apply parse_loop_fuel.
    change (pos buf (Some 0%Z)) with (rel_index (Z.of_nat (length buf)) 0).
    rewrite rel_index_in by lia. lia. }
  pose proof (parse_loop_more_fuel buf (S (length buf)) (k + f) _ _ F) as M1.
  assert (F2 : parse_loop (k + f) buf (Some 0%Z) [] <> OutOfFuel)
    by (rewrite T; exact Hn).
  pose proof (parse_loop_more_fuel buf (k + f) (S (length buf)) _ _ F2) as M2.
  replace (k + f + S (length buf)) with (S (length buf) + (k + f)) in M2
    by lia.
  now rewrite <- M1, M2.
Qed.

Lemma hex_char_more c :
  is_hex_char c = true ->
  (c =? 45)%N = false /\ (c =? 43)%N = false /\
  (c =? 120)%N = false /\ (c =? 88)%N = false /\
  exists d, hex_val c = Some d.
Proof.
  intros H.
  assert (R : (48 <= c <= 57 \/ 97 <= c <= 102 \/ 65 <= c <= 70)%N).
  { unfold is_hex_char, hex_val in H.
    destruct ((48 <=? c) && (c <=? 57))%N eqn:E1;
      [apply andb_true_iff in E1; rewrite !N.leb_le in E1; lia|].
    destruct ((97 <=? c) && (c <=? 102))%N eqn:E2;
      [apply andb_true_iff in E2; rewrite !N.leb_le in E2; lia|].
    destruct ((65 <=? c) && (c <=? 70))%N eqn:E3;
      [apply andb_true_iff in E3; rewrite !N.leb_le in E3; lia|].
    discriminate. }
  repeat split; try (apply N.eqb_neq; lia).
  unfold is_hex_char in H. destruct (hex_val c) as [d|]; [eauto|discriminate].
Qed.

Lemma byte_of_to_N x : byte_of_N (Byte.to_N x) = x.
Proof.
  unfold byte_of_N. pose proof (Byte.to_N_bounded x).
  rewrite N.mod_small by lia. now rewrite Byte.of_to_N.
Qed.

(** [parseInt] reads a number from every field of four hexadecimal
    digits. *)
Lemma well_formed_reads f :
  well_formed_field f = true -> parseInt16 (decode f) <> None.
Proof.
  unfold well_formed_field. intros H.
  apply andb_prop in H. destruct H as [L F]. apply Nat.eqb_eq in L.
  destruct f as [|a [|b [|c [|d [|? ?]]]]]; try discriminate L.
  cbn [forallb] in F.
  repeat (apply andb_prop in F; let G := fresh "G" in destruct F as [G F]).
  destruct (hex_char_facts _ G) as [Aa Sa].
  destruct (hex_char_facts _ G0) as [Ab _].
  destruct (hex_char_facts _ G1) as [Ac _].
  destruct (hex_char_facts _ G2) as [Ad _].
  destruct (hex_char_more _ G) as (Ma & Pa & _ & _ & da & Va).
  destruct (hex_char_more _ G0) as (_ & _ & Xb & XXb & _).
  assert (D : decode [a; b; c; d]
              = [Byte.to_N a; Byte.to_N b; Byte.to_N c; Byte.to_N d]).
  { assert (A : ascii_str [Byte.to_N a; Byte.to_N b; Byte.to_N c; Byte.to_N d])
      by (repeat constructor; assumption).
    rewrite <- (decode_encode_ascii _ A), (encode_ascii _ A).
    cbn [map]. now rewrite !byte_of_to_N. }
  rewrite D. unfold parseInt16. cbn [trimStart]. rewrite Sa, Ma, Pa, Xb, XXb.
  rewrite andb_false_r. cbn [hex_prefix]. rewrite Va.
  destruct (hex_val (Byte.to_N b)); [|discriminate].
  destruct (hex_val (Byte.to_N c)); [|discriminate].
  destruct (hex_val (Byte.to_N d)); discriminate.
Qed.

(** The claim as stated fails on the body [00zz]: the field is not four
    hexadecimal digits, [parseInt] reads 0 from it, which ends the
    command section as a flush does, and the request is answered. *)
Lemma malformed_always_aborts_counterexample : ~ malformed_always_aborts.
Proof.
  intros H.
  specialize (H [] 7%Z (lit "cafe") (lit "o") (lit "r")
                (list_byte_of_string "00zz") (Some 0%Z) []
                (reaches_start _) (or_introl eq_refl)).
  vm_compute in H. discriminate H.
Qed.

(** C9 (amended). When the parsing loop of a receive-pack request comes
    to a length field from which [parseInt] reads no number (it gives
    NaN; such a field is never four hexadecimal digits), or to a frame
    that is cut short of its declared length by the end of the body, the
    handler throws: no response is returned, hence no HTTP success, and
    the bucket is left as it was (no command is applied, no pack
    stored).  A length field from which [parseInt] reads a number is
    not checked any further: when the loop comes to a field that is read
    as 0, whatever its bytes, the command section ends there as at a
    flush and the request is answered 200. *)
Theorem malformed_pkt_line_aborts (env : bucket) (now : Z)
    (hash org repo : ustring) (buf : bytes) (i : num) (cmds : list command) :
  reaches buf i cmds ->
  (reads_nan buf i -> unparseable buf i) /\
  (reads_nan buf i \/ truncated buf i ->
   parseReceiveCommands buf = Thrown /\
   handleReceivePack env now hash org repo buf = (Thrown, env)) /\
  (frame_len buf i = Some 0%Z ->
   parseReceiveCommands buf = Returned (cmds, findPackStart buf) /\
   exists resp env',
     handleReceivePack env now hash org repo buf = (Returned resp, env') /\
     status resp = 200%Z).
Proof.
  intros Hr. split; [|split].
  - unfold reads_nan, unparseable, frame_len. fold (field_at buf i).
    intros Hn. destruct (well_formed_field (field_at buf i)) eqn:W;
      [|reflexivity].
    now apply well_formed_reads in W.
  - intros Hm.
    assert (P : parseReceiveCommands buf = Thrown).
    { unfold parseReceiveCommands.
      rewrite (parse_from_reached buf i cmds 2 Thrown Hr);
        [reflexivity| |discriminate].
      destruct Hm as [Hm|Hm];
        [now apply parse_loop_nan | now apply parse_loop_truncated]. }
    split; [exact P|].
    unfold handleReceivePack. now rewrite P.
  - intros Hz.
    assert (P : parseReceiveCommands buf = Returned (cmds, findPackStart buf)).
    { unfold parseReceiveCommands.
      rewrite (parse_from_reached buf i cmds 1 (Returned cmds) Hr);
        [reflexivity| |discriminate].
      cbn [parse_loop]. now rewrite Hz. }
    split; [exact P|].
    rewrite (handleReceivePack_returned env now hash org repo buf cmds _ P).
    eexists _, _. split; reflexivity.
Qed.

(** A length field that is not a number in the second frame, a first
    frame that declares 0x20 bytes in a body of 12, the field [00zz]
    after a command, and a command in a frame whose length field is
    [0x30]. *)
Lemma malformed_pkt_line_aborts_witness :
  let cmd := pktLineS (zeroOid ++ [sp] ++ oid_a ++ [sp] ++ main_ref) in
  let odd := list_byte_of_string "0x30" ++ encode (zeroOid ++ lit " b c")
             ++ pktFlush in
  handleReceivePack [] 7 (lit "cafe") (lit "o") (lit "r")
    (cmd ++ list_byte_of_string "zzzz") = (Thrown, [])
  /\ handleReceivePack [] 7 (lit "cafe") (lit "o") (lit "r")
       (list_byte_of_string "0020a b refs") = (Thrown, [])
  /\ parseReceiveCommands (cmd ++ list_byte_of_string "00zz")
     = Returned ([mkCmd zeroOid oid_a main_ref],
                 findPackStart (cmd ++ list_byte_of_string "00zz"))
  /\ (unparseable odd (Some 0%Z) /\
      parseReceiveCommands odd
      = Returned ([mkCmd zeroOid (lit "b") (lit "c")], findPackStart odd)).
Proof.
  intros cmd odd. split; [|split; [|split; [|split; [reflexivity|]]]].
  - refine (proj2 (proj1 (proj2 (malformed_pkt_line_aborts [] 7 (lit "cafe")
                     (lit "o") (lit "r") (cmd ++ list_byte_of_string "zzzz")
                     (Some 101%Z)
                     [mkCmd zeroOid oid_a main_ref] _)) _)).
    + exact (reaches_step (cmd ++ list_byte_of_string "zzzz") _ _
               (mkCmd zeroOid oid_a main_ref) (reaches_start _)
               eq_refl eq_refl).
    + left. reflexivity.
  - refine (proj2 (proj1 (proj2 (malformed_pkt_line_aborts [] 7 (lit "cafe")
                     (lit "o") (lit "r") (list_byte_of_string "0020a b refs")
                     (Some 0%Z) [] _)) _)).
    + constructor.
    + right. exists 0%Z, 32%Z.
      split; [reflexivity|]. split; [reflexivity|]. split; [lia|].
      simpl. lia.
  - refine (proj1 (proj2 (proj2 (malformed_pkt_line_aborts [] 7 (lit "cafe")
                     (lit "o") (lit "r") (cmd ++ list_byte_of_string "00zz")
                     (Some 101%Z)
                     [mkCmd zeroOid oid_a main_ref] _)) _)).
    + exact (reaches_step (cmd ++ list_byte_of_string "00zz") _ _
               (mkCmd zeroOid oid_a main_ref) (reaches_start _)
               eq_refl eq_refl).
    + reflexivity.
  - refine (proj1 (proj2 (proj2 (malformed_pkt_line_aborts [] 7 (lit "cafe")
                     (lit "o") (lit "r") odd (Some 48%Z)
                     [mkCmd zeroOid (lit "b") (lit "c")] _)) _)).
    + exact (reaches_step odd _ _
               (mkCmd zeroOid (lit "b") (lit "c")) (reaches_start _)
               eq_refl eq_refl).
    + reflexivity.
Defined.

(** ** C10: a body without the pack magic *)

Lemma byte_is_eq buf j n x :
  byte_is buf j n = true -> Byte.of_N n = Some x ->
  nth_error buf (Z.to_nat j) = Some x.
Proof.
  unfold byte_is. destruct (nth_error buf (Z.to_nat j)) as [y|]; [|discriminate].
  intros E Hx. apply N.eqb_eq in E. subst n.
  rewrite Byte.of_to_N in Hx. congruence.
Qed.

Lemma nth_error_four {A : Type} (a b c d : A) : forall n buf,
  nth_error buf n = Some a -> nth_error buf (S n) = Some b ->
  nth_error buf (S (S n)) = Some c -> nth_error buf (S (S (S n))) = Some d ->
  buf = firstn n buf ++ [a; b; c; d] ++ skipn (4 + n) buf.
Proof.
  induction n as [|n IH]; intros buf Ha Hb Hc Hd.
  - destruct buf as [|a' [|b' [|c' [|d' r]]]]; simpl in *; try discriminate.
    congruence.
  - destruct buf as [|x buf]; [discriminate|].
    simpl in Ha, Hb, Hc, Hd. simpl firstn.
    replace (4 + S n) with (S (4 + n)) by lia.
    cbn [skipn app]. f_equal. now apply IH.
Qed.

(** The scan returns 0 or the offset of an occurrence of the magic. *)
Lemma findPackStart_loop_found buf : forall fuel i,
  (0 <= i)%Z ->
  findPackStart_loop fuel buf i = 0%Z \/
  (byte_is buf (findPackStart_loop fuel buf i) 0x50
   && byte_is buf (findPackStart_loop fuel buf i + 1) 0x41
   && byte_is buf (findPackStart_loop fuel buf i + 2) 0x43
   && byte_is buf (findPackStart_loop fuel buf i + 3) 0x4b = true
   /\ (i <= findPackStart_loop fuel buf i)%Z).
Proof.
  induction fuel as [|f IH]; intros i Hi; cbn [findPackStart_loop].
  - now left.
  - destruct (i <? Z.of_nat (length buf) - 4)%Z; [|now left].
    destruct (byte_is buf i 80 && byte_is buf (i + 1) 65
              && byte_is buf (i + 2) 67 && byte_is buf (i + 3) 75) eqn:E.
    + right. split; [exact E|lia].
    + destruct (IH (i + 1)%Z ltac:(lia)) as [H|[H1 H2]]; [now left|].
      right. split; [exact H1|lia].
Qed.

Lemma findPackStart_no_magic buf :
  ~ contains_magic buf -> findPackStart buf = 0%Z.
Proof.
  intros H. unfold findPackStart.
  destruct (findPackStart_loop_found buf (length buf) 0 ltac:(lia))
    as [E|[E Hr]]; [exact E|].
  exfalso. apply H.
  set (r := findPackStart_loop (length buf) buf 0) in *.
  apply andb_prop in E. destruct E as [E E4].
  apply andb_prop in E. destruct E as [E E3].
  apply andb_prop in E. destruct E as [E1 E2].
  pose proof (byte_is_eq _ _ _ x50 E1 eq_refl) as N1.
  pose proof (byte_is_eq _ _ _ x41 E2 eq_refl) as N2.
  pose proof (byte_is_eq _ _ _ x43 E3 eq_refl) as N3.
  pose proof (byte_is_eq _ _ _ x4b E4 eq_refl) as N4.
  replace (Z.to_nat (r + 1)) with (S (Z.to_nat r)) in N2 by lia.
  replace (Z.to_nat (r + 2)) with (S (S (Z.to_nat r))) in N3 by lia.
  replace (Z.to_nat (r + 3)) with (S (S (S (Z.to_nat r)))) in N4 by lia.
  exists (firstn (Z.to_nat r) buf), (skipn (4 + Z.to_nat r) buf).
  now apply nth_error_four.
Qed.

(** The body [zzzz] holds no magic and is not empty, but its first
    length field is not a number: the handler throws before anything is
    stored. *)
Lemma body_always_persisted_counterexample : ~ body_always_persisted.
Proof.
  intros H.
  destruct (H [] 7%Z (lit "cafe") (lit "o") (lit "r")
              (list_byte_of_string "zzzz")) as [_ K].
  - intros (pre & post & E).
    destruct pre as [|? [|? [|? [|? [|? ?]]]]]; discriminate E.
  - specialize (K ltac:(discriminate)). discriminate K.
Qed.

(** C10 (amended). For a receive-pack body that holds no [PACK] magic
    the scan returns offset 0; when the command section parses, the body
    is not empty and is stored whole, byte for byte, as a pack under the
    key built from the fresh identifier, and the handler answers; when
    the parsing throws, the handler throws and the bucket is left as it
    was. *)
Theorem body_without_magic_stored (env : bucket) (now : Z)
    (hash org repo : ustring) (buf : bytes) :
  ~ contains_magic buf ->
  findPackStart buf = 0%Z /\
  match parseReceiveCommands buf with
  | Returned _ =>
      buf <> [] /\
      exists resp env',
        handleReceivePack env now hash org repo buf = (Returned resp, env') /\
        let k := pack_key (join [lit "repos"; org; repo]) hash in
        get env' k = Some (mkObj k buf now)
  | _ => handleReceivePack env now hash org repo buf = (Thrown, env)
  end.
Proof.
  intros H. pose proof (findPackStart_no_magic buf H) as F.
  split; [exact F|].
  pose proof (parseReceiveCommands_total buf) as T.
  destruct (parseReceiveCommands buf) as [[cmds ps]| |] eqn:E.
  - assert (N : buf <> []) by (intros ->; discriminate E).
    split; [exact N|].
    assert (P : ps = 0%Z).
    { unfold parseReceiveCommands in E.
      destruct (parse_loop _ _ _ _); inversion E; subst. exact F. }
    subst ps.
    rewrite (handleReceivePack_returned env now hash org repo buf cmds 0 E).
    rewrite slice_from_0.
    assert (L : (0 <? length buf) = true)
      by (apply Nat.ltb_lt; destruct buf; [congruence|simpl; lia]).
    rewrite L. eexists. eexists. split; [reflexivity|].
    apply get_put_same.
  - unfold handleReceivePack. now rewrite E.
  - congruence.
Qed.

Lemma body_without_magic_stored_witness :
  let k := pack_key (lit "repos/o/r") (lit "cafe") in
  get (snd (handleReceivePack [] 7 (lit "cafe") (lit "o") (lit "r")
              (list_byte_of_string "0000"))) k
  = Some (mkObj k (list_byte_of_string "0000") 7).
Proof.
  intros k.
  assert (N : ~ contains_magic (list_byte_of_string "0000")).
  { intros (pre & post & E).
    destruct pre as [|? [|? [|? [|? [|? ?]]]]]; discriminate E. }
  pose proof (body_without_magic_stored [] 7 (lit "cafe") (lit "o") (lit "r")
                (list_byte_of_string "0000") N) as [_ W].
  destruct W as (_ & resp & env' & E & G).
  rewrite E. exact G.
Defined.

(** ** C7: advertise-refs on a repository that does not exist *)

Section InfoRefs.

Variables (env : bucket) (now : Z) (org repo : ustring).

Let base := join [lit "repos"; org; repo].

Lemma refs_prefix_eq :
  join [lit "repos"; org; repo; lit "refs/heads/"]
  = base ++ lit "/" ++ lit "refs/heads/".
Proof. unfold base. cbn [join]. now rewrite <- !app_assoc. Qed.

Lemma r2_list_longer e p q : r2_list e p = [] -> r2_list e (p ++ q) = [].
Proof.
  unfold r2_list. induction e as [|o e IH]; simpl; [reflexivity|].
  destruct (starts_with p (key o)) eqn:E; [discriminate|].
  intros H. destruct (starts_with (p ++ q) (key o)) eqn:E'; [|auto].
  apply starts_with_app_l in E'. congruence.
Qed.

Lemma repoExists_false :
  repoExists env org repo = false -> r2_list env base = [].
Proof.
  unfold repoExists. fold base.
  destruct (r2_list env base); [reflexivity|discriminate].
Qed.

Let head_key := join [base; lit "HEAD"].
Let main_key := join [base; main_ref].
Let head_obj := mkObj head_key (encode (lit "ref: refs/heads/main" ++ nl)) now.
Let main_obj := mkObj main_key (encode (zeroOid ++ nl)) now.

(** After [initRepo] on a repository that did not exist, the listing of
    its branch refs holds the record of [refs/heads/main] only. *)
Lemma listing_after_init :
  repoExists env org repo = false ->
  r2_list (initRepo env now org repo)
    (join [lit "repos"; org; repo; lit "refs/heads/"])
  = [main_obj].
Proof.
  intros H. apply repoExists_false in H.
  rewrite refs_prefix_eq. unfold initRepo, put_text. fold base.
  apply r2_list_put_inside.
  - cbn [join]. rewrite starts_with_app_inv. reflexivity.
  - rewrite r2_list_put_outside.
    + now apply r2_list_longer.
    + cbn [join]. rewrite starts_with_app_inv. reflexivity.
Qed.

Lemma get_after_init :
  get (initRepo env now org repo) head_key = Some head_obj /\
  get (initRepo env now org repo) main_key = Some main_obj.
Proof.
  unfold initRepo, put_text. fold base. split.
  - rewrite get_put_other.
    + apply get_put_same.
    + unfold head_key. cbn [join]. intros E. apply app_inv_head in E.
      discriminate E.
    - apply get_put_same.
Qed.

Lemma listRefs_after_init :
  repoExists env org repo = false ->
  listRefs (initRepo env now org repo) org repo
  = Returned [(main_ref, zeroOid)].
Proof.
  intros H. unfold listRefs. rewrite (listing_after_init H).
  cbn [listRefs_loop]. change (key main_obj) with main_key.
  rewrite (proj2 get_after_init).
  rewrite refs_prefix_eq.
  assert (K : main_key = (base ++ lit "/" ++ lit "refs/heads/") ++ lit "main").
  { unfold main_key. cbn [join]. now rewrite <- !app_assoc. }
  rewrite K at 1. rewrite skipn_app_exact. reflexivity.
Qed.

End InfoRefs.

(** A repository without a record has no ref to list, and no record to
    read. *)
Lemma listRefs_absent env org repo :
  repo_absent env org repo -> listRefs env org repo = Returned [].
Proof.
  unfold repo_absent. intros H. unfold listRefs.
  rewrite refs_prefix_eq, app_assoc, r2_list_longer by exact H.
  reflexivity.
Qed.

Lemma get_absent env p k :
  r2_list env p = [] -> starts_with p k = true -> get env k = None.
Proof.
  unfold r2_list, get. intros H Hk.
  induction env as [|o env IH]; [reflexivity|].
  cbn [filter find] in *.
  destruct (starts_with p (key o)) eqn:S; [discriminate H|].
  destruct (str_eqb (key o) k) eqn:E; [|auto].
  apply str_eqb_eq in E. congruence.
Qed.

(** The advertisement of a repository that the handler takes to exist
    and that has no ref to list. *)
Lemma handleInfoRefs_empty_listing env now org repo service :
  repoExists env org repo = true ->
  listRefs env org repo = Returned [] ->
  header_value_ok (content_type service) = true ->
  handleInfoRefs env now org repo service
  = (Returned
       (mkResp 200 (Some (content_type service))
          (pktLineS (lit "# service=" ++ service ++ nl)
           ++ pktFlush ++ pktFlush)),
     env).
Proof.
  intros He Hl Hv. unfold handleInfoRefs. rewrite He. cbn [negb andb].
  rewrite Hl. cbn [advertise_loop app]. fold (content_type service).
  rewrite Hv, concat_flat. cbn [List.concat]. now rewrite app_nil_r.
Qed.

(** C7 (what the code does). The handler takes a repository to be
    missing when no key of the bucket starts with [repos/<org>/<repo>],
    without a slash after the name.  When that test says so, the
    repository has no record, and advertise-refs for [git-receive-pack]
    initializes it (HEAD is written as [ref: refs/heads/main],
    [refs/heads/main] as the zero id, each with a newline, and no other
    record changes) and then advertises: 200 with the service line, a
    flush, the line of [refs/heads/main] carrying the capabilities, and
    a flush; for [git-upload-pack] it answers 404 and writes nothing.
    But a repository that has no record is not missing for the handler
    when some key starts with its name, as the keys of [<repo>2] do:
    then advertise-refs answers 200 with an advertisement without a ref
    for both services, writes nothing, and the repository stays without
    HEAD and without [refs/heads/main]. *)
Theorem info_refs_missing_repository (env : bucket) (now : Z)
    (org repo : ustring) :
  let base := join [lit "repos"; org; repo] in
  let env' := initRepo env now org repo in
  let empty_advertisement (service : ustring) :=
    mkResp 200 (Some (content_type service))
      (pktLineS (lit "# service=" ++ service ++ nl) ++ pktFlush ++ pktFlush) in
  (repoExists env org repo = false ->
   repo_absent env org repo /\
   (handleInfoRefs env now org repo (lit "git-receive-pack")
    = (Returned
         (mkResp 200
            (Some (lit "application/x-git-receive-pack-advertisement"))
            (pktLineS (lit "# service=git-receive-pack" ++ nl)
             ++ pktFlush
             ++ pktLineS (zeroOid ++ [sp] ++ main_ref ++ nul
                          ++ receive_caps ++ nl)
             ++ pktFlush)),
       env') /\
    get env' (join [base; lit "HEAD"])
    = Some (mkObj (join [base; lit "HEAD"])
              (encode (lit "ref: refs/heads/main" ++ nl)) now) /\
    get env' (join [base; main_ref])
    = Some (mkObj (join [base; main_ref]) (encode (zeroOid ++ nl)) now) /\
    (forall k, k <> join [base; lit "HEAD"] -> k <> join [base; main_ref] ->
               get env' k = get env k)) /\
   handleInfoRefs env now org repo (lit "git-upload-pack")
   = (Returned (mkResp 404 None (encode (lit "Repository not found"))), env)) /\
  (repo_absent env org repo -> repoExists env org repo = true ->
   handleInfoRefs env now org repo (lit "git-receive-pack")
   = (Returned (empty_advertisement (lit "git-receive-pack")), env) /\
   handleInfoRefs env now org repo (lit "git-upload-pack")
   = (Returned (empty_advertisement (lit "git-upload-pack")), env) /\
   get env (join [base; lit "HEAD"]) = None /\
   get env (join [base; main_ref]) = None).
Proof.
  intros base env' empty_advertisement. split.
  - intros H. split; [|split; [split; [|split; [|split]]|]].
    + unfold repo_absent. apply r2_list_longer.
      now apply repoExists_false.
    + unfold handleInfoRefs. rewrite H.
      change (str_eqb (lit "git-receive-pack") (lit "git-receive-pack"))
        with true.
      change (str_eqb (lit "git-receive-pack") (lit "git-upload-pack"))
        with false.
      cbn [negb andb]. rewrite (listRefs_after_init env now org repo H).
      cbn [advertise_loop app].
      change (str_eqb zeroOid []) with false. cbv iota.
      rewrite concat_flat. cbn [List.concat]. rewrite app_nil_r.
      reflexivity.
    + apply (get_after_init env now org repo).
    + apply (get_after_init env now org repo).
    + intros k K1 K2. unfold env', initRepo, put_text.
      rewrite !get_put_other by assumption. reflexivity.
    + unfold handleInfoRefs. rewrite H.
      change (str_eqb (lit "git-upload-pack") (lit "git-receive-pack"))
        with false.
      change (str_eqb (lit "git-upload-pack") (lit "git-upload-pack"))
        with true.
      reflexivity.
  - intros Ha He.
    pose proof (listRefs_absent env org repo Ha) as Hl.
    split; [now apply handleInfoRefs_empty_listing|].
    split; [now apply handleInfoRefs_empty_listing|].
    unfold repo_absent in Ha. fold base in Ha.
    split; apply (get_absent env (base ++ lit "/")); try exact Ha;
      cbn [join]; rewrite app_assoc; apply starts_with_app.
Qed.

Lemma info_refs_missing_repository_witness :
  (handleInfoRefs [] 7 (lit "o") (lit "r") (lit "git-upload-pack")
   = (Returned (mkResp 404 None (encode (lit "Repository not found"))), [])
   /\ snd (handleInfoRefs [] 7 (lit "o") (lit "r") (lit "git-receive-pack"))
      = initRepo [] 7 (lit "o") (lit "r")) /\
  (repo_absent sibling_bucket (lit "o") (lit "r") /\
   handleInfoRefs sibling_bucket 7 (lit "o") (lit "r") (lit "git-upload-pack")
   = (Returned
        (mkResp 200 (Some (content_type (lit "git-upload-pack")))
           (pktLineS (lit "# service=git-upload-pack" ++ nl)
            ++ pktFlush ++ pktFlush)),
      sibling_bucket) /\
   snd (handleInfoRefs sibling_bucket 7 (lit "o") (lit "r")
          (lit "git-receive-pack"))
   = sibling_bucket).
Proof.
  pose proof (info_refs_missing_repository [] 7 (lit "o") (lit "r"))
    as [P _].
  destruct (P eq_refl) as (_ & (W1 & _) & W2).
  pose proof (info_refs_missing_repository sibling_bucket 7 (lit "o") (lit "r"))
    as [_ Q].
  destruct (Q eq_refl eq_refl) as (R1 & R2 & _).
  split; [split; [exact W2|now rewrite W1]|].
  split; [reflexivity|]. split; [exact R2|now rewrite R1].
Defined.

(** ** C4: advertise-refs when no ref is listed *)

(** C4 (what the code does). On an existing repository with no ref
    listed, the loop that emits the ref lines does not run: the response
    is the service line and two flushes, and carries no capability line,
    where the specification asks for one with the zero id.  (For a
    service name that makes the Content-Type an invalid header value
    there is no response at all: [new Response] throws.) *)
Theorem advertise_refs_empty_listing (env : bucket) (now : Z)
    (org repo service : ustring) :
  repoExists env org repo = true ->
  listRefs env org repo = Returned [] ->
  handleInfoRefs env now org repo service
  = (if header_value_ok (content_type service) then
       Returned
         (mkResp 200
            (Some (lit "application/x-" ++ service ++ lit "-advertisement"))
            (pktLineS (lit "# service=" ++ service ++ nl)
             ++ pktFlush ++ pktFlush))
     else Thrown,
     env).
Proof.
  intros He Hl. unfold handleInfoRefs. rewrite He. cbn [negb andb].
  rewrite Hl. cbn [advertise_loop app]. fold (content_type service).
  destruct (header_value_ok (content_type service)); [|reflexivity].
  rewrite concat_flat. cbn [List.concat]. now rewrite app_nil_r.
Qed.

Lemma advertise_refs_empty_listing_witness :
  repoExists tag_only_bucket (lit "o") (lit "r") = true /\
  handleInfoRefs tag_only_bucket 8 (lit "o") (lit "r") (lit "git-upload-pack")
  = (Returned
       (mkResp 200
          (Some (lit "application/x-git-upload-pack-advertisement"))
          (pktLineS (lit "# service=git-upload-pack" ++ nl)
           ++ pktFlush ++ pktFlush)),
     tag_only_bucket).
Proof.
  split; [reflexivity|].
  exact (advertise_refs_empty_listing tag_only_bucket 8 (lit "o") (lit "r")
           (lit "git-upload-pack") eq_refl eq_refl).
Defined.

(** ** The bucket keeps its keys in order *)

Lemma key_compare_refl a : key_compare a a = Eq.
Proof. now apply key_compare_eq. Qed.

Lemma key_compare_antisym a : forall b,
  key_compare b a = CompOpp (key_compare a b).
Proof.
  induction a as [|x a IH]; intros [|y b]; simpl; try reflexivity.
  rewrite (N.compare_antisym x y).
  destruct (x ?= y)%N; simpl; auto.
Qed.

Lemma key_compare_trans a : forall b c,
  key_compare a b = Lt -> key_compare b c = Lt -> key_compare a c = Lt.
Proof.
  induction a as [|x a IH]; intros [|y b] [|z c]; simpl; try discriminate; auto.
  destruct (N.compare_spec x y) as [->|Hxy|Hxy]; try discriminate.
  - destruct (N.compare_spec y z) as [->|Hyz|Hyz]; try discriminate; auto.
    apply IH.
  - intros _.
    destruct (N.compare_spec y z) as [->|Hyz|Hyz]; try discriminate; intros _.
    + apply N.compare_lt_iff in Hxy. now rewrite Hxy.
    + assert (L : (x < z)%N) by lia. apply N.compare_lt_iff in L.
      now rewrite L.
Qed.

Lemma bucket_ok_nil : bucket_ok [].
Proof. constructor. Qed.

Lemma put_in env k v now o :
  In o (put env k v now) -> o = mkObj k v now \/ In o env.
Proof.
  induction env as [|x env IH]; simpl.
  - intros [<-|[]]. now left.
  - destruct (key_compare k (key x)); simpl.
    + intros [<-|H]; auto.
    + intros [<-|H]; auto.
    + intros [<-|H]; auto. destruct (IH H); auto.
Qed.

Lemma put_ok env k v now : bucket_ok env -> bucket_ok (put env k v now).
Proof.
  unfold bucket_ok. induction 1 as [|x env Hs IH Hx]; simpl.
  - repeat constructor.
  - destruct (key_compare k (key x)) eqn:E.
    + apply key_compare_eq in E. subst k.
      constructor; [exact Hs|]. exact Hx.
    + constructor; [now constructor|].
      constructor; [exact E|].
      eapply Forall_impl; [|exact Hx].
      intros o Ho. unfold obj_lt in *. cbn [key].
      eapply key_compare_trans; eauto.
    + constructor; [exact IH|].
      apply Forall_forall. intros o Ho.
      apply put_in in Ho. destruct Ho as [->|Ho].
      * unfold obj_lt. cbn [key].
        rewrite key_compare_antisym, E. reflexivity.
      * rewrite Forall_forall in Hx. auto.
Qed.

(** In a bucket in key order, [get] of the key of a stored object gives
    that object. *)
Lemma bucket_ok_get env o :
  bucket_ok env -> In o env -> get env (key o) = Some o.
Proof.
  unfold bucket_ok, get. induction 1 as [|x env Hs IH Hx]; simpl; [tauto|].
  intros [->|Hin].
  - now rewrite str_eqb_refl.
  - rewrite Forall_forall in Hx. specialize (Hx o Hin).
    assert (N : str_eqb (key x) (key o) = false).
    { apply str_eqb_neq. intros E. unfold obj_lt in Hx.
      rewrite E, key_compare_refl in Hx. discriminate. }
    rewrite N. auto.
Qed.

Lemma initRepo_ok env now org repo :
  bucket_ok env -> bucket_ok (initRepo env now org repo).
Proof. intros H. unfold initRepo, put_text. now do 2 apply put_ok. Qed.

Lemma receive_command_bucket_ok now base st c :
  bucket_ok (fst st) -> bucket_ok (fst (receive_command now base st c)).
Proof.
  destruct st as [env results]. unfold receive_command. cbn [fst].
  intros H. destruct (negb _ && negb _); cbn [fst]; [exact H|].
  now apply put_ok.
Qed.

Lemma run_commands_ok now base cmds : forall st,
  bucket_ok (fst st) -> bucket_ok (fst (run_commands now base cmds st)).
Proof.
  induction cmds as [|c cmds IH]; intros st H; [exact H|].
  unfold run_commands in *. cbn [fold_left].
  apply IH. now apply receive_command_bucket_ok.
Qed.

(** The handlers keep the bucket in key order. *)
Lemma handleReceivePack_ok env now hash org repo buf :
  bucket_ok env ->
  bucket_ok (snd (handleReceivePack env now hash org repo buf)).
Proof.
  intros H. destruct (parseReceiveCommands buf) as [[cmds ps]| |] eqn:E.
  - rewrite (handleReceivePack_returned env now hash org repo buf cmds ps E).
    cbn [snd].
    pose proof (run_commands_ok now (join [lit "repos"; org; repo]) cmds
                  (env, [pktLineS unpack_ok]) H) as R.
    destruct (0 <? length _); [now apply put_ok|exact R].
  - unfold handleReceivePack. now rewrite E.
  - unfold handleReceivePack. now rewrite E.
Qed.

(** ** C6: upload-pack *)

(** The first object after the sort is one of the list, and none of the
    list was uploaded later. *)
Lemma sort_by_head l :
  match sort_by by_upload_desc l with
  | [] => l = []
  | x :: _ => In x l /\ forall y, In y l -> (uploaded y <= uploaded x)%Z
  end.
Proof.
  induction l as [|a l IH]; [reflexivity|].
  unfold sort_by in *. cbn [fold_right].
  destruct (fold_right (sort_insert by_upload_desc) [] l) as [|x r].
  - subst l. simpl. split; [now left|]. intros y [<-|[]]. lia.
  - destruct IH as [Hx Hmax]. cbn [sort_insert].
    destruct (Z.leb_spec (by_upload_desc a x) 0) as [L|G];
      unfold by_upload_desc in *.
    + split; [now left|]. intros y [<-|Hy]; [lia|].
      specialize (Hmax y Hy). lia.
    + split; [now right|]. intros y [<-|Hy]; [lia|auto].
Qed.

Lemma firstn_skipn_slice {A : Type} (data : list A) i n :
  (0 <= i)%Z -> (0 <= n)%Z ->
  slice data i (i + n)
  = firstn (Z.to_nat n) (skipn (Z.to_nat i) data).
Proof.
  intros Hi Hn. unfold slice. unfold rel_index.
  destruct (Z.ltb_spec i 0); [lia|].
  destruct (Z.ltb_spec (i + n) 0); [lia|].
  destruct (Z.le_gt_cases i (Z.of_nat (length data))) as [L|G].
  - rewrite (Z.min_l i) by lia.
    destruct (Z.le_gt_cases (i + n) (Z.of_nat (length data))) as [L'|G'].
    + rewrite Z.min_l by lia. f_equal. lia.
    + rewrite Z.min_r by lia.
      rewrite !firstn_all2; auto; rewrite length_skipn; lia.
  - rewrite !Z.min_r by lia.
    rewrite !skipn_all2 by lia. now rewrite !firstn_nil.
Qed.

(** The loop cuts the pack, from [i] on, into pieces of at most [MAX]
    bytes, none empty, each sent as a side-band packet of channel 1. *)
Lemma upload_loop_spec data : forall fuel i,
  (0 <= i)%Z ->
  (Z.of_nat (length data) - i <= Z.of_nat fuel)%Z ->
  exists chunks,
    upload_loop fuel data i = map (fun c => pktLine (x01 :: c)) chunks /\
    List.concat chunks = skipn (Z.to_nat i) data /\
    Forall (fun c => (0 < Z.of_nat (length c) <= MAX)%Z) chunks.
Proof.
  induction fuel as [|f IH]; intros i Hi Hf.
  - exists []. cbn [upload_loop map List.concat].
    rewrite skipn_all2 by lia. auto.
  - cbn [upload_loop].
    destruct (Z.ltb_spec i (Z.of_nat (length data))) as [L|G].
    + destruct (IH (i + MAX)%Z) as (chunks & E & C & F);
        [unfold MAX; lia | unfold MAX; lia|].
      set (c := slice data i (i + MAX)).
      exists (c :: chunks).
      assert (Ec : c = firstn (Z.to_nat MAX) (skipn (Z.to_nat i) data))
        by (apply firstn_skipn_slice; unfold MAX; lia).
      split; [|split].
      * cbn [map]. rewrite E. f_equal. f_equal.
        apply (side_band_eq c).
      * cbn [List.concat]. rewrite C, Ec.
        replace (Z.to_nat (i + MAX)) with (Z.to_nat MAX + Z.to_nat i)
          by (unfold MAX; lia).
        rewrite <- skipn_skipn. apply firstn_skipn.
      * constructor; [|exact F].
        rewrite Ec, length_firstn, length_skipn. unfold MAX. lia.
    + exists []. cbn [map List.concat].
      rewrite skipn_all2 by lia. auto.
Qed.

(** C6. With no stored pack, upload-pack answers 200 with the four bytes
    [0000] alone.  Otherwise (the bucket holding one object per key) it
    answers 200 with the content of a stored pack than which none was
    uploaded later, cut into pieces of 1 to 65500 bytes whose
    concatenation is that content, each piece sent as a pkt-line whose
    payload is the channel byte 1 and the piece, and one flush at the
    end. *)
Theorem upload_pack_response (env : bucket) (org repo : ustring) :
  bucket_ok env ->
  let packs := r2_list env (pack_prefix org repo) in
  (packs = [] ->
   handleUploadPack env org repo
   = Returned (mkResp 200 (Some upload_result_type) [x30; x30; x30; x30])) /\
  (packs <> [] ->
   exists latest chunks,
     In latest packs /\
     (forall o, In o packs -> (uploaded o <= uploaded latest)%Z) /\
     List.concat chunks = body latest /\
     Forall (fun c => (0 < Z.of_nat (length c) <= 65500)%Z) chunks /\
     handleUploadPack env org repo
     = Returned (mkResp 200 (Some upload_result_type)
                   (List.concat (map (fun c => pktLine (x01 :: c)) chunks)
                    ++ pktFlush))).
Proof.
  intros Hok packs. unfold handleUploadPack. fold (pack_prefix org repo).
  fold packs. split.
  - intros ->. reflexivity.
  - intros Hne.
    assert (L : (length packs =? 0) = false)
      by (destruct packs; [congruence|reflexivity]).
    rewrite L.
    pose proof (sort_by_head packs) as S. fold by_upload_desc.
    destruct (sort_by by_upload_desc packs) as [|latest r]; [congruence|].
    destruct S as [Hin Hmax].
    assert (Henv : In latest env).
    { unfold packs, r2_list in Hin. apply filter_In in Hin. tauto. }
    rewrite (bucket_ok_get env latest Hok Henv). unfold arrayBuffer.
    destruct (upload_loop_spec (body latest) (length (body latest)) 0)
      as (chunks & E & C & F); [lia|lia|].
    exists latest, chunks.
    split; [exact Hin|]. split; [exact Hmax|]. split; [exact C|].
    split; [exact F|].
    rewrite E, concat_flat, concat_app. cbn [List.concat].
    now rewrite app_nil_r.
Qed.

(** Two packs stored one after the other: the later one is served. *)
Example upload_serves_latest :
  handleUploadPack two_packs (lit "o") (lit "r")
  = Returned (mkResp 200 (Some upload_result_type)
                (pktLine (x01 :: pack2) ++ pktFlush)).
Proof. reflexivity. Qed.

Lemma upload_pack_response_witness :
  (exists latest chunks,
     In latest (r2_list two_packs (pack_prefix (lit "o") (lit "r"))) /\
     (forall o, In o (r2_list two_packs (pack_prefix (lit "o") (lit "r"))) ->
                (uploaded o <= uploaded latest)%Z) /\
     List.concat chunks = body latest /\
     Forall (fun c => (0 < Z.of_nat (length c) <= 65500)%Z) chunks /\
     handleUploadPack two_packs (lit "o") (lit "r")
     = Returned (mkResp 200 (Some upload_result_type)
                   (List.concat (map (fun c => pktLine (x01 :: c)) chunks)
                    ++ pktFlush)))
  /\ handleUploadPack [] (lit "o") (lit "r")
     = Returned (mkResp 200 (Some upload_result_type) [x30; x30; x30; x30]).
Proof.
  assert (Hok : bucket_ok two_packs)
    by (do 2 apply put_ok; apply bucket_ok_nil).
  split.
  - apply (proj2 (upload_pack_response two_packs (lit "o") (lit "r") Hok)).
    discriminate.
  - exact (proj1 (upload_pack_response [] (lit "o") (lit "r") bucket_ok_nil)
             eq_refl).
Defined.

(** ** C5: what a ref record holds *)

Lemma length_ref_record v : ref_record_ok v -> length v = 41.
Proof.
  intros (id & H & ->). destruct (oid_facts id H) as (L & A & _).
  rewrite length_encode_ascii
    by (apply Forall_app; split; [exact A | repeat constructor]).
  rewrite length_app, L. reflexivity.
Qed.

(** The new id of a command is written as it is: the push of
    [zero garbage refs/heads/main] leaves the record [garbage\n]. *)
Lemma ref_invariant_preserved_counterexample : ~ ref_invariant_preserved.
Proof.
  intros H.
  destruct (H [] 7%Z (lit "cafe") (lit "o") (lit "r")
              (pktLineS (zeroOid ++ [sp] ++ lit "garbage" ++ [sp] ++ main_ref)
               ++ pktFlush)) as [_ K].
  - intros r o _ G. discriminate G.
  - specialize (K main_ref
                  (mkObj (lit "repos/o/r/refs/heads/main")
                     (encode (lit "garbage" ++ nl)) 7)
                  eq_refl eq_refl).
    apply length_ref_record in K. discriminate K.
Qed.

Lemma refs_valid_put base env r v now :
  ref_record_ok v -> refs_valid base env ->
  refs_valid base (put env (join [base; r]) v now).
Proof.
  intros Hv Hi r' o Hr G.
  destruct (list_eq_dec N.eq_dec (join [base; r']) (join [base; r])) as [E|E].
  - rewrite E, get_put_same in G. inversion G; subst. exact Hv.
  - rewrite get_put_other in G by exact E. eauto.
Qed.

(** A write outside [refs/] leaves the ref records as they are. *)
Lemma refs_valid_put_outside base env r v now :
  starts_with (lit "refs/") r = false -> refs_valid base env ->
  refs_valid base (put env (join [base; r]) v now).
Proof.
  intros Hr Hi r' o Hr' G.
  rewrite get_put_other in G; [eauto|].
  cbn [join]. intros E. apply app_inv_head in E.
  apply app_inv_head in E. congruence.
Qed.

Lemma run_commands_valid now base cmds : forall st,
  Forall (fun c => is_oid (new c) = true) cmds ->
  refs_valid base (fst st) ->
  refs_valid base (fst (run_commands now base cmds st)).
Proof.
  induction cmds as [|c cmds IH]; intros [env results] Hc Hi; [exact Hi|].
  inversion Hc as [|? ? Hn Hcs]; subst.
  unfold run_commands in *. cbn [fold_left]. apply IH; [exact Hcs|].
  unfold receive_command. destruct (negb _ && negb _); cbn [fst]; [exact Hi|].
  apply refs_valid_put; [|exact Hi]. exists (new c). auto.
Qed.

(** C5 (amended). [init] writes the zero id and a newline to
    [refs/heads/main]; an accepted receive-pack command writes the new
    id it carries, whatever it is, and a newline.  So the ref records of
    the repository stay valid (a 40-character hexadecimal id, the zero
    id being one, and a newline) through [init], and through every
    receive-pack request whose commands all carry a syntactically valid
    new id. *)
Theorem ref_records_stay_valid (env : bucket) (now : Z)
    (hash org repo : ustring) (buf : bytes) :
  let base := join [lit "repos"; org; repo] in
  refs_valid base env ->
  refs_valid base (initRepo env now org repo) /\
  (forall cmds ps,
      parseReceiveCommands buf = Returned (cmds, ps) ->
      Forall (fun c => is_oid (new c) = true) cmds ->
      refs_valid base (snd (handleReceivePack env now hash org repo buf))) /\
  (forall now' results c,
      fst (receive_command now' base (env, results) c) = env \/
      fst (receive_command now' base (env, results) c)
      = put env (join [base; ref c]) (encode (new c ++ nl)) now').
Proof.
  intros base Hi. split; [|split].
  - unfold initRepo, put_text. fold base.
    apply refs_valid_put.
    + exists zeroOid. split; reflexivity.
    + now apply refs_valid_put_outside.
  - intros cmds ps E Hc.
    rewrite (handleReceivePack_returned env now hash org repo buf cmds ps E).
    cbn [snd]. fold base.
    pose proof (run_commands_valid now base cmds (env, [pktLineS unpack_ok])
                  Hc Hi) as R.
    destruct (0 <? length _); [|exact R].
    unfold pack_key. now apply refs_valid_put_outside.
  - intros now' results c. unfold receive_command.
    destruct (negb _ && negb _); cbn [fst]; [now left|now right].
Qed.

Lemma ref_records_stay_valid_witness :
  refs_valid (lit "repos/o/r")
    (snd (handleReceivePack [] 7 (lit "cafe") (lit "o") (lit "r")
            (pktLineS (zeroOid ++ [sp] ++ oid_a ++ [sp] ++ main_ref)
             ++ pktFlush))).
Proof.
  assert (H0 : refs_valid (join [lit "repos"; lit "o"; lit "r"]) [])
    by (intros r o _ G; discriminate G).
  refine (proj1 (proj2 (ref_records_stay_valid [] 7 (lit "cafe") (lit "o")
                          (lit "r")
                          (pktLineS (zeroOid ++ [sp] ++ oid_a ++ [sp]
                                     ++ main_ref) ++ pktFlush) H0))
            [mkCmd zeroOid oid_a main_ref] 0%Z eq_refl _).
  repeat constructor.
Defined.

(** ** C2: two pushes that race on a ref *)

Import Race.

(** A request that runs alone does what the loop of the handler does. *)
Lemma solo_is_receive_command base now c env results :
  let w := run base now now c c [First; First] (start env) in
  receive_command now base (env, results) c
  = (store w,
     results ++ [pktLineS (match ph1 w with
                           | Done true => ok_line c
                           | _ => ng_line c
                           end)]).
Proof.
  unfold run, start. cbn [fold_left step store ph1 ph2 step_req].
  unfold receive_command. fold (rejects base env c).
  destruct (rejects base env c); reflexivity.
Qed.

(** Both requests read the stored id [a] before either writes: both
    are reported ok, and the id written first is overwritten. *)
Lemma exactly_one_succeeds_counterexample : ~ exactly_one_succeeds.
Proof.
  intros H.
  specialize (H (lit "repos/o/r") 2%Z 3%Z (main_at oid_a) main_ref
                oid_a oid_b oid_c [First; Second; First; Second] eq_refl).
  discriminate H.
Qed.

Section Outcomes.

Variables (base : ustring) (now1 now2 : Z) (env : bucket).
Variables (r oldId new1 new2 : ustring).

Hypothesis old_not_zero : oldId <> zeroOid.
Hypothesis stored_old : readRef env base r = oldId.
Hypothesis new1_oid : is_oid new1 = true.
Hypothesis new1_fresh : new1 <> oldId.
Hypothesis new2_oid : is_oid new2 = true.
Hypothesis new2_fresh : new2 <> oldId.

Let c1 := mkCmd oldId new1 r.
Let c2 := mkCmd oldId new2 r.
Let k := join [base; r].
Let e1 := put_text env k (new1 ++ nl) now1.
Let e2 := put_text env k (new2 ++ nl) now2.
Let e12 := put_text e1 k (new2 ++ nl) now2.
Let e21 := put_text e2 k (new1 ++ nl) now1.

Lemma rejects_eq e c :
  old c <> zeroOid ->
  rejects base e c = negb (str_eqb (readRef e base (ref c)) (old c)).
Proof.
  intros H. unfold rejects.
  assert (Z0 : str_eqb (old c) zeroOid = false) by now apply str_eqb_neq.
  rewrite Z0, Z0. cbn [negb]. apply andb_true_r.
Qed.

Lemma accepted_at_start c :
  old c = oldId -> ref c = r -> rejects base env c = false.
Proof.
  intros Ho Hr. rewrite rejects_eq by congruence.
  rewrite Hr, Ho, stored_old, str_eqb_refl. reflexivity.
Qed.

Lemma rejected_after e n now c :
  is_oid n = true -> n <> oldId -> old c = oldId -> ref c = r ->
  rejects base (put_text e k (n ++ nl) now) c = true.
Proof.
  intros Hn Hf Ho Hr. rewrite rejects_eq by congruence.
  rewrite Hr, Ho. unfold k. rewrite readRef_put_oid by exact Hn.
  apply negb_true_iff, str_eqb_neq, Hf.
Qed.

Local Abbreviation run' := (run base now1 now2 c1 c2).

(** One request has finished before the other starts. *)
Lemma run_after_first rest w :
  w = mkWorld e1 (Done true) Start \/ w = mkWorld e1 (Done true) (Done false) ->
  run' rest w = mkWorld e1 (Done true) Start \/
  run' rest w = mkWorld e1 (Done true) (Done false).
Proof.
  revert w. induction rest as [|who rest IH]; intros w Hw; [exact Hw|].
  unfold run. cbn [fold_left]. apply IH.
  destruct Hw as [->| ->]; destruct who; cbn [step store ph1 ph2 step_req];
    auto.
  unfold e1. rewrite rejected_after; auto.
Qed.

Lemma run_after_second rest w :
  w = mkWorld e2 Start (Done true) \/ w = mkWorld e2 (Done false) (Done true) ->
  run' rest w = mkWorld e2 Start (Done true) \/
  run' rest w = mkWorld e2 (Done false) (Done true).
Proof.
  revert w. induction rest as [|who rest IH]; intros w Hw; [exact Hw|].
  unfold run. cbn [fold_left]. apply IH.
  destruct Hw as [->| ->]; destruct who; cbn [step store ph1 ph2 step_req];
    auto.
  unfold e2. rewrite rejected_after; auto.
Qed.

(** Both have read, and one has written: the other writes over it at
    its next step, whatever the bucket holds by then. *)
Lemma run_first_wrote rest w :
  w = mkWorld e1 (Done true) Pending \/
  w = mkWorld e12 (Done true) (Done true) ->
  run' rest w = mkWorld e1 (Done true) Pending \/
  run' rest w = mkWorld e12 (Done true) (Done true).
Proof.
  revert w. induction rest as [|who rest IH]; intros w Hw; [exact Hw|].
  unfold run. cbn [fold_left]. apply IH.
  destruct Hw as [->| ->]; destruct who; cbn [step store ph1 ph2 step_req];
    auto.
Qed.

Lemma run_second_wrote rest w :
  w = mkWorld e2 Pending (Done true) \/
  w = mkWorld e21 (Done true) (Done true) ->
  run' rest w = mkWorld e2 Pending (Done true) \/
  run' rest w = mkWorld e21 (Done true) (Done true).
Proof.
  revert w. induction rest as [|who rest IH]; intros w Hw; [exact Hw|].
  unfold run. cbn [fold_left]. apply IH.
  destruct Hw as [->| ->]; destruct who; cbn [step store ph1 ph2 step_req];
    auto.
Qed.

(** The schedule after both have read: the request that takes the next
    step writes first, and the other writes over it. *)
Lemma run_after_both_read rest :
  both_done (run' rest (mkWorld env Pending Pending)) = true ->
  match rest with
  | First :: _ => run' rest (mkWorld env Pending Pending)
                  = mkWorld e12 (Done true) (Done true)
  | Second :: _ => run' rest (mkWorld env Pending Pending)
                   = mkWorld e21 (Done true) (Done true)
  | [] => False
  end.
Proof.
  destruct rest as [|[|] rest]; [discriminate| |]; intros Hd.
  - assert (S1 : run' (First :: rest) (mkWorld env Pending Pending)
                 = run' rest (mkWorld e1 (Done true) Pending))
      by reflexivity.
    rewrite S1 in *.
    destruct (run_first_wrote rest _ (or_introl eq_refl)) as [E|E];
      rewrite E in *; [discriminate Hd|reflexivity].
  - assert (S2 : run' (Second :: rest) (mkWorld env Pending Pending)
                 = run' rest (mkWorld e2 Pending (Done true)))
      by reflexivity.
    rewrite S2 in *.
    destruct (run_second_wrote rest _ (or_introl eq_refl)) as [E|E];
      rewrite E in *; [discriminate Hd|reflexivity].
Qed.

Lemma first_two_steps a b rest :
  run' (a :: b :: rest) (start env)
  = run' rest
      (match a, b with
       | First, First => mkWorld e1 (Done true) Start
       | Second, Second => mkWorld e2 Start (Done true)
       | _, _ => mkWorld env Pending Pending
       end).
Proof.
  unfold run, start. cbn [fold_left]. f_equal.
  destruct a, b; cbn [step store ph1 ph2 step_req];
    rewrite ?accepted_at_start by reflexivity;
    cbn [step store ph1 ph2 step_req];
    rewrite ?accepted_at_start by reflexivity; reflexivity.
Qed.

Lemma short_schedule sched :
  both_done (run' sched (start env)) = true -> 2 <= length sched.
Proof.
  destruct sched as [|a [|b rest]]; simpl; try lia.
  - discriminate.
  - unfold run, start. cbn [fold_left].
    destruct a; cbn [step store ph1 ph2 step_req];
      rewrite accepted_at_start by reflexivity; discriminate.
Qed.

(** C2 (amended). Two pushes of the same ref declare the same old id,
    which is not the zero id and is the id stored; their new ids are
    valid and differ from it.  Whatever the schedule of their steps,
    once both are done: if the request that starts also takes the second
    step (it has written before the other reads), exactly one push
    succeeds, that one, the other is rejected, and the ref holds its new
    id; if the two requests take the first two steps (both read before
    either writes), both are reported ok, and the bucket is what the two
    writes leave, the write of the request that takes the third step
    first and the write of the other over it: the ref holds the new id
    of the request that writes last, and the update of the other is
    lost.  A write depends on the id that the request read, not on the
    id stored when it writes: the second write is made on a record that
    no longer holds the declared old id. *)
Theorem race_outcomes (sched : list req) :
  let w := run' sched (start env) in
  both_done w = true ->
  match sched with
  | a :: b :: rest =>
      if req_eqb a b then
        xorb (succeeded (ph1 w)) (succeeded (ph2 w)) = true /\
        succeeded (phase_of a w) = true /\
        readRef (store w) base r = match a with First => new1 | Second => new2 end
      else
        succeeded (ph1 w) = true /\ succeeded (ph2 w) = true /\
        match rest with
        | First :: _ =>
            store w
            = put_text (put_text env (join [base; r]) (new1 ++ nl) now1)
                (join [base; r]) (new2 ++ nl) now2 /\
            readRef (put_text env (join [base; r]) (new1 ++ nl) now1) base r
            = new1 /\
            readRef (store w) base r = new2
        | Second :: _ =>
            store w
            = put_text (put_text env (join [base; r]) (new2 ++ nl) now2)
                (join [base; r]) (new1 ++ nl) now1 /\
            readRef (put_text env (join [base; r]) (new2 ++ nl) now2) base r
            = new2 /\
            readRef (store w) base r = new1
        | [] => False
        end
  | _ => False
  end.
Proof.
  intros w Hd. pose proof (short_schedule sched Hd) as Hl.
  destruct sched as [|a [|b rest]]; try (simpl in Hl; lia).
  unfold w in *. clear w Hl. rewrite first_two_steps in *.
  destruct a, b; cbn [req_eqb].
  - destruct (run_after_first rest _ (or_introl eq_refl)) as [E|E];
      rewrite E in *; [discriminate Hd|].
    cbn [ph1 ph2 store succeeded phase_of xorb].
    repeat split. unfold e1, k. now apply readRef_put_oid.
  - pose proof (run_after_both_read rest Hd) as A.
    destruct rest as [|[|] rest']; [destruct A| |]; rewrite A;
      cbn [ph1 ph2 store succeeded]; repeat split;
      try (now apply readRef_put_oid).
  - pose proof (run_after_both_read rest Hd) as A.
    destruct rest as [|[|] rest']; [destruct A| |]; rewrite A;
      cbn [ph1 ph2 store succeeded]; repeat split;
      try (now apply readRef_put_oid).
  - destruct (run_after_second rest _ (or_introl eq_refl)) as [E|E];
      rewrite E in *; [discriminate Hd|].
    cbn [ph1 ph2 store succeeded phase_of xorb].
    repeat split. unfold e2, k. now apply readRef_put_oid.
Qed.

End Outcomes.

Lemma race_outcomes_witness :
  let w (sched : list req) :=
    run (lit "repos/o/r") 2 3 (mkCmd oid_a oid_b main_ref)
      (mkCmd oid_a oid_c main_ref) sched (start (main_at oid_a)) in
  (xorb (succeeded (ph1 (w [First; First; Second])))
        (succeeded (ph2 (w [First; First; Second]))) = true /\
   readRef (store (w [First; First; Second])) (lit "repos/o/r") main_ref
   = oid_b) /\
  (succeeded (ph1 (w [First; Second; Second; First])) = true /\
   succeeded (ph2 (w [First; Second; Second; First])) = true /\
   store (w [First; Second; Second; First])
   = put_text
       (put_text (main_at oid_a) (join [lit "repos/o/r"; main_ref])
          (oid_c ++ nl) 3)
       (join [lit "repos/o/r"; main_ref]) (oid_b ++ nl) 2 /\
   readRef (store (w [First; Second; Second; First])) (lit "repos/o/r")
     main_ref
   = oid_b).
Proof.
  intros w.
  assert (N : forall x y : ustring, str_eqb x y = false -> x <> y)
    by (intros x y; apply str_eqb_neq).
  pose proof (fun sched =>
                race_outcomes (lit "repos/o/r") 2 3 (main_at oid_a) main_ref
                  oid_a oid_b oid_c (N oid_a zeroOid eq_refl) eq_refl
                  eq_refl (N oid_b oid_a eq_refl)
                  eq_refl (N oid_c oid_a eq_refl) sched)
    as R.
  split.
  - destruct (R [First; First; Second] eq_refl) as (X & _ & S).
    split; [exact X|exact S].
  - destruct (R [First; Second; Second; First] eq_refl)
      as (S1 & S2 & E & _ & F).
    split; [exact S1|]. split; [exact S2|]. split; [exact E|exact F].
Defined.

(** * Further properties of the code *)

(** ** [findPackStart] *)

Lemma findPackStart_loop_none buf : forall fuel i,
  (forall j, (i <= j < Z.of_nat (length buf) - 4)%Z -> magic_at buf j = false) ->
  findPackStart_loop fuel buf i = 0%Z.
Proof.
  induction fuel as [|f IH]; intros i H; cbn [findPackStart_loop]; auto.
  destruct (Z.ltb_spec i (Z.of_nat (length buf) - 4)); [|reflexivity].
  fold (magic_at buf i). rewrite (H i) by lia.
  apply IH. intros j Hj. apply H. lia.
Qed.

Lemma findPackStart_loop_first buf j : forall fuel i,
  (i <= j < Z.of_nat (length buf) - 4)%Z ->
  (j - i < Z.of_nat fuel)%Z ->
  magic_at buf j = true ->
  (forall k, (i <= k < j)%Z -> magic_at buf k = false) ->
  findPackStart_loop fuel buf i = j.
Proof.
  induction fuel as [|f IH]; intros i Hi Hf Hj Hk; [lia|].
  cbn [findPackStart_loop].
  destruct (Z.ltb_spec i (Z.of_nat (length buf) - 4)); [|lia].
  fold (magic_at buf i).
  destruct (Z.eq_dec i j) as [->|Hne].
  - now rewrite Hj.
  - rewrite (Hk i) by lia. apply IH; try lia; auto.
    intros k Hk'. apply Hk. lia.
Qed.

(** X1. The scan returns the first offset, at least five bytes before
    the end of the buffer, at which the bytes [PACK] stand, and 0 when
    there is none: a magic that ends the buffer is not seen, and a magic
    at offset 0 gives the same answer as no magic. *)
Theorem findPackStart_first_offset (buf : bytes) :
  ((forall j, (0 <= j < Z.of_nat (length buf) - 4)%Z ->
              magic_at buf j = false) ->
   findPackStart buf = 0%Z) /\
  (forall j,
      (0 <= j < Z.of_nat (length buf) - 4)%Z ->
      magic_at buf j = true ->
      (forall k, (0 <= k < j)%Z -> magic_at buf k = false) ->
      findPackStart buf = j).
Proof.
  split.
  - intros H. apply findPackStart_loop_none. exact H.
  - intros j Hj Hm Hk. apply findPackStart_loop_first; auto; lia.
Qed.

Lemma findPackStart_first_offset_witness :
  findPackStart (list_byte_of_string "0000PACKxPACK") = 4%Z /\
  findPackStart (list_byte_of_string "0000PACK") = 0%Z.
Proof.
  split.
  - apply (proj2 (findPackStart_first_offset
                    (list_byte_of_string "0000PACKxPACK")) 4%Z).
    + simpl. lia.
    + reflexivity.
    + intros k Hk.
      assert (C : (k = 0 \/ k = 1 \/ k = 2 \/ k = 3)%Z) by lia.
      destruct C as [->|[->|[->| ->]]]; reflexivity.
  - apply (proj1 (findPackStart_first_offset
                    (list_byte_of_string "0000PACK"))).
    intros j Hj. simpl in Hj.
    assert (C : (j = 0 \/ j = 1 \/ j = 2 \/ j = 3)%Z) by lia.
    destruct C as [->|[->|[->| ->]]]; reflexivity.
Defined.

Lemma findPackStart_loop_range buf : forall fuel i,
  (0 <= i)%Z ->
  findPackStart_loop fuel buf i = 0%Z \/
  (i <= findPackStart_loop fuel buf i < Z.of_nat (length buf) - 4)%Z.
Proof.
  induction fuel as [|f IH]; intros i Hi; cbn [findPackStart_loop]; auto.
  destruct (Z.ltb_spec i (Z.of_nat (length buf) - 4)); [|now left].
  destruct (byte_is buf i 80 && _ && _ && _); [right; lia|].
  destruct (IH (i + 1)%Z ltac:(lia)) as [E|E]; [now left|right; lia].
Qed.

Lemma slice_from_skipn {A : Type} (buf : list A) j :
  (0 <= j <= Z.of_nat (length buf))%Z ->
  slice_from buf j = skipn (Z.to_nat j) buf.
Proof.
  intros H. unfold slice_from, slice. rewrite !rel_index_in by lia.
  apply firstn_all2. rewrite length_skipn. lia.
Qed.

Lemma parse_returned_pack_start buf cmds ps :
  parseReceiveCommands buf = Returned (cmds, ps) ->
  ps = findPackStart buf /\ buf <> [].
Proof.
  intros E. split.
  - unfold parseReceiveCommands in E.
    destruct (parse_loop _ _ _ _); inversion E; reflexivity.
  - intros ->. discriminate E.
Qed.

Lemma handleReceivePack_inv env now hash org repo buf resp env' :
  handleReceivePack env now hash org repo buf = (Returned resp, env') ->
  exists cmds, parseReceiveCommands buf = Returned (cmds, findPackStart buf).
Proof.
  intros H. destruct (parseReceiveCommands buf) as [[cmds ps]| |] eqn:E.
  - exists cmds. now destruct (parse_returned_pack_start buf cmds ps E) as [-> _].
  - unfold handleReceivePack in H. rewrite E in H. discriminate H.
  - unfold handleReceivePack in H. rewrite E in H. discriminate H.
Qed.

(** The blob that a request of body [buf] stores. *)
Lemma pack_of_body buf :
  buf <> [] ->
  slice_from buf (findPackStart buf)
  = skipn (Z.to_nat (findPackStart buf)) buf /\
  skipn (Z.to_nat (findPackStart buf)) buf <> [].
Proof.
  intros Hne.
  assert (L : (0 < Z.of_nat (length buf))%Z)
    by (destruct buf; [congruence|simpl; lia]).
  assert (R : (0 <= findPackStart buf < Z.of_nat (length buf))%Z).
  { unfold findPackStart.
    destruct (findPackStart_loop_range buf (length buf) 0 ltac:(lia))
      as [E|E]; [rewrite E|]; lia. }
  split; [apply slice_from_skipn; lia|].
  intros E. apply (f_equal (@length byte)) in E.
  rewrite length_skipn in E. simpl in E. lia.
Qed.

(** X2. Every receive-pack request that is answered has stored a blob
    under the pack key of its identifier: the bytes of the body from the
    offset of [findPackStart] on.  The blob is never empty, so the guard
    [pack.length > 0] never fails: a push that carries no pack stores
    its whole body, command lines included. *)
Theorem receive_pack_always_stores (env : bucket) (now : Z)
    (hash org repo : ustring) (buf : bytes) (resp : response)
    (env' : bucket) :
  handleReceivePack env now hash org repo buf = (Returned resp, env') ->
  let k := pack_key (join [lit "repos"; org; repo]) hash in
  let blob := skipn (Z.to_nat (findPackStart buf)) buf in
  blob <> [] /\ get env' k = Some (mkObj k blob now).
Proof.
  intros H k blob.
  destruct (handleReceivePack_inv _ _ _ _ _ _ _ _ H) as [cmds E].
  destruct (parse_returned_pack_start _ _ _ E) as [_ Hne].
  destruct (pack_of_body buf Hne) as [Es Hb].
  split; [exact Hb|].
  rewrite (handleReceivePack_returned env now hash org repo buf cmds _ E) in H.
  rewrite Es in H. fold blob in H.
  assert (L : (0 <? length blob) = true).
  { apply Nat.ltb_lt. revert Hb. fold blob.
    destruct blob; [congruence|simpl; lia]. }
  rewrite L in H. inversion H; subst env'. apply get_put_same.
Qed.

Lemma receive_pack_always_stores_witness :
  let k := pack_key (lit "repos/o/r") (lit "cafe") in
  get tag_only_bucket k
  = Some (mkObj k (pktLineS (zeroOid ++ [sp] ++ oid_a ++ [sp]
                             ++ lit "refs/tags/v1") ++ pktFlush) 7).
Proof.
  intros k.
  set (buf := pktLineS (zeroOid ++ [sp] ++ oid_a ++ [sp]
                        ++ lit "refs/tags/v1") ++ pktFlush).
  destruct (handleReceivePack [] 7 (lit "cafe") (lit "o") (lit "r") buf)
    as [res env'] eqn:E.
  assert (R : exists resp, res = Returned resp)
    by (vm_compute in E; inversion E; eauto).
  destruct R as [resp ->].
  pose proof (receive_pack_always_stores [] 7 (lit "cafe") (lit "o")
                (lit "r") buf resp env' E) as [_ G].
  change tag_only_bucket
    with (snd (handleReceivePack [] 7 (lit "cafe") (lit "o") (lit "r") buf)).
  rewrite E. exact G.
Defined.

(** ** Splitting and trimming *)

Lemma split_nonempty sep s : split sep s <> [].
Proof.
  destruct s as [|c r]; simpl; [discriminate|].
  destruct (c =? sep)%N; [discriminate|].
  destruct (split sep r); discriminate.
Qed.

(** The first piece of a split holds the characters before the first
    separator. *)
Lemma split_prefix sep p q :
  forallb (fun c => negb (c =? sep)%N) p = true ->
  exists t rest, split sep (p ++ q) = (p ++ t) :: rest /\
                 split sep q = t :: rest.
Proof.
  induction p as [|c p IH]; intros H.
  - destruct (split sep q) as [|t rest] eqn:E.
    + now apply split_nonempty in E.
    + exists t, rest. simpl. auto.
  - cbn [forallb] in H. apply andb_prop in H. destruct H as [Hc Hp].
    destruct (IH Hp) as (t & rest & E & Eq).
    exists t, rest. split; [|exact Eq].
    cbn [app split]. apply negb_true_iff in Hc. now rewrite Hc, E.
Qed.

Lemma split_app_sep sep s t :
  forallb (fun c => negb (c =? sep)%N) s = true ->
  split sep (s ++ sep :: t) = s :: split sep t.
Proof.
  intros H. destruct (split_prefix sep s (sep :: t) H) as (u & rest & E & Eq).
  rewrite E. cbn [split] in Eq. rewrite N.eqb_refl in Eq.
  inversion Eq; subst. now rewrite app_nil_r.
Qed.

Lemma split_no_sep sep s :
  forallb (fun c => negb (c =? sep)%N) s = true -> split sep s = [s].
Proof.
  intros H. destruct (split_prefix sep s [] H) as (u & rest & E & Eq).
  rewrite app_nil_r in E. rewrite E. cbn [split] in Eq.
  inversion Eq; subst. now rewrite app_nil_r.
Qed.

Lemma trimStart_app x c y :
  is_js_space c = false -> trimStart (x ++ c :: y) = trimStart x ++ c :: y.
Proof.
  intros Hc. induction x as [|a x IH]; simpl; [now rewrite Hc|].
  destruct (is_js_space a); auto.
Qed.

(** White space is only trimmed after the last character that is not
    white space. *)
Lemma trimEnd_app a c b :
  is_js_space c = false -> trimEnd (a ++ c :: b) = a ++ c :: trimEnd b.
Proof.
  intros Hc. unfold trimEnd.
  rewrite rev_app_distr. cbn [rev]. rewrite <- app_assoc. cbn [app].
  rewrite trimStart_app by exact Hc.
  rewrite rev_app_distr. cbn [rev]. rewrite rev_involutive.
  now rewrite <- app_assoc.
Qed.

Lemma trimStart_spaces s : forallb is_js_space s = true -> trimStart s = [].
Proof.
  induction s as [|c s IH]; simpl; [reflexivity|].
  intros H. apply andb_prop in H. destruct H as [Hc Hs]. now rewrite Hc, IH.
Qed.

Lemma trimEnd_spaces s : forallb is_js_space s = true -> trimEnd s = [].
Proof.
  intros H. unfold trimEnd. rewrite trimStart_spaces; [reflexivity|].
  rewrite forallb_forall in *. intros c Hc. apply H. now apply in_rev.
Qed.

(** ** Command lines *)

Lemma token_char_facts c :
  token_char c = true ->
  (c < 128)%N /\ is_js_space c = false /\
  negb (c =? sp)%N = true /\ negb (c =? 0)%N = true.
Proof.
  unfold token_char. intros H.
  apply andb_prop in H. destruct H as [H H0].
  apply andb_prop in H. destruct H as [Ha Hs].
  apply N.ltb_lt in Ha. apply negb_true_iff in Hs.
  repeat split; auto.
  destruct (N.eqb_spec c sp) as [->|]; [discriminate Hs|reflexivity].
Qed.

Lemma token_facts s :
  is_token s = true ->
  ascii_str s /\
  forallb (fun c => negb (c =? sp)%N) s = true /\
  forallb (fun c => negb (c =? 0)%N) s = true /\
  (exists c r, s = c :: r /\ is_js_space c = false) /\
  (exists r c, s = r ++ [c] /\ is_js_space c = false).
Proof.
  unfold is_token. intros H. apply andb_prop in H. destruct H as [Hn Hc].
  rewrite forallb_forall in Hc.
  assert (F : forall c, In c s -> (c < 128)%N /\ is_js_space c = false /\
                                  negb (c =? sp)%N = true /\
                                  negb (c =? 0)%N = true)
    by (intros c Hin; apply token_char_facts; auto).
  split; [apply Forall_forall; intros c Hin; apply F, Hin|].
  split; [apply forallb_forall; intros c Hin; apply F, Hin|].
  split; [apply forallb_forall; intros c Hin; apply F, Hin|].
  destruct s as [|c r]; [discriminate Hn|].
  split.
  - exists c, r. split; [reflexivity|]. apply F. now left.
  - destruct (exists_last (l := c :: r) ltac:(discriminate)) as (r' & c' & E).
    exists r', c'. split; [exact E|]. apply F. rewrite E.
    apply in_or_app. right. now left.
Qed.

Lemma tail_cases tail :
  tail_ok tail = true ->
  ascii_str tail /\
  (forallb is_js_space tail = true \/ exists caps, tail = 0%N :: caps).
Proof.
  unfold tail_ok. intros H. apply andb_prop in H. destruct H as [Ha Hc].
  split.
  - apply Forall_forall. intros c Hin. rewrite forallb_forall in Ha.
    apply N.ltb_lt. auto.
  - apply orb_prop in Hc. destruct Hc as [Hc|Hc]; [now left|right].
    destruct tail as [|c caps]; [discriminate|].
    apply N.eqb_eq in Hc. subst c. eauto.
Qed.

(** A line of three tokens, with or without capabilities, is read as
    the command of these tokens. *)
Lemma parse_command_text c tail :
  is_token (old c) = true -> is_token (new c) = true ->
  is_token (ref c) = true -> tail_ok tail = true ->
  parse_command (command_text c tail) = Some c.
Proof.
  intros Ho Hn Hr Ht. destruct c as [o n r]. cbn [old new ref] in *.
  destruct (token_facts o Ho) as (_ & So & _ & (o0 & o' & Eo & Ho0) & _).
  destruct (token_facts n Hn) as (_ & Sn & _ & _ & _).
  destruct (token_facts r Hr) as (_ & Sr & Zr & _ & (r' & rl & Er & Hrl)).
  destruct (tail_cases tail Ht) as [_ Hc].
  unfold parse_command, command_text. cbn [old new ref].
  assert (T : exists tail', (tail' = [] \/ exists caps, tail' = 0%N :: caps) /\
                trim (o ++ [sp] ++ n ++ [sp] ++ r ++ tail)
                = o ++ [sp] ++ n ++ [sp] ++ r ++ tail').
  { unfold trim.
    assert (S0 : trimStart (o ++ [sp] ++ n ++ [sp] ++ r ++ tail)
                 = o ++ [sp] ++ n ++ [sp] ++ r ++ tail).
    { rewrite Eo. cbn [app trimStart]. now rewrite Ho0. }
    rewrite S0.
    assert (E : o ++ [sp] ++ n ++ [sp] ++ r ++ tail
                = (o ++ [sp] ++ n ++ [sp] ++ r') ++ rl :: tail).
    { rewrite Er. rewrite <- !app_assoc. reflexivity. }
    rewrite E, trimEnd_app by exact Hrl.
    destruct Hc as [Hw|[caps ->]].
    - exists []. split; [now left|].
      rewrite trimEnd_spaces by exact Hw. rewrite Er, <- !app_assoc.
      reflexivity.
    - exists (0%N :: trimEnd caps). split; [right; eauto|].
      pose proof (trimEnd_app [] 0%N caps eq_refl) as T0.
      cbn [app] in T0. rewrite T0.
      rewrite Er, <- !app_assoc. reflexivity. }
  destruct T as (tail' & Ht' & ->).
  cbn [app]. rewrite (split_app_sep sp o) by exact So.
  rewrite (split_app_sep sp n) by exact Sn.
  destruct Ht' as [->|[caps ->]].
  - rewrite app_nil_r, (split_no_sep sp r) by exact Sr.
    now rewrite (split_no_sep 0 r) by exact Zr.
  - assert (Sp : forallb (fun c => negb (c =? sp)%N) (r ++ [0%N]) = true)
      by (rewrite forallb_app, Sr; reflexivity).
    destruct (split_prefix sp (r ++ [0%N]) caps Sp) as (t & rest & E & _).
    rewrite <- app_assoc in E. cbn [app] in E. rewrite E.
    rewrite <- app_assoc. cbn [app].
    now rewrite (split_app_sep 0 r) by exact Zr.
Qed.

(** ** Reading the frames of a push *)

Lemma length_pktLine p :
  (Z.of_nat (length p) <= 65531)%Z -> length (pktLine p) = length p + 4.
Proof.
  intros H. rewrite pktLine_eq by exact H.
  rewrite length_app, length_header by lia. lia.
Qed.

(** The frame that stands after [pre] in a buffer. *)
Lemma frame_at pre p post :
  (Z.of_nat (length p) <= 65531)%Z ->
  let buf := pre ++ pktLine p ++ post in
  let i := Some (Z.of_nat (length pre)) in
  frame_len buf i = Some (Z.of_nat (length p) + 4)%Z /\
  frame_payload buf i (Some (Z.of_nat (length p) + 4)%Z) = p.
Proof.
  intros Hp buf i.
  assert (Hn : (N.of_nat (length p + 4) < 65536)%N) by lia.
  pose proof (pktLine_eq p Hp) as E.
  set (h := header (N.of_nat (length p + 4))) in *.
  assert (Hh : length h = 4) by (apply length_header, Hn).
  split.
  - unfold frame_len, buf, i. cbn [to_int nadd]. rewrite E, <- app_assoc.
    replace 4%Z with (Z.of_nat (length h)) by lia.
    rewrite slice_app_mid. unfold h. rewrite decode_header by exact Hn.
    rewrite parseInt16_digits4 by exact Hn.
    rewrite length_header by exact Hn. f_equal. lia.
  - unfold frame_payload, buf, i. cbn [to_int nadd].
    rewrite E, <- app_assoc, app_assoc.
    replace (Z.of_nat (length pre) + 4)%Z
      with (Z.of_nat (length (pre ++ h))) by (rewrite length_app; lia).
    replace (Z.of_nat (length pre) + (Z.of_nat (length p) + 4))%Z
      with (Z.of_nat (length (pre ++ h)) + Z.of_nat (length p))%Z
      by (rewrite length_app; lia).
    apply slice_app_mid.
Qed.

(** The flush that stands after [pre] in a buffer. *)
Lemma flush_at pre post :
  frame_len (pre ++ pktFlush ++ post) (Some (Z.of_nat (length pre)))
  = Some 0%Z.
Proof.
  unfold frame_len. cbn [to_int nadd].
  change 4%Z with (Z.of_nat (length pktFlush)).
  rewrite slice_app_mid. reflexivity.
Qed.

Lemma wf_line_text l :
  wf_line l ->
  ascii_str (command_text (fst l) (snd l)) /\
  (Z.of_nat (length (encode (command_text (fst l) (snd l)))) <= 65531)%Z /\
  parse_command (command_text (fst l) (snd l)) = Some (fst l).
Proof.
  intros (Ho & Hn & Hr & Ht & Hl).
  assert (A : ascii_str (command_text (fst l) (snd l))).
  { unfold command_text.
    destruct (token_facts _ Ho) as (Ao & _).
    destruct (token_facts _ Hn) as (An & _).
    destruct (token_facts _ Hr) as (Ar & _).
    destruct (tail_cases _ Ht) as (At & _).
    assert (As : ascii_str [sp]) by (repeat constructor).
    unfold ascii_str in *. rewrite !Forall_app. tauto. }
  split; [exact A|]. split.
  - now rewrite length_encode_ascii.
  - now apply parse_command_text.
Qed.

Lemma parse_loop_push_body pack : forall lines fuel pre acc,
  Forall wf_line lines ->
  length lines < fuel ->
  parse_loop fuel (pre ++ push_body lines pack)
    (Some (Z.of_nat (length pre))) acc
  = Returned (acc ++ map fst lines).
Proof.
  induction lines as [|l lines IH]; intros fuel pre acc Hw Hf.
  - destruct fuel as [|f]; [lia|]. cbn [parse_loop].
    unfold push_body. cbn [map List.concat app].
    rewrite flush_at. cbn [is_zero Z.eqb]. now rewrite app_nil_r.
  - destruct fuel as [|f]; [simpl in Hf; lia|].
    inversion Hw as [|? ? Hl Hls]; subst.
    destruct (wf_line_text l Hl) as (A & L & P).
    set (t := command_text (fst l) (snd l)) in *.
    assert (E : pre ++ push_body (l :: lines) pack
                = pre ++ pktLine (encode t) ++ push_body lines pack).
    { unfold push_body. cbn [map List.concat]. fold t. unfold pktLineS.
      now rewrite <- !app_assoc. }
    rewrite E.
    destruct (frame_at pre (encode t) (push_body lines pack) L) as [Fl Fp].
    cbn [parse_loop]. rewrite Fl, Fp.
    assert (Z0 : is_zero (Some (Z.of_nat (length (encode t)) + 4)%Z) = false)
      by (cbn [is_zero]; apply Z.eqb_neq; lia).
    rewrite Z0, decode_encode_ascii, P by exact A.
    cbn [nadd].
    replace (Z.of_nat (length pre) + (Z.of_nat (length (encode t)) + 4))%Z
      with (Z.of_nat (length (pre ++ pktLine (encode t))))
      by (rewrite length_app, length_pktLine by exact L; lia).
    rewrite app_assoc, IH by (auto; simpl in Hf; lia).
    cbn [map]. now rewrite <- app_assoc.
Qed.

Lemma length_push_body lines pack :
  Forall wf_line lines -> length lines <= length (push_body lines pack).
Proof.
  intros H. unfold push_body. rewrite length_app.
  induction H as [|l lines Hl _ IH]; cbn [map List.concat length]; [lia|].
  destruct (wf_line_text l Hl) as (_ & L & _).
  rewrite length_app. unfold pktLineS at 1.
  rewrite length_pktLine by exact L. lia.
Qed.

(** X3. The command section that a client writes is read back: for
    command lines of three tokens (ASCII, no white space, no NUL), each
    followed by nothing, by white space, or by a NUL and capabilities,
    and each fitting in one frame, [parseReceiveCommands] on the frames
    of the lines, a flush and any pack bytes returns exactly the
    commands, in order, with the offset that [findPackStart] gives on
    the whole body. *)
Theorem parse_push_body (lines : list (command * ustring)) (pack : bytes) :
  Forall wf_line lines ->
  parseReceiveCommands (push_body lines pack)
  = Returned (map fst lines, findPackStart (push_body lines pack)).
Proof.
  intros H. unfold parseReceiveCommands.
  pose proof (length_push_body lines pack H) as L.
  pose proof (parse_loop_push_body pack lines
                (S (length (push_body lines pack))) [] [] H ltac:(lia)) as P.
  cbn [app length] in P. change (Z.of_nat 0) with 0%Z in P.
  now rewrite P.
Qed.

Lemma parse_push_body_witness :
  parseReceiveCommands
    (push_body [(mkCmd zeroOid oid_a main_ref, caps_tail);
                (mkCmd oid_b zeroOid (lit "refs/heads/dev"), nl)] pack1)
  = Returned ([mkCmd zeroOid oid_a main_ref;
               mkCmd oid_b zeroOid (lit "refs/heads/dev")], 251%Z).
Proof.
  refine (eq_trans (parse_push_body _ pack1 _) _).
  - repeat constructor; simpl; lia.
  - reflexivity.
Defined.

(** ** [listRefs] *)

Lemma get_of_member env o : In o env -> exists d, get env (key o) = Some d.
Proof.
  unfold get. induction env as [|x env IH]; simpl; [tauto|].
  intros [->|H].
  - rewrite str_eqb_refl. eauto.
  - destruct (str_eqb (key x) (key o)); eauto.
Qed.

Lemma get_some env k d : get env k = Some d -> In d env /\ key d = k.
Proof.
  unfold get. intros H. apply find_some in H. destruct H as [Hin He].
  split; [exact Hin|]. now apply str_eqb_eq.
Qed.

Lemma starts_with_split p s :
  starts_with p s = true -> s = p ++ skipn (length p) s.
Proof.
  revert s. induction p as [|x p IH]; intros s; simpl; [reflexivity|].
  destruct s as [|y s]; [discriminate|].
  rewrite andb_true_iff, N.eqb_eq. intros [-> H]. now rewrite <- IH.
Qed.

Lemma record_set_in refs k v e :
  In e (record_set refs k v) -> e = (k, v) \/ In e refs.
Proof.
  induction refs as [|[k' v'] refs IH]; simpl.
  - intros [<-|[]]. now left.
  - destruct (str_eqb k' k) eqn:E; simpl.
    + apply str_eqb_eq in E. subst k'. intros [<-|H]; auto.
    + intros [<-|H]; auto. destruct (IH H); auto.
Qed.

Lemma record_set_has refs k v : In (k, v) (record_set refs k v).
Proof.
  induction refs as [|[k' v'] refs IH]; simpl; [now left|].
  destruct (str_eqb k' k) eqn:E; simpl.
  - apply str_eqb_eq in E. subst k'. now left.
  - now right.
Qed.

Lemma record_set_keeps refs k v e :
  In e refs -> fst e <> k -> In e (record_set refs k v).
Proof.
  induction refs as [|[k' v'] refs IH]; simpl; [tauto|].
  intros [<-|H] Hk.
  - cbn [fst] in Hk.
    assert (E : str_eqb k' k = false) by now apply str_eqb_neq.
    rewrite E. now left.
  - destruct (str_eqb k' k); simpl; auto.
Qed.

Lemma record_set_nodup refs k v :
  NoDup (map fst refs) -> NoDup (map fst (record_set refs k v)).
Proof.
  induction refs as [|[k' v'] refs IH]; simpl; intros H.
  - repeat constructor. intros [].
  - inversion H as [|? ? Hn Hd]; subst.
    destruct (str_eqb k' k) eqn:E; simpl.
    + now constructor.
    + constructor; [|now apply IH].
      intros Hin. apply in_map_iff in Hin. destruct Hin as ([k2 v2] & E2 & Hin).
      cbn [fst] in E2. subst k2.
      apply record_set_in in Hin. destruct Hin as [Hin|Hin].
      * inversion Hin; subst. rewrite str_eqb_refl in E. discriminate.
      * apply Hn. apply in_map_iff. exists (k', v2). auto.
Qed.

Section ListRefs.

Variables (env : bucket) (org repo : ustring).

Let prefix := refs_prefix org repo.

(** The id that the loop finds for an object is fixed by its key. *)
Lemma listed_same_id e1 e2 :
  listed env org repo e1 -> listed env org repo e2 ->
  fst e1 = fst e2 -> snd e1 = snd e2.
Proof.
  intros (n1 & d1 & F1 & G1 & S1 & _) (n2 & d2 & F2 & G2 & S2 & _) E.
  rewrite F1, F2 in E. apply app_inv_head in E. subst n2.
  rewrite G1 in G2. inversion G2; subst. congruence.
Qed.

Lemma listRefs_loop_spec : forall objects refs,
  (forall o, In o objects -> In o env /\ starts_with prefix (key o) = true) ->
  (forall e, In e refs -> listed env org repo e) ->
  NoDup (map fst refs) ->
  exists refs',
    listRefs_loop env prefix objects refs = Returned refs' /\
    NoDup (map fst refs') /\
    (forall e, In e refs' -> listed env org repo e) /\
    (forall e, In e refs -> In e refs') /\
    (forall o data,
        In o objects -> get env (key o) = Some data ->
        trim (text data) <> [] ->
        In (lit "refs/heads/" ++ skipn (length prefix) (key o),
            trim (text data)) refs').
Proof.
  induction objects as [|obj rest IH]; intros refs Ho Hr Hd.
  - exists refs. cbn [listRefs_loop]. repeat split; auto.
    intros o data [].
  - cbn [listRefs_loop].
    destruct (Ho obj (or_introl eq_refl)) as [Hin Hp].
    destruct (get_of_member env obj Hin) as [data G]. rewrite G.
    set (name := skipn (length prefix) (key obj)).
    set (sha := trim (text data)).
    assert (K : key obj = prefix ++ name) by now apply starts_with_split.
    assert (Hrest : forall o, In o rest ->
                              In o env /\ starts_with prefix (key o) = true)
      by (intros o Hi; apply Ho; now right).
    destruct (str_eqb sha []) eqn:Es; cbn [negb].
    + apply str_eqb_eq in Es.
      destruct (IH refs Hrest Hr Hd) as (refs' & E & N & L & Keep & New).
      exists refs'. repeat split; auto.
      intros o d [<-|Hi] Go Hne; [|now apply New].
      rewrite G in Go. inversion Go; subst d. fold sha in Hne. congruence.
    + apply str_eqb_neq in Es.
      assert (Le : listed env org repo (lit "refs/heads/" ++ name, sha)).
      { exists name, data. cbn [fst snd]. fold prefix. rewrite <- K. auto. }
      destruct (IH (record_set refs (lit "refs/heads/" ++ name) sha) Hrest)
        as (refs' & E & N & L & Keep & New).
      { intros e He. apply record_set_in in He.
        destruct He as [->|He]; auto. }
      { now apply record_set_nodup. }
      exists refs'. repeat split; auto.
      * intros e He. apply Keep.
        destruct (list_eq_dec N.eq_dec (fst e) (lit "refs/heads/" ++ name))
          as [Ek|Ek].
        -- assert (Ev : snd e = sha)
             by (apply (listed_same_id e (lit "refs/heads/" ++ name, sha));
                 auto).
           destruct e as [k v]. cbn [fst snd] in *. subst.
           apply record_set_has.
        -- now apply record_set_keeps.
      * intros o d [<-|Hi] Go Hne; [|now apply New].
        rewrite G in Go. inversion Go; subst d.
        apply Keep, record_set_has.
Qed.

(** A record with an id is listed. *)
Lemma listRefs_complete name data :
  get env (prefix ++ name) = Some data ->
  trim (text data) <> [] ->
  exists refs,
    listRefs env org repo = Returned refs /\
    In (lit "refs/heads/" ++ name, trim (text data)) refs.
Proof.
  intros G Hne. unfold listRefs. fold (refs_prefix org repo). fold prefix.
  destruct (listRefs_loop_spec (r2_list env prefix) [])
    as (refs & E & _ & _ & _ & New).
  - intros o Ho. unfold r2_list in Ho. apply filter_In in Ho. exact Ho.
  - intros e [].
  - constructor.
  - exists refs. split; [exact E|].
    destruct (get_some _ _ _ G) as [Hin Hk].
    assert (Hl : In data (r2_list env prefix)).
    { unfold r2_list. apply filter_In. split; [exact Hin|].
      rewrite Hk. apply starts_with_app. }
    assert (G' : get env (key data) = Some data) by now rewrite Hk.
    pose proof (New data data Hl G' Hne) as R.
    now rewrite Hk, skipn_app_exact in R.
Qed.

(** X4. [listRefs] never throws.  It returns one entry per branch name,
    and the entries are exactly the pairs of [refs/heads/<name>] and the
    trimmed text of the record of that name under the repository's
    [refs/heads/] prefix, for the records whose trimmed text is not
    empty: a record that is empty or white space only is left out. *)
Theorem listRefs_lists_branches :
  exists refs,
    listRefs env org repo = Returned refs /\
    NoDup (map fst refs) /\
    forall e, In e refs <-> listed env org repo e.
Proof.
  unfold listRefs. fold (refs_prefix org repo). fold prefix.
  destruct (listRefs_loop_spec (r2_list env prefix) [])
    as (refs & E & N & L & _ & New).
  - intros o Ho. unfold r2_list in Ho. apply filter_In in Ho. exact Ho.
  - intros e [].
  - constructor.
  - exists refs. split; [exact E|]. split; [exact N|].
    intros e. split; [apply L|].
    intros (name & data & F & G & S & Hne).
    destruct (get_some _ _ _ G) as [Hin Hk].
    assert (Hl : In data (r2_list env prefix)).
    { unfold r2_list. apply filter_In. split; [exact Hin|].
      rewrite Hk. apply starts_with_app. }
    assert (G' : get env (key data) = Some data) by now rewrite Hk.
    rewrite S in Hne.
    pose proof (New data data Hl G' Hne) as R.
    rewrite Hk, skipn_app_exact in R.
    destruct e as [k v]. cbn [fst snd] in *. now subst.
Qed.

End ListRefs.

Example listRefs_of_one_branch :
  listRefs (main_at oid_a) (lit "o") (lit "r")
  = Returned [(main_ref, oid_a)].
Proof. reflexivity. Qed.

(** ** [handleInfoRefs] *)

Lemma advertise_loop_rest caps : forall refs out,
  advertise_loop refs caps false out
  = out ++ map (fun e => pktLineS (snd e ++ [sp] ++ fst e ++ nl)) refs.
Proof.
  induction refs as [|[r s] refs IH]; intros out; cbn [advertise_loop map].
  - now rewrite app_nil_r.
  - rewrite IH, <- app_assoc. reflexivity.
Qed.

Lemma advertise_loop_lines caps refs out :
  (forall e, In e refs -> snd e <> []) ->
  advertise_loop refs caps true out = out ++ advert_lines caps refs.
Proof.
  intros H. destruct refs as [|[r s] refs]; cbn [advertise_loop advert_lines].
  - now rewrite app_nil_r.
  - assert (Hs : str_eqb s [] = false).
    { apply str_eqb_neq. apply (H (r, s)). now left. }
    rewrite Hs, advertise_loop_rest, <- app_assoc. reflexivity.
Qed.

(** What [listRefs] returns, and that each id in it is not empty. *)
Lemma listRefs_returns env org repo :
  exists refs,
    listRefs env org repo = Returned refs /\
    (forall e, In e refs -> listed env org repo e).
Proof.
  unfold listRefs. fold (refs_prefix org repo).
  destruct (listRefs_loop_spec env org repo
              (r2_list env (refs_prefix org repo)) [])
    as (refs & E & _ & L & _).
  - intros o Ho. unfold r2_list in Ho. apply filter_In in Ho. exact Ho.
  - intros e [].
  - constructor.
  - exists refs. auto.
Qed.

(** The Content-Type of an advertisement is a valid header value when
    the service holds no NUL, LF or CR. *)
Lemma header_value_ok_content_type service :
  header_value_ok (content_type service) = header_value_ok service.
Proof.
  unfold header_value_ok, content_type. rewrite !forallb_app.
  change (forallb _ (lit "application/x-")) with true.
  change (forallb _ (lit "-advertisement")) with true.
  now rewrite andb_true_r.
Qed.

(** The advertisement, when the repository is neither created nor
    refused. *)
Lemma handleInfoRefs_plain env now org repo service :
  negb (repoExists env org repo)
  && str_eqb service (lit "git-receive-pack") = false ->
  negb (repoExists env org repo)
  && str_eqb service (lit "git-upload-pack") = false ->
  exists refs,
    listRefs env org repo = Returned refs /\
    handleInfoRefs env now org repo service
    = (if header_value_ok service then
         Returned
           (mkResp 200
              (Some (lit "application/x-" ++ service ++ lit "-advertisement"))
              (pktLineS (lit "# service=" ++ service ++ nl)
               ++ pktFlush
               ++ List.concat (advert_lines (caps_of service) refs)
               ++ pktFlush))
       else Thrown,
       env).
Proof.
  intros G1 G2. destruct (listRefs_returns env org repo) as (refs & E & L).
  exists refs. split; [exact E|].
  unfold handleInfoRefs. rewrite G1, G2, E.
  fold (content_type service). rewrite header_value_ok_content_type.
  destruct (header_value_ok service); [|reflexivity].
  rewrite advertise_loop_lines
    by (intros e He; destruct (L e He) as (_ & _ & _ & _ & _ & Hne);
        exact Hne).
  fold (caps_of service).
  rewrite concat_flat, !concat_app. cbn [app List.concat].
  now rewrite !app_nil_r, <- !app_assoc.
Qed.

(** X5. [handleInfoRefs] leaves the bucket as it is whenever the
    repository exists, and also when it does not exist and the service
    is neither [git-receive-pack] nor [git-upload-pack]: the service is
    not compared with the two names.  A name that holds no NUL, LF or CR
    is answered 200: it is echoed in the service line and in the
    Content-Type, and any name other than [git-receive-pack] gets the
    capabilities of upload-pack; the body is the service line, a flush,
    one line per listed ref, the first with the capabilities after a
    NUL, and a flush, and the fallback to the zero id on the first line
    is never taken.  For a name that holds NUL, LF or CR the
    Content-Type is not a valid header value: [new Response] throws and
    there is no response. *)
Theorem info_refs_advertisement (env : bucket) (now : Z)
    (org repo service : ustring) :
  repoExists env org repo = true \/
  (service <> lit "git-receive-pack" /\ service <> lit "git-upload-pack") ->
  exists refs,
    listRefs env org repo = Returned refs /\
    handleInfoRefs env now org repo service
    = (if header_value_ok service then
         Returned
           (mkResp 200
              (Some (lit "application/x-" ++ service ++ lit "-advertisement"))
              (pktLineS (lit "# service=" ++ service ++ nl)
               ++ pktFlush
               ++ List.concat (advert_lines (caps_of service) refs)
               ++ pktFlush))
       else Thrown,
       env).
Proof.
  intros H. apply handleInfoRefs_plain.
  - destruct H as [->|[H1 _]]; [reflexivity|].
    apply str_eqb_neq in H1. rewrite H1. apply andb_false_r.
  - destruct H as [->|[_ H2]]; [reflexivity|].
    apply str_eqb_neq in H2. rewrite H2. apply andb_false_r.
Qed.

(** A service that is no service of the protocol, and one that holds a
    line feed. *)
Lemma info_refs_advertisement_witness :
  handleInfoRefs [] 7 (lit "o") (lit "r") (lit "git-frobnicate")
  = (Returned
       (mkResp 200
          (Some (lit "application/x-git-frobnicate-advertisement"))
          (pktLineS (lit "# service=git-frobnicate" ++ nl)
           ++ pktFlush ++ pktFlush)),
     []) /\
  handleInfoRefs [] 7 (lit "o") (lit "r") (lit "x" ++ nl ++ lit "y")
  = (Thrown, []).
Proof.
  split.
  - destruct (info_refs_advertisement [] 7 (lit "o") (lit "r")
                (lit "git-frobnicate")) as (refs & E & H).
    + right. split; discriminate.
    + assert (R : refs = []) by (vm_compute in E; now inversion E).
      subst refs. rewrite H. reflexivity.
  - destruct (info_refs_advertisement [] 7 (lit "o") (lit "r")
                (lit "x" ++ nl ++ lit "y")) as (refs & E & H).
    + right. split; discriminate.
    + rewrite H. reflexivity.
Defined.

(** ** [parseRepoPath] *)

Lemma split_pieces sep s :
  Forall (fun x => forallb (fun c => negb (c =? sep)%N) x = true)
    (split sep s).
Proof.
  induction s as [|c s IH]; cbn [split]; [repeat constructor|].
  destruct (N.eqb_spec c sep) as [->|Hne].
  - constructor; [reflexivity|exact IH].
  - apply N.eqb_neq in Hne.
    destruct (split sep s) as [|h t].
    + constructor; [|constructor]. cbn [forallb]. now rewrite Hne.
    + inversion IH as [|? ? Hh Ht]; subst. constructor; [|assumption].
      cbn [forallb]. now rewrite Hne, Hh.
Qed.

Lemma split_snoc_sep sep s :
  split sep (s ++ [sep]) = split sep s ++ [[]].
Proof.
  induction s as [|c s IH]; cbn [app split].
  - now rewrite N.eqb_refl.
  - rewrite IH. destruct (c =? sep)%N; [reflexivity|].
    destruct (split sep s) as [|h t] eqn:E; [|reflexivity].
    now apply split_nonempty in E.
Qed.

Lemma segment_facts s :
  segment s = true ->
  not_empty s = true /\ forallb (fun c => negb (c =? 47)%N) s = true.
Proof. unfold segment, not_empty. intros H. now apply andb_prop in H. Qed.

(** The pieces of a path made of segments joined by slashes. *)
Lemma split_join_segments : forall segs,
  segs <> [] -> forallb segment segs = true ->
  split 47%N (join segs) = segs.
Proof.
  induction segs as [|x segs IH]; intros Hne H; [congruence|].
  cbn [forallb] in H. apply andb_prop in H. destruct H as [Hx Hs].
  destruct (segment_facts x Hx) as [_ Sx].
  destruct segs as [|y segs].
  - cbn [join]. now apply split_no_sep.
  - change (join (x :: y :: segs)) with (x ++ 47%N :: join (y :: segs)).
    rewrite split_app_sep by exact Sx. f_equal. apply IH; [discriminate|auto].
Qed.

Lemma filter_segments segs :
  forallb segment segs = true -> filter not_empty segs = segs.
Proof.
  induction segs as [|x segs IH]; cbn [forallb filter]; [reflexivity|].
  intros H. apply andb_prop in H. destruct H as [Hx Hs].
  destruct (segment_facts x Hx) as [-> _]. now rewrite IH.
Qed.

(** X6. [parseRepoPath] gives an organisation and a repository name
    that are not empty and hold no slash; a path made of a slash and two
    or more such segments joined by slashes is parsed into its first two
    segments and the rest joined again; and a slash more at the start or
    at the end of a path changes nothing. *)
Theorem parseRepoPath_segments :
  (forall path p,
      parseRepoPath path = Some p ->
      segment (p_org p) = true /\ segment (p_repo p) = true) /\
  (forall org repo rest,
      segment org = true -> segment repo = true ->
      forallb segment rest = true ->
      parseRepoPath (lit "/" ++ join (org :: repo :: rest))
      = Some (mkPath org repo (join rest))) /\
  (forall path,
      parseRepoPath (lit "/" ++ path) = parseRepoPath path /\
      parseRepoPath (path ++ lit "/") = parseRepoPath path).
Proof.
  split; [|split].
  - intros path p H. unfold parseRepoPath in H. fold not_empty in H.
    assert (F : Forall (fun x => segment x = true)
                  (filter not_empty (split 47%N path))).
    { apply Forall_forall. intros x Hx. apply filter_In in Hx.
      destruct Hx as [Hin Hn]. unfold segment. fold (not_empty x).
      rewrite Hn. cbn [andb].
      pose proof (split_pieces 47%N path) as P.
      rewrite Forall_forall in P. auto. }
    destruct (filter not_empty (split 47%N path)) as [|o [|r rest]];
      try discriminate.
    inversion H; subst p. cbn [p_org p_repo].
    inversion F as [|? ? Fo F']; subst. inversion F'; subst. auto.
  - intros org repo rest Ho Hr Hs. unfold parseRepoPath. fold not_empty.
    change (lit "/" ++ join (org :: repo :: rest))
      with (47%N :: join (org :: repo :: rest)).
    cbn [split]. rewrite N.eqb_refl.
    assert (A : forallb segment (org :: repo :: rest) = true)
      by (cbn [forallb]; now rewrite Ho, Hr, Hs).
    rewrite split_join_segments by (auto; discriminate).
    change (filter not_empty ([] :: org :: repo :: rest))
      with (filter not_empty (org :: repo :: rest)).
    now rewrite filter_segments by exact A.
  - intros path. unfold parseRepoPath. fold not_empty. split.
    + change (lit "/" ++ path) with (47%N :: path).
      cbn [split]. rewrite N.eqb_refl. reflexivity.
    + change (lit "/") with [47%N].
      rewrite split_snoc_sep, filter_app. cbn [filter].
      change (not_empty []) with false. cbv iota. now rewrite app_nil_r.
Qed.

Lemma parseRepoPath_segments_witness :
  segment (lit "acme") = true /\
  parseRepoPath (lit "/acme/tools.git/info/refs")
  = Some (mkPath (lit "acme") (lit "tools.git") (lit "info/refs")).
Proof.
  split.
  - exact (proj1 (proj1 parseRepoPath_segments
                    (lit "//acme/tools.git") _ eq_refl)).
  - exact (proj1 (proj2 parseRepoPath_segments) (lit "acme")
             (lit "tools.git") [lit "info"; lit "refs"]
             eq_refl eq_refl eq_refl).
Defined.

(** ** What a request may write *)

Lemma under_base base x :
  starts_with (base ++ lit "/") (join [base; x]) = true.
Proof. cbn [join]. rewrite app_assoc. apply starts_with_app. Qed.

Lemma get_put_outside env p k v now k' :
  starts_with p k = true -> starts_with p k' = false ->
  get (put env k v now) k' = get env k'.
Proof.
  intros Hk Hk'. apply get_put_other. intros ->. congruence.
Qed.

Lemma receive_command_get_outside now base st c k :
  starts_with (base ++ lit "/") k = false ->
  get (fst (receive_command now base st c)) k = get (fst st) k.
Proof.
  intros Hk. destruct st as [env results]. unfold receive_command.
  destruct (negb _ && negb _); cbn [fst]; [reflexivity|].
  unfold put_text.
  apply (get_put_outside env (base ++ lit "/")); [apply under_base|exact Hk].
Qed.

Lemma run_commands_get_outside now base k cmds : forall st,
  starts_with (base ++ lit "/") k = false ->
  get (fst (run_commands now base cmds st)) k = get (fst st) k.
Proof.
  induction cmds as [|c cmds IH]; intros st Hk; [reflexivity|].
  unfold run_commands in *. cbn [fold_left]. rewrite IH by exact Hk.
  now apply receive_command_get_outside.
Qed.

Lemma handleReceivePack_get_outside env now hash org repo buf k :
  starts_with (repo_base org repo ++ lit "/") k = false ->
  get (snd (handleReceivePack env now hash org repo buf)) k = get env k.
Proof.
  intros Hk. destruct (parseReceiveCommands buf) as [[cmds ps]| |] eqn:E.
  - rewrite (handleReceivePack_returned env now hash org repo buf cmds ps E).
    cbn [snd]. fold (repo_base org repo).
    pose proof (run_commands_get_outside now (repo_base org repo) k cmds
                  (env, [pktLineS unpack_ok]) Hk) as R.
    cbn [fst] in R. destruct (0 <? length _); [|exact R].
    rewrite <- R. unfold pack_key.
    apply (get_put_outside _ (repo_base org repo ++ lit "/"));
      [apply under_base|exact Hk].
  - unfold handleReceivePack. now rewrite E.
  - unfold handleReceivePack. now rewrite E.
Qed.

Lemma initRepo_get_outside env now org repo k :
  starts_with (repo_base org repo ++ lit "/") k = false ->
  get (initRepo env now org repo) k = get env k.
Proof.
  intros Hk. unfold initRepo, put_text. fold (repo_base org repo).
  rewrite (get_put_outside _ (repo_base org repo ++ lit "/"))
    by (auto using under_base).
  apply (get_put_outside _ (repo_base org repo ++ lit "/"));
    [apply under_base|exact Hk].
Qed.

Lemma handleInfoRefs_get_outside env now org repo service k :
  starts_with (repo_base org repo ++ lit "/") k = false ->
  get (snd (handleInfoRefs env now org repo service)) k = get env k.
Proof.
  intros Hk. unfold handleInfoRefs.
  set (env1 := if negb (repoExists env org repo)
                  && str_eqb service (lit "git-receive-pack")
               then initRepo env now org repo else env).
  assert (G : get env1 k = get env k).
  { unfold env1. destruct (negb _ && _); [|reflexivity].
    now apply initRepo_get_outside. }
  destruct (negb (repoExists env org repo)
            && str_eqb service (lit "git-upload-pack")); [exact G|].
  destruct (listRefs env1 org repo); try exact G.
  destruct (header_value_ok _); exact G.
Qed.

(** Names without a slash that are followed by a slash in a prefix and
    in a key are the same name. *)
Lemma same_segment a : forall b x y,
  forallb (fun c => negb (c =? 47)%N) a = true ->
  forallb (fun c => negb (c =? 47)%N) b = true ->
  starts_with (a ++ 47%N :: x) (b ++ 47%N :: y) = true ->
  a = b /\ starts_with x y = true.
Proof.
  induction a as [|c a IH]; intros [|d b] x y Ha Hb H; cbn [app] in *.
  - cbn [starts_with] in H. apply andb_prop in H. tauto.
  - cbn [starts_with forallb] in *. apply andb_prop in H. destruct H as [E _].
    apply N.eqb_eq in E. subst d. rewrite N.eqb_refl in Hb. discriminate.
  - cbn [starts_with forallb] in *. apply andb_prop in H. destruct H as [E _].
    apply N.eqb_eq in E. subst c. rewrite N.eqb_refl in Ha. discriminate.
  - cbn [starts_with forallb] in *.
    apply andb_prop in H. destruct H as [E H].
    apply andb_prop in Ha. destruct Ha as [_ Ha].
    apply andb_prop in Hb. destruct Hb as [_ Hb].
    apply N.eqb_eq in E. subst d.
    destruct (IH b x y Ha Hb H) as [-> S]. auto.
Qed.

Lemma other_repository org repo org2 repo2 r :
  segment org = true -> segment repo = true ->
  segment org2 = true -> segment repo2 = true ->
  (org2, repo2) <> (org, repo) ->
  starts_with (repo_base org repo ++ lit "/") (join [repo_base org2 repo2; r])
  = false.
Proof.
  intros Ho Hr Ho2 Hr2 Hne.
  destruct (starts_with _ _) eqn:S; [|reflexivity].
  exfalso. apply Hne.
  destruct (segment_facts _ Ho) as [_ So].
  destruct (segment_facts _ Hr) as [_ Sr].
  destruct (segment_facts _ Ho2) as [_ So2].
  destruct (segment_facts _ Hr2) as [_ Sr2].
  unfold repo_base in S. cbn [join] in S.
  rewrite <- !app_assoc in S.
  rewrite starts_with_app_inv in S.
  change (lit "/" ++ org ++ lit "/" ++ repo ++ lit "/")
    with ([] ++ 47%N :: (org ++ 47%N :: repo ++ [47%N])) in S.
  change (lit "/" ++ org2 ++ lit "/" ++ repo2 ++ lit "/" ++ r)
    with ([] ++ 47%N :: (org2 ++ 47%N :: repo2 ++ 47%N :: r)) in S.
  apply same_segment in S; [|reflexivity|reflexivity].
  destruct S as [_ S].
  apply same_segment in S; [|assumption|assumption].
  destruct S as [-> S].
  apply same_segment in S; [|assumption|assumption].
  destruct S as [-> _]. reflexivity.
Qed.

(** X7. A request is confined to the repository of its path.  When the
    path has no two segments [fetch] writes nothing; otherwise no key
    outside [repos/<org>/<repo>/] changes, whatever the request (ref
    names and the pack identifier are not inspected, but every key that
    is written has this prefix), and in particular no record of another
    repository can change, as organisation and repository names hold no
    slash. *)
Theorem fetch_keeps_to_repository (env : bucket) (now : Z) (hash : ustring)
    (rq : request) :
  match parseRepoPath (pathname rq) with
  | None => snd (fetch env now hash rq) = env
  | Some p =>
      (forall k,
          starts_with (repo_base (p_org p) (p_repo p) ++ lit "/") k = false ->
          get (snd (fetch env now hash rq)) k = get env k) /\
      (forall org repo r,
          segment org = true -> segment repo = true ->
          (org, repo) <> (p_org p, p_repo p) ->
          get (snd (fetch env now hash rq)) (join [repo_base org repo; r])
          = get env (join [repo_base org repo; r]))
  end.
Proof.
  destruct (parseRepoPath (pathname rq)) as [p|] eqn:P.
  - assert (K : forall k,
               starts_with (repo_base (p_org p) (p_repo p) ++ lit "/") k
               = false ->
               get (snd (fetch env now hash rq)) k = get env k).
    { intros k Hk. unfold fetch. rewrite P. destruct p as [org repo sub].
      cbn [p_org p_repo] in Hk.
      destruct (str_eqb sub (lit "info/refs")).
      - destruct (service_param rq) as [service|]; [|reflexivity].
        destruct (str_eqb service []); [reflexivity|].
        now apply handleInfoRefs_get_outside.
      - destruct (str_eqb sub (lit "git-upload-pack") && _); [reflexivity|].
        destruct (str_eqb sub (lit "git-receive-pack") && _); [|reflexivity].
        now apply handleReceivePack_get_outside. }
    split; [exact K|].
    intros org repo r Ho Hr Hne. apply K.
    assert (S : segment (p_org p) = true /\ segment (p_repo p) = true).
    { unfold parseRepoPath in P. fold not_empty in P.
      assert (F : Forall (fun x => segment x = true)
                    (filter not_empty (split 47%N (pathname rq)))).
      { apply Forall_forall. intros x Hx. apply filter_In in Hx.
        destruct Hx as [Hin Hn]. unfold segment. fold (not_empty x).
        rewrite Hn. cbn [andb].
        pose proof (split_pieces 47%N (pathname rq)) as Q.
        rewrite Forall_forall in Q. auto. }
      destruct (filter not_empty (split 47%N (pathname rq)))
        as [|o [|r' rest]]; try discriminate.
      inversion P; subst p. cbn [p_org p_repo].
      inversion F as [|? ? Fo F']; subst. inversion F'; subst. auto. }
    destruct S as [So Sr]. now apply other_repository.
  - unfold fetch. now rewrite P.
Qed.

(** ** A repository whose name starts with another's *)

Lemma repoExists_of_member env org repo o :
  In o env -> starts_with (repo_base org repo) (key o) = true ->
  repoExists env org repo = true.
Proof.
  intros Hin Hk. unfold repoExists. fold (repo_base org repo).
  assert (F : In o (r2_list env (repo_base org repo)))
    by (unfold r2_list; apply filter_In; auto).
  destruct (r2_list env (repo_base org repo)); [destruct F|reflexivity].
Qed.

(** X8. The existence of a repository is tested on the key prefix
    [repos/<org>/<repo>], with no slash after the name.  So once a push
    to a repository named [repo ++ suffix] was answered, the repository
    [repo] of the same organisation is taken to exist, for any suffix:
    advertise-refs on [repo] then neither creates it nor answers 404:
    it writes nothing, and answers 200 for every service name that
    holds no NUL, LF or CR ([new Response] throws for the others). *)
Theorem name_prefix_exists (env : bucket) (now : Z)
    (hash org repo suffix : ustring) (buf : bytes) (resp : response)
    (env' : bucket) :
  handleReceivePack env now hash org (repo ++ suffix) buf
  = (Returned resp, env') ->
  repoExists env' org repo = true /\
  forall now' service,
    (header_value_ok service = true ->
     exists r,
       handleInfoRefs env' now' org repo service = (Returned r, env') /\
       status r = 200%Z) /\
    (header_value_ok service = false ->
     handleInfoRefs env' now' org repo service = (Thrown, env')).
Proof.
  intros H.
  assert (E : repoExists env' org repo = true).
  { destruct (handleReceivePack_inv _ _ _ _ _ _ _ _ H) as [cmds P].
    destruct (parse_returned_pack_start _ _ _ P) as [_ Hne].
    destruct (pack_of_body buf Hne) as [Es Hb].
    rewrite (handleReceivePack_returned _ _ _ _ _ _ cmds _ P) in H.
    rewrite Es in H.
    assert (L : (0 <? length (skipn (Z.to_nat (findPackStart buf)) buf))
                = true).
    { apply Nat.ltb_lt.
      destruct (skipn (Z.to_nat (findPackStart buf)) buf);
        [congruence|simpl; lia]. }
    rewrite L in H. apply (f_equal snd) in H. cbn [snd] in H.
    rewrite <- H.
    match goal with
    | |- repoExists (put ?e ?k ?v ?t) _ _ = true =>
        pose proof (get_put_same e k v t) as G
    end.
    apply get_some in G. destruct G as [Hin Hk].
    apply (repoExists_of_member _ _ _ _ Hin).
    cbn [key]. unfold pack_key, repo_base. cbn [join].
    rewrite <- !app_assoc. rewrite !starts_with_app_inv.
    apply starts_with_app. }
  split; [exact E|].
  intros now' service.
  destruct (handleInfoRefs_plain env' now' org repo service)
    as (refs & _ & R); [now rewrite E| now rewrite E|].
  split; intros V; rewrite V in R; [|exact R].
  eexists. split; [exact R|reflexivity].
Qed.

Lemma name_prefix_exists_witness :
  repoExists tag_only_bucket (lit "o") [] = true /\
  repoExists tag_only_bucket (lit "o") (lit "r") = true.
Proof.
  set (buf := pktLineS (zeroOid ++ [sp] ++ oid_a ++ [sp]
                        ++ lit "refs/tags/v1") ++ pktFlush).
  destruct (handleReceivePack [] 7 (lit "cafe") (lit "o") (lit "r") buf)
    as [res env'] eqn:E.
  assert (R : exists resp, res = Returned resp)
    by (vm_compute in E; inversion E; eauto).
  destruct R as [resp ->].
  assert (T : tag_only_bucket = env').
  { change tag_only_bucket
      with (snd (handleReceivePack [] 7 (lit "cafe") (lit "o") (lit "r") buf)).
    now rewrite E. }
  rewrite T. split.
  - exact (proj1 (name_prefix_exists [] 7 (lit "cafe") (lit "o") []
                    (lit "r") buf resp env' E)).
  - exact (proj1 (name_prefix_exists [] 7 (lit "cafe") (lit "o") (lit "r")
                    [] buf resp env'
                    (eq_trans (f_equal (fun x => handleReceivePack [] 7
                                          (lit "cafe") (lit "o") x buf)
                                 (app_nil_r (lit "r"))) E))).
Defined.

(** ** A push, then an advertisement or a clone *)

Lemma text_of_oid_record id now k :
  is_oid id = true ->
  trim (text (mkObj k (encode (id ++ nl)) now)) = id /\ id <> [].
Proof.
  intros H. destruct (oid_facts id H) as (L & A & S).
  unfold text. cbn [body].
  rewrite decode_encode_ascii
    by (apply Forall_app; split; [exact A | repeat constructor]).
  rewrite trim_line by exact S. split; [reflexivity|].
  intros ->. discriminate L.
Qed.

(** X9. After a command on a branch [refs/heads/<name>] is accepted,
    with a syntactically valid new id, [listRefs] lists the branch with
    that id.  This holds for the zero id too: a command that deletes a
    branch stores the zero id, and the branch stays listed, with the
    zero id. *)
Theorem accepted_branch_is_listed (env : bucket) (now : Z)
    (org repo : ustring) (results : list bytes) (c : command)
    (name : ustring) :
  ref c = lit "refs/heads/" ++ name ->
  old c = zeroOid \/ old c = readRef env (repo_base org repo) (ref c) ->
  is_oid (new c) = true ->
  exists refs,
    listRefs (fst (receive_command now (repo_base org repo) (env, results) c))
      org repo
    = Returned refs /\
    In (ref c, new c) refs.
Proof.
  intros Hr Ho Hn.
  rewrite (receive_command_ok now (repo_base org repo) env results c Ho).
  cbn [fst]. unfold put_text.
  set (k := join [repo_base org repo; ref c]).
  set (env' := put env k (encode (new c ++ nl)) now).
  assert (K : k = refs_prefix org repo ++ name).
  { unfold k, refs_prefix, repo_base. rewrite Hr. cbn [join].
    now rewrite <- !app_assoc. }
  assert (G : get env' (refs_prefix org repo ++ name)
              = Some (mkObj k (encode (new c ++ nl)) now))
    by (rewrite <- K; apply get_put_same).
  destruct (text_of_oid_record (new c) now k Hn) as [T Hne].
  destruct (listRefs_complete env' org repo name _ G) as (refs & E & Hin).
  - now rewrite T.
  - exists refs. split; [exact E|]. now rewrite T, <- Hr in Hin.
Qed.

Lemma accepted_branch_is_listed_witness :
  exists refs,
    listRefs (fst (receive_command 7 (lit "repos/o/r") (main_at oid_a, [])
                     (mkCmd oid_a zeroOid main_ref)))
      (lit "o") (lit "r")
    = Returned refs /\
    In (main_ref, zeroOid) refs.
Proof.
  exact (accepted_branch_is_listed (main_at oid_a) 7 (lit "o") (lit "r") []
           (mkCmd oid_a zeroOid main_ref) (lit "main")
           eq_refl (or_intror eq_refl) eq_refl).
Defined.

Lemma receive_command_in now base st c o :
  In o (fst (receive_command now base st c)) ->
  In o (fst st) \/ key o = join [base; ref c].
Proof.
  destruct st as [env results]. unfold receive_command.
  destruct (negb _ && negb _); cbn [fst]; [now left|].
  intros H. apply put_in in H. destruct H as [->|H]; [now right|now left].
Qed.

Lemma run_commands_in now base o cmds : forall st,
  In o (fst (run_commands now base cmds st)) ->
  In o (fst st) \/ exists c, In c cmds /\ key o = join [base; ref c].
Proof.
  induction cmds as [|c cmds IH]; intros st H; [now left|].
  unfold run_commands in *. cbn [fold_left] in H.
  destruct (IH _ H) as [H1|(c' & Hc & Hk)].
  - apply receive_command_in in H1. destruct H1 as [H1|H1]; [now left|].
    right. exists c. split; [now left|exact H1].
  - right. exists c'. split; [now right|exact Hk].
Qed.

(** What upload-pack serves from a bucket that holds a pack. *)
Lemma handleUploadPack_serves env org repo :
  bucket_ok env ->
  r2_list env (pack_prefix org repo) <> [] ->
  exists latest chunks,
    In latest (r2_list env (pack_prefix org repo)) /\
    (forall o, In o (r2_list env (pack_prefix org repo)) ->
               (uploaded o <= uploaded latest)%Z) /\
    List.concat chunks = body latest /\
    Forall (fun c => (0 < Z.of_nat (length c) <= 65500)%Z) chunks /\
    handleUploadPack env org repo
    = Returned (mkResp 200 (Some upload_result_type)
                  (List.concat (map (fun c => pktLine (x01 :: c)) chunks)
                   ++ pktFlush)).
Proof.
  intros Hok Hne. unfold handleUploadPack. fold (pack_prefix org repo).
  set (packs := r2_list env (pack_prefix org repo)) in *.
  assert (L : (length packs =? 0) = false)
    by (destruct packs; [congruence|reflexivity]).
  rewrite L.
  pose proof (sort_by_head packs) as S. fold by_upload_desc.
  destruct (sort_by by_upload_desc packs) as [|latest r]; [congruence|].
  destruct S as [Hin Hmax].
  assert (Henv : In latest env).
  { unfold packs, r2_list in Hin. apply filter_In in Hin. tauto. }
  rewrite (bucket_ok_get env latest Hok Henv). unfold arrayBuffer.
  destruct (upload_loop_spec (body latest) (length (body latest)) 0)
    as (chunks & E & C & F); [lia|lia|].
  exists latest, chunks. repeat split; auto.
  rewrite E, concat_flat, concat_app. cbn [List.concat].
  now rewrite app_nil_r.
Qed.

(** X10. A clone after a push gets the pack of the push.  When the
    bucket holds one object per key, every pack stored for the
    repository is older than the push, and no command of the push names
    a ref under [objects/pack/], then upload-pack on the bucket that the
    answered push leaves serves exactly the bytes that the push stored
    (its body from the offset of [findPackStart] on), cut into pieces of
    at most 65500 bytes. *)
Theorem clone_after_push (env : bucket) (now : Z) (hash org repo : ustring)
    (buf : bytes) (cmds : list command) (ps : Z) :
  bucket_ok env ->
  parseReceiveCommands buf = Returned (cmds, ps) ->
  Forall (fun c => starts_with (lit "objects/pack/") (ref c) = false) cmds ->
  (forall o, In o (r2_list env (pack_prefix org repo)) ->
             (uploaded o < now)%Z) ->
  exists chunks,
    List.concat chunks = skipn (Z.to_nat (findPackStart buf)) buf /\
    Forall (fun c => (0 < Z.of_nat (length c) <= 65500)%Z) chunks /\
    handleUploadPack (snd (handleReceivePack env now hash org repo buf))
      org repo
    = Returned (mkResp 200 (Some upload_result_type)
                  (List.concat (map (fun c => pktLine (x01 :: c)) chunks)
                   ++ pktFlush)).
Proof.
  intros Hok P Hrefs Hold.
  pose proof (handleReceivePack_ok env now hash org repo buf Hok) as Hok'.
  destruct (parse_returned_pack_start _ _ _ P) as [-> Hne].
  destruct (pack_of_body buf Hne) as [Es Hb].
  rewrite (handleReceivePack_returned env now hash org repo buf cmds _ P)
    in *.
  cbn [snd] in *. rewrite Es in *.
  set (blob := skipn (Z.to_nat (findPackStart buf)) buf) in *.
  assert (L : (0 <? length blob) = true).
  { apply Nat.ltb_lt. revert Hb. destruct blob; [congruence|simpl; lia]. }
  rewrite L in *.
  set (base := join [lit "repos"; org; repo]) in *.
  set (env1 := fst (run_commands now base cmds (env, [pktLineS unpack_ok])))
    in *.
  set (k := pack_key base hash) in *.
  set (new_obj := mkObj k blob now).
  set (env' := put env1 k blob now) in *.
  assert (Kp : starts_with (pack_prefix org repo) k = true).
  { unfold k, pack_key, pack_prefix, base. cbn [join].
    rewrite <- !app_assoc. rewrite !starts_with_app_inv.
    change (lit "objects/pack/pack-")
      with (lit "objects/pack/" ++ lit "pack-").
    rewrite <- app_assoc. apply starts_with_app. }
  assert (Hnew : In new_obj (r2_list env' (pack_prefix org repo))).
  { unfold r2_list. apply filter_In. split; [|exact Kp].
    pose proof (get_put_same env1 k blob now) as G.
    apply get_some in G. tauto. }
  destruct (handleUploadPack_serves env' org repo Hok')
    as (latest & chunks & Hin & Hmax & C & F & E).
  { intros E0. rewrite E0 in Hnew. destruct Hnew. }
  exists chunks. split; [|split; [exact F|exact E]].
  rewrite C.
  assert (Hl : latest = new_obj); [|now rewrite Hl].
  pose proof (Hmax new_obj Hnew) as Hge.
  unfold new_obj in Hge. cbn [uploaded] in Hge.
  unfold r2_list in Hin. apply filter_In in Hin. destruct Hin as [Hin Hk].
  apply put_in in Hin. destruct Hin as [Hin|Hin]; [exact Hin|].
  exfalso. apply run_commands_in in Hin. cbn [fst] in Hin.
  destruct Hin as [Hin|(c & Hc & Hkc)].
  - assert (Ho : In latest (r2_list env (pack_prefix org repo)))
      by (unfold r2_list; apply filter_In; auto).
    specialize (Hold latest Ho). lia.
  - rewrite Forall_forall in Hrefs. specialize (Hrefs c Hc).
    rewrite Hkc in Hk. unfold pack_prefix, base in Hk. cbn [join] in Hk.
    rewrite <- !app_assoc in Hk. rewrite !starts_with_app_inv in Hk.
    congruence.
Qed.

Lemma clone_after_push_witness :
  exists chunks,
    List.concat chunks = pack1 /\
    Forall (fun c => (0 < Z.of_nat (length c) <= 65500)%Z) chunks /\
    handleUploadPack
      (snd (handleReceivePack [] 7 (lit "cafe") (lit "o") (lit "r")
              (push_body [(mkCmd zeroOid oid_a main_ref, caps_tail)] pack1)))
      (lit "o") (lit "r")
    = Returned (mkResp 200 (Some upload_result_type)
                  (List.concat (map (fun c => pktLine (x01 :: c)) chunks)
                   ++ pktFlush)).
Proof.
  refine (clone_after_push [] 7 (lit "cafe") (lit "o") (lit "r")
            (push_body [(mkCmd zeroOid oid_a main_ref, caps_tail)] pack1)
            [mkCmd zeroOid oid_a main_ref] 150%Z
            bucket_ok_nil eq_refl _ _).
  - repeat constructor.
  - intros o [].
Defined.

(** ** The size of a frame *)

Lemma length_lead b : length (fst (lead b)) + match needed (snd (lead b)) with
                                                | O => 0 | S _ => 1 end <= 1.
Proof.
  unfold lead.
  destruct (b <? 128)%N; [simpl; lia|].
  destruct ((194 <=? b) && (b <=? 223))%N; [simpl; lia|].
  destruct ((224 <=? b) && (b <=? 239))%N; [simpl; lia|].
  destruct ((240 <=? b) && (b <=? 244))%N; simpl; lia.
Qed.

(** The decoder gives at most one code point per byte, and one more when
    it starts inside a sequence. *)
Lemma length_decode_from : forall l st,
  length (decode_from st l)
  <= length l + match needed st with O => 0 | S _ => 1 end.
Proof.
  induction l as [|b l IH]; intros st.
  - cbn [decode_from length]. destruct (needed st); simpl; lia.
  - cbn [decode_from]. destruct (dstep st (Byte.to_N b)) as [out st'] eqn:E.
    rewrite length_app. specialize (IH st'). cbn [length].
    assert (S : length out + match needed st' with O => 0 | S _ => 1 end
                <= 1 + match needed st with O => 0 | S _ => 1 end).
    { unfold dstep in E. destruct (needed st) as [|k].
      - pose proof (length_lead (Byte.to_N b)) as Ll. rewrite E in Ll.
        cbn [fst snd] in Ll. lia.
      - destruct ((lower st <=? Byte.to_N b) && (Byte.to_N b <=? upper st))%N.
        + destruct k; inversion E; subst; simpl; lia.
        + pose proof (length_lead (Byte.to_N b)) as Ll.
          destruct (lead (Byte.to_N b)) as [o s']. inversion E; subst.
          cbn [fst snd length] in *. lia. }
    lia.
Qed.

Lemma length_decode l : length (decode l) <= length l.
Proof.
  unfold decode. pose proof (length_decode_from l d0) as H.
  cbn [needed d0] in H.
  destruct (decode_from d0 l) as [|c r]; [simpl; lia|].
  destruct (c =? 65279)%N; cbn [length] in *; lia.
Qed.

Lemma hex_val_lt c d : hex_val c = Some d -> (d < 16)%N.
Proof.
  unfold hex_val.
  destruct ((48 <=? c) && (c <=? 57))%N eqn:E1.
  { apply andb_prop in E1. rewrite !N.leb_le in E1. intros [= <-]. lia. }
  destruct ((97 <=? c) && (c <=? 102))%N eqn:E2.
  { apply andb_prop in E2. rewrite !N.leb_le in E2. intros [= <-]. lia. }
  destruct ((65 <=? c) && (c <=? 70))%N eqn:E3; [|discriminate].
  apply andb_prop in E3. rewrite !N.leb_le in E3. intros [= <-]. lia.
Qed.

Lemma hex_prefix_bound : forall s a v,
  hex_prefix s (Some a) = Some v -> (v < (a + 1) * 16 ^ N.of_nat (length s))%N.
Proof.
  induction s as [|c s IH]; intros a v H; cbn [hex_prefix length] in *.
  - inversion H; subst. simpl. lia.
  - rewrite Nat2N.inj_succ, N.pow_succ_r'.
    pose proof (N.pow_nonzero 16 (N.of_nat (length s)) ltac:(lia)) as P.
    destruct (hex_val c) as [d|] eqn:E.
    + apply hex_val_lt in E. apply IH in H. nia.
    + inversion H; subst. nia.
Qed.

Lemma hex_prefix_none_bound s v :
  hex_prefix s None = Some v -> (v < 16 ^ N.of_nat (length s))%N.
Proof.
  destruct s as [|c s]; cbn [hex_prefix length]; [discriminate|].
  rewrite Nat2N.inj_succ, N.pow_succ_r'.
  destruct (hex_val c) as [d|] eqn:E; [|discriminate].
  intros H. apply hex_val_lt in E. apply hex_prefix_bound in H. nia.
Qed.

Lemma length_trimStart s : length (trimStart s) <= length s.
Proof.
  induction s as [|c s IH]; simpl; [lia|].
  destruct (is_js_space c); simpl; lia.
Qed.

(** [parseInt] of a string of [n] characters is below [16^n] in absolute
    value. *)
Lemma parseInt16_bound s v :
  parseInt16 s = Some v ->
  (- Z.of_N (16 ^ N.of_nat (length s)) < v < Z.of_N (16 ^ N.of_nat (length s)))%Z.
Proof.
  unfold parseInt16. pose proof (length_trimStart s) as L0.
  set (s1 := trimStart s) in *.
  set (q := match s1 with
            | [] => (1%Z, s1)
            | c :: r => if (c =? 45)%N then ((-1)%Z, r)
                        else if (c =? 43)%N then (1%Z, r) else (1%Z, s1)
            end).
  assert (Q : (fst q = 1 \/ fst q = -1)%Z /\ length (snd q) <= length s1).
  { unfold q. destruct s1 as [|c r]; [simpl; auto|].
    destruct (c =? 45)%N; [simpl; split; [auto|lia]|].
    destruct (c =? 43)%N; simpl; split; auto; lia. }
  destruct q as [sign s2]. cbn [fst snd] in Q. destruct Q as [Hs L1].
  set (s3 := match s2 with
             | c :: x :: r =>
                 if ((c =? 48) && ((x =? 120) || (x =? 88)))%N then r else s2
             | _ => s2
             end).
  assert (L2 : length s3 <= length s2).
  { unfold s3. destruct s2 as [|c [|x r]]; try lia.
    destruct ((c =? 48) && ((x =? 120) || (x =? 88)))%N; simpl; lia. }
  destruct (hex_prefix s3 None) as [n|] eqn:E; [|discriminate].
  intros [= <-]. apply hex_prefix_none_bound in E.
  assert (M : (16 ^ N.of_nat (length s3) <= 16 ^ N.of_nat (length s))%N)
    by (apply N.pow_le_mono_r; lia).
  destruct Hs as [-> | ->]; lia.
Qed.

Lemma length_slice_4 {A : Type} (buf : list A) (i : num) :
  length (slice buf (to_int i) (to_int (nadd i (Some 4%Z)))) <= 4.
Proof.
  unfold slice. rewrite length_firstn.
  destruct i as [z|]; cbn [nadd to_int]; unfold rel_index.
  - destruct (Z.ltb_spec z 0), (Z.ltb_spec (z + 4) 0); lia.
  - simpl. lia.
Qed.

Lemma frame_len_bound buf i v :
  frame_len buf i = Some v -> (-65536 < v < 65536)%Z.
Proof.
  unfold frame_len. intros H. apply parseInt16_bound in H.
  pose proof (length_decode (slice buf (to_int i) (to_int (nadd i (Some 4%Z)))))
    as Ld.
  pose proof (length_slice_4 buf i) as Ls.
  assert (M : (16 ^ N.of_nat
                 (length (decode (slice buf (to_int i)
                                    (to_int (nadd i (Some 4%Z))))))
               <= 16 ^ 4)%N) by (apply N.pow_le_mono_r; lia).
  change (16 ^ 4)%N with 65536%N in M. lia.
Qed.

Lemma to_hex_length : forall fuel n acc,
  length (to_hex fuel n acc) <= fuel + length acc.
Proof.
  induction fuel as [|f IH]; intros n acc; cbn [to_hex]; [lia|].
  destruct (n / 16 =? 0)%N; [simpl; lia|].
  specialize (IH (n / 16)%N (hex_digit (n mod 16) :: acc)).
  cbn [length] in IH. lia.
Qed.

Lemma to_hex_ascii : forall fuel n acc,
  ascii_str acc -> ascii_str (to_hex fuel n acc).
Proof.
  induction fuel as [|f IH]; intros n acc H; cbn [to_hex]; [exact H|].
  assert (D : ascii_str (hex_digit (n mod 16) :: acc)).
  { constructor; [|exact H].
    apply (digit_facts (n mod 16)). apply N.mod_upper_bound. lia. }
  destruct (n / 16 =? 0)%N; [exact D|]. now apply IH.
Qed.

(** The header is at least four bytes long and no longer than the frame. *)
Lemma length_header_any n :
  (4 <= n)%N -> 4 <= length (header n) <= N.to_nat n.
Proof.
  intros Hn. unfold header.
  assert (A : ascii_str (padStart (toString16 n) 4 48%N)).
  { unfold padStart. apply Forall_app. split.
    - apply Forall_forall. intros c Hc. apply repeat_spec in Hc. subst c. lia.
    - apply to_hex_ascii. constructor. }
  rewrite length_encode_ascii by exact A.
  unfold padStart. rewrite length_app, repeat_length.
  pose proof (to_hex_length (S (N.to_nat (N.log2 n))) n []) as L.
  fold (toString16 n) in L. cbn [length] in L.
  pose proof (N.log2_lt_lin n ltac:(lia)). lia.
Qed.

(** How [pktLine] lays a frame out, whatever the size of the payload. *)
Lemma pktLine_shape p :
  pktLine p = firstn 4 (header (N.of_nat (length p + 4))) ++ p.
Proof.
  unfold pktLine. fold (header (N.of_nat (length p + 4))).
  set (h := header _).
  destruct (length_header_any (N.of_nat (length p + 4)) ltac:(lia))
    as [H4 Hn]. fold h in H4, Hn.
  rewrite u8_set_zeros_0 by lia.
  unfold u8_set. rewrite firstn_app.
  replace (4 - length h) with 0 by lia. cbn [firstn]. rewrite app_nil_r.
  rewrite skipn_all2; [now rewrite app_nil_r|].
  rewrite length_app, length_zeros. lia.
Qed.

(** X11. The parser reads a frame length from four bytes only, so the
    length it reads is always below 65536 in absolute value.  [pktLine]
    does not refuse a larger frame: for a payload of more than 65531
    bytes it returns the first four characters of the longer length
    field followed by the whole payload, a frame whose length the
    parser can never read back. *)
Theorem oversized_frame_is_misread :
  (forall buf i v, frame_len buf i = Some v -> (-65536 < v < 65536)%Z) /\
  (forall p post,
      (65531 < Z.of_nat (length p))%Z ->
      pktLine p = firstn 4 (header (N.of_nat (length p + 4))) ++ p /\
      length (pktLine p) = length p + 4 /\
      skipn 4 (pktLine p) = p /\
      frame_len (pktLine p ++ post) (Some 0%Z)
      <> Some (Z.of_nat (length p) + 4)%Z).
Proof.
  split; [exact frame_len_bound|].
  intros p post Hp. split; [apply pktLine_shape|]. rewrite pktLine_shape.
  set (h := firstn 4 (header (N.of_nat (length p + 4)))).
  assert (Hh : length h = 4).
  { unfold h. rewrite length_firstn.
    destruct (length_header_any (N.of_nat (length p + 4)) ltac:(lia)). lia. }
  split; [rewrite length_app; lia|]. split.
  - rewrite <- Hh. apply skipn_app_exact.
  - intros E. apply frame_len_bound in E. lia.
Qed.

Lemma oversized_frame_is_misread_witness :
  (65531 < Z.of_nat (length (repeat x61 (Z.to_nat 65532))))%Z /\
  frame_len (pktLine (repeat x61 (Z.to_nat 65532)) ++ []) (Some 0%Z)
  <> Some (Z.of_nat (length (repeat x61 (Z.to_nat 65532))) + 4)%Z.
Proof.
  assert (L : (65531 < Z.of_nat (length (repeat x61 (Z.to_nat 65532))))%Z)
    by (rewrite repeat_length; lia).
  split; [exact L|].
  exact (proj2 (proj2 (proj2 (proj2 oversized_frame_is_misread _ [] L)))).
Defined.

(** * The Worker that reads the push from the request stream *)

(** ** Routing *)

Lemma span_spec p : forall s a b,
  StreamWorker.span p s = (a, b) -> s = a ++ b /\ forallb p a = true.
Proof.
  induction s as [|c s IH]; intros a b H; cbn [StreamWorker.span] in H.
  - inversion H; subst. auto.
  - destruct (p c) eqn:Pc.
    + destruct (StreamWorker.span p s) as [a' b'] eqn:E.
      inversion H; subst. destruct (IH a' b eq_refl) as [-> F].
      cbn [app forallb]. now rewrite Pc, F.
    + inversion H; subst. auto.
Qed.

Lemma span_app p : forall a b,
  forallb p a = true ->
  match b with c :: _ => p c = false | [] => True end ->
  StreamWorker.span p (a ++ b) = (a, b).
Proof.
  induction a as [|c a IH]; intros b Ha Hb; cbn [app].
  - destruct b as [|c b]; cbn [StreamWorker.span]; [reflexivity|].
    now rewrite Hb.
  - cbn [forallb] in Ha. apply andb_prop in Ha. destruct Ha as [Hc Ha].
    cbn [StreamWorker.span]. now rewrite Hc, (IH b Ha Hb).
Qed.

Lemma starts_with_skipn p : forall s,
  starts_with p s = true -> s = p ++ skipn (length p) s.
Proof.
  induction p as [|c p IH]; intros s H; [reflexivity|].
  destruct s as [|d s]; cbn [starts_with] in H; [discriminate|].
  apply andb_prop in H. destruct H as [E H]. apply N.eqb_eq in E. subst d.
  cbn [length skipn app]. f_equal. now apply IH.
Qed.

Lemma match_repoRegex_inv path org repo action :
  StreamWorker.match_repoRegex path = Some (org, repo, action) ->
  path = repo_url org repo action /\
  is_name org = true /\ is_name repo = true /\ is_action action = true.
Proof.
  unfold repo_url, is_name, is_action, not_empty.
  unfold StreamWorker.match_repoRegex.
  destruct path as [|c s]; [discriminate|].
  destruct (N.eqb_spec c 47) as [->|]; [|discriminate].
  destruct (StreamWorker.span StreamWorker.name_char s) as [o s1] eqn:E1.
  destruct (span_spec _ _ _ _ E1) as [-> Fo].
  destruct (str_eqb o []) eqn:No; [discriminate|].
  destruct s1 as [|c1 s1]; [discriminate|].
  destruct (N.eqb_spec c1 47) as [->|]; [|discriminate].
  destruct (StreamWorker.span StreamWorker.name_char s1) as [r s2] eqn:E2.
  destruct (span_spec _ _ _ _ E2) as [-> Fr].
  destruct (str_eqb r []) eqn:Nr; [discriminate|].
  destruct (starts_with (lit ".git/") s2) eqn:G; [|discriminate].
  destruct (str_eqb (skipn 5 s2) (lit "info/refs")
            || str_eqb (skipn 5 s2) (lit "git-receive-pack")) eqn:A;
    [|discriminate].
  intros H.
  assert (K : org = o /\ repo = r /\ action = skipn 5 s2)
    by (repeat split; congruence).
  destruct K as (-> & -> & ->). rewrite No, Nr, Fo, Fr, A.
  repeat split. apply starts_with_skipn in G.
  change (length (lit ".git/")) with 5 in G.
  rewrite <- G. reflexivity.
Qed.

Lemma match_repo_url org repo action :
  is_name org = true -> is_name repo = true -> is_action action = true ->
  StreamWorker.match_repoRegex (repo_url org repo action)
  = Some (org, repo, action).
Proof.
  unfold repo_url, is_name, is_action, not_empty. intros Ho Hr Ha.
  apply andb_prop in Ho. destruct Ho as [No Fo].
  apply andb_prop in Hr. destruct Hr as [Nr Fr].
  apply negb_true_iff in No, Nr.
  unfold StreamWorker.match_repoRegex.
  change (lit "/" ++ org ++ lit "/" ++ repo ++ lit ".git/" ++ action)
    with (47%N :: org ++ 47%N :: repo ++ lit ".git/" ++ action).
  cbv beta iota. rewrite N.eqb_refl.
  rewrite (span_app _ org (47%N :: repo ++ lit ".git/" ++ action) Fo eq_refl).
  cbv beta iota. rewrite No, N.eqb_refl.
  rewrite (span_app _ repo (lit ".git/" ++ action) Fr eq_refl).
  rewrite Nr, starts_with_app.
  change (skipn 5 (lit ".git/" ++ action)) with action.
  now rewrite Ha.
Qed.

(** X12. The route of the stream Worker: the regular expression matches
    exactly the paths [/<org>/<repo>.git/<action>] where the two names
    are made of letters, digits, [_] and [-] and the action is
    [info/refs] or [git-receive-pack], and its groups are these three
    parts. *)
Theorem repoRegex_matches (path org repo action : ustring) :
  StreamWorker.match_repoRegex path = Some (org, repo, action) <->
  path = repo_url org repo action /\
  is_name org = true /\ is_name repo = true /\ is_action action = true.
Proof.
  split; [apply match_repoRegex_inv|].
  intros (-> & Ho & Hr & Ha). now apply match_repo_url.
Qed.

(** ** Reading a frame from the stream *)

Lemma slice_0_firstn {A : Type} (buf : list A) n :
  (0 <= n <= Z.of_nat (length buf))%Z ->
  slice buf 0 n = firstn (Z.to_nat n) buf.
Proof.
  intros H. unfold slice. rewrite !rel_index_in by lia.
  now rewrite Z.sub_0_r.
Qed.

(** When the buffer and the stream hold [n] bytes, [read] takes whole
    chunks until the buffer holds them, and returns the first [n]. *)
Lemma read_enough : forall reader buffer n,
  (0 <= n)%Z ->
  (n <= Z.of_nat (length buffer + length (List.concat reader)))%Z ->
  exists used rest,
    reader = used ++ rest /\
    (n <= Z.of_nat (length (buffer ++ List.concat used)))%Z /\
    (n <= Z.of_nat (length buffer) -> used = [])%Z /\
    StreamWorker.read reader buffer (Some n)
    = (Some (firstn (Z.to_nat n) (buffer ++ List.concat used)),
       skipn (Z.to_nat n) (buffer ++ List.concat used), rest).
Proof.
  induction reader as [|value reader IH]; intros buffer n H0 Hn.
  - assert (L : StreamWorker.lt_num (Z.of_nat (length buffer)) (Some n) = false).
    { cbn [StreamWorker.lt_num]. apply Z.ltb_ge.
      cbn [List.concat length] in Hn. lia. }
    exists [], []. cbn [StreamWorker.read List.concat app]. rewrite L.
    rewrite app_nil_r. cbn [to_int].
    cbn [List.concat length] in Hn.
    rewrite slice_0_firstn, slice_from_skipn by lia.
    repeat split; auto; lia.
  - cbn [StreamWorker.read].
    destruct (StreamWorker.lt_num (Z.of_nat (length buffer)) (Some n)) eqn:L;
      cbn [StreamWorker.lt_num] in L.
    + apply Z.ltb_lt in L.
      destruct (IH (buffer ++ value) n H0) as (used & rest & E & Hl & _ & R).
      { cbn [List.concat] in Hn. rewrite !length_app in *. lia. }
      exists (value :: used), rest. cbn [List.concat app].
      rewrite <- app_assoc in Hl, R.
      repeat split; [now rewrite E | exact Hl | lia | exact R].
    + apply Z.ltb_ge in L. exists [], (value :: reader).
      cbn [List.concat app]. rewrite app_nil_r. cbn [to_int].
      rewrite slice_0_firstn, slice_from_skipn by lia.
      repeat split; auto.
Qed.

(** When they hold fewer, the stream is read to its end and [read]
    returns [null]. *)
Lemma read_short : forall reader buffer n,
  (Z.of_nat (length buffer + length (List.concat reader)) < n)%Z ->
  fst (fst (StreamWorker.read reader buffer (Some n))) = None /\
  snd (StreamWorker.read reader buffer (Some n)) = [].
Proof.
  induction reader as [|value reader IH]; intros buffer n Hn;
    cbn [StreamWorker.read List.concat length] in *.
  - assert (L : StreamWorker.lt_num (Z.of_nat (length buffer)) (Some n) = true)
      by (cbn [StreamWorker.lt_num]; apply Z.ltb_lt; lia).
    rewrite L. auto.
  - assert (L : StreamWorker.lt_num (Z.of_nat (length buffer)) (Some n) = true).
    { cbn [StreamWorker.lt_num]. apply Z.ltb_lt. rewrite length_app in Hn. lia. }
    rewrite L. apply IH. rewrite !length_app in *. lia.
Qed.

Lemma prefix_of_app {A : Type} (x y a b : list A) :
  x ++ y = a ++ b -> length a <= length x ->
  x = a ++ firstn (length x - length a) b.
Proof.
  intros E L.
  rewrite <- (firstn_app_exact x y) at 1. rewrite E, firstn_app.
  rewrite firstn_all2 by exact L. reflexivity.
Qed.

(** A frame of the stream, however the stream is cut into chunks. *)
Lemma parsePktLine_frame p reader extra :
  (Z.of_nat (length p) <= 65531)%Z ->
  List.concat reader = pktLine p ++ extra ->
  exists used rest dropped,
    reader = used ++ rest /\
    List.concat used = pktLine p ++ dropped /\
    StreamWorker.parsePktLine reader = (Some (decode p), rest).
Proof.
  intros Hp E. rewrite pktLine_eq in * by exact Hp.
  rewrite <- app_assoc in E.
  assert (Hn : (N.of_nat (length p + 4) < 65536)%N) by lia.
  set (h := header (N.of_nat (length p + 4))) in *.
  assert (Hh : length h = 4) by (apply length_header, Hn).
  assert (Dh : parseInt16 (decode h) = Some (Z.of_nat (length p) + 4)%Z).
  { unfold h. rewrite decode_header, parseInt16_digits4 by exact Hn.
    f_equal. lia. }
  assert (La : length (List.concat reader) = 4 + length p + length extra)
    by (rewrite E, !length_app; lia).
  destruct (read_enough reader [] 4%Z ltac:(lia))
    as (used1 & rest1 & E1 & L1 & _ & R1).
  { cbn [length]. lia. }
  cbn [app] in L1, R1.
  assert (C1 : List.concat used1 ++ List.concat rest1 = h ++ p ++ extra)
    by (rewrite <- concat_app, <- E1; exact E).
  assert (F1 : firstn (Z.to_nat 4) (List.concat used1) = h).
  { pose proof (prefix_of_app _ _ h (p ++ extra) C1 ltac:(lia)) as P.
    change (Z.to_nat 4) with 4. rewrite <- Hh, P. apply firstn_app_exact. }
  assert (S1 : skipn (Z.to_nat 4) (List.concat used1) ++ List.concat rest1
               = p ++ extra).
  { replace (Z.to_nat 4) with (length h) by lia.
    rewrite <- (skipn_app_exact h (p ++ extra)), <- C1.
    rewrite skipn_app.
    replace (length h - length (List.concat used1)) with 0 by lia.
    reflexivity. }
  set (buffer := skipn (Z.to_nat 4) (List.concat used1)) in *.
  destruct (read_enough rest1 buffer (Z.of_nat (length p)) ltac:(lia))
    as (used2 & rest2 & E2 & L2 & _ & R2).
  { rewrite <- length_app, S1, length_app. lia. }
  assert (C2 : (buffer ++ List.concat used2) ++ List.concat rest2
               = p ++ extra)
    by (rewrite <- app_assoc, <- concat_app, <- E2; exact S1).
  assert (F2 : firstn (Z.to_nat (Z.of_nat (length p)))
                 (buffer ++ List.concat used2) = p).
  { pose proof (prefix_of_app _ _ p extra C2 ltac:(lia)) as P.
    rewrite P, Nat2Z.id. apply firstn_app_exact. }
  exists (used1 ++ used2), rest2,
    (firstn (length (List.concat (used1 ++ used2)) - length (h ++ p)) extra).
  split; [now rewrite <- app_assoc, <- E2|]. split.
  - apply (prefix_of_app _ (List.concat rest2)).
    + rewrite <- concat_app, <- app_assoc, <- E2, <- E1, <- app_assoc.
      exact E.
    + rewrite concat_app, !length_app. unfold buffer in L2.
      rewrite length_app, length_skipn in L2. lia.
  - unfold StreamWorker.parsePktLine. rewrite R1, F1, Dh.
    cbn [is_zero nadd].
    assert (Z : (Z.of_nat (length p) + 4 =? 0)%Z = false)
      by (apply Z.eqb_neq; lia).
    rewrite Z.
    replace (Z.of_nat (length p) + 4 + -4)%Z with (Z.of_nat (length p)) by lia.
    fold buffer. rewrite R2, F2. reflexivity.
Qed.

Lemma units_ascii s : ascii_str s -> StreamWorker.units s = length s.
Proof.
  induction 1 as [|c s Hc _ IH]; [reflexivity|].
  cbn [StreamWorker.units fold_right length].
  fold (StreamWorker.units s). rewrite IH.
  assert (E : (c <? 65536)%N = true) by (apply N.ltb_lt; lia).
  now rewrite E.
Qed.

Lemma encode_app a b : encode (a ++ b) = encode a ++ encode b.
Proof. unfold encode. apply flat_map_app. Qed.

(** On the wire, a pkt-line of the stream Worker is the frame that the
    first Worker writes for the same text and a newline. *)
Lemma stream_pktLine_bytes str :
  ascii_str str -> (Z.of_nat (length str) <= 65530)%Z ->
  encode (StreamWorker.pktLine str) = pktLine (encode (str ++ nl)).
Proof.
  intros Ha Hl.
  assert (An : ascii_str (str ++ nl))
    by (apply Forall_app; split; [exact Ha | repeat constructor]).
  assert (Ln : length (encode (str ++ nl)) = length str + 1)
    by (rewrite length_encode_ascii, length_app by exact An; reflexivity).
  rewrite pktLine_eq by lia.
  unfold StreamWorker.pktLine. rewrite units_ascii by exact Ha.
  cbv zeta. rewrite encode_app. unfold header. rewrite Ln.
  now replace (length str + 1 + 4) with (length str + 5) by lia.
Qed.

(** X13. What [pktLine] writes, [parsePktLine] reads back, however the
    bytes are cut into chunks: for an ASCII string of at most 65530
    characters and a stream that starts with the bytes of its pkt-line,
    the parser returns the string and the newline that [pktLine]
    appended, and leaves in the reader the chunks that it did not
    touch.  The bytes that follow the frame in the chunks that it did
    read are neither returned nor kept for the next call. *)
Theorem stream_pkt_line_round_trip (str : ustring) (reader : list bytes)
    (extra : bytes) :
  ascii_str str -> (Z.of_nat (length str) <= 65530)%Z ->
  List.concat reader = encode (StreamWorker.pktLine str) ++ extra ->
  exists used rest dropped,
    reader = used ++ rest /\
    List.concat used = encode (StreamWorker.pktLine str) ++ dropped /\
    StreamWorker.parsePktLine reader = (Some (str ++ nl), rest).
Proof.
  intros Ha Hl E.
  assert (An : ascii_str (str ++ nl))
    by (apply Forall_app; split; [exact Ha | repeat constructor]).
  rewrite stream_pktLine_bytes in * by assumption.
  destruct (parsePktLine_frame (encode (str ++ nl)) reader extra)
    as (used & rest & dropped & E1 & E2 & R); [|exact E|].
  { rewrite length_encode_ascii, length_app by exact An. simpl. lia. }
  exists used, rest, dropped.
  now rewrite decode_encode_ascii in R by exact An.
Qed.

Lemma stream_pkt_line_round_trip_witness :
  exists used rest dropped,
    [[x30; x30]; [x30; x37; x68]; [x69; x0a; x30]; [x30]]
    = used ++ rest /\
    List.concat used = encode (StreamWorker.pktLine (lit "hi")) ++ dropped /\
    StreamWorker.parsePktLine
      [[x30; x30]; [x30; x37; x68]; [x69; x0a; x30]; [x30]]
    = (Some (lit "hi" ++ nl), rest).
Proof.
  apply (stream_pkt_line_round_trip (lit "hi") _ [x30; x30]).
  - repeat constructor.
  - simpl. lia.
  - reflexivity.
Defined.

(** ** The length field counts characters *)

Lemma length_encode_cp c :
  (if (c <? 0x10000)%N then 1 else 2) <= length (encode_cp c) /\
  (length (encode_cp c) = (if (c <? 0x10000)%N then 1 else 2)
   <-> (c < 128)%N).
Proof.
  unfold encode_cp.
  destruct (N.ltb_spec c 0x80) as [H1|H1].
  { assert (E : (c <? 0x10000)%N = true) by (apply N.ltb_lt; lia).
    rewrite E. simpl. split; [lia|tauto]. }
  destruct (N.ltb_spec c 0x800) as [H2|H2].
  { assert (E : (c <? 0x10000)%N = true) by (apply N.ltb_lt; lia).
    rewrite E. simpl. split; [lia|]. split; [discriminate|lia]. }
  destruct (N.ltb_spec c 0x10000) as [H3|H3].
  { destruct (is_surrogate c); simpl; (split; [lia|]);
      (split; [discriminate|lia]). }
  destruct (c <? 0x110000)%N; simpl; (split; [lia|]);
    (split; [discriminate|lia]).
Qed.

(** A string has at least as many bytes as code units, and as many only
    when it is ASCII. *)
Lemma units_le_bytes s :
  StreamWorker.units s <= length (encode s) /\
  (length (encode s) = StreamWorker.units s <-> ascii_str s).
Proof.
  induction s as [|c s [IH1 IH2]].
  - simpl. split; [lia|]. split; [constructor|reflexivity].
  - change (encode (c :: s)) with (encode_cp c ++ encode s).
    rewrite length_app.
    change (StreamWorker.units (c :: s))
      with ((if (c <? 0x10000)%N then 1 else 2) + StreamWorker.units s).
    destruct (length_encode_cp c) as [C1 C2].
    split; [lia|]. split.
    + intros E. constructor; [apply C2; lia | apply IH2; lia].
    + intros A. inversion A as [|? ? Hc Hs]; subst.
      apply C2 in Hc. apply IH2 in Hs. lia.
Qed.

(** X14. The length field that the stream Worker's [pktLine] writes is
    the number of UTF-16 code units of the string plus 5, while the
    frame on the wire has the number of UTF-8 bytes of the string plus
    5: the field is the length of the frame exactly when the string is
    ASCII, and is too small otherwise. *)
Theorem stream_pkt_line_length (str : ustring) :
  (Z.of_nat (StreamWorker.units str) + 5 < 65536)%Z ->
  parseInt16 (firstn 4 (StreamWorker.pktLine str))
  = Some (Z.of_nat (StreamWorker.units str) + 5)%Z /\
  (Z.of_nat (StreamWorker.units str) + 5
   <= Z.of_nat (length (encode (StreamWorker.pktLine str))))%Z /\
  ((Z.of_nat (length (encode (StreamWorker.pktLine str)))
    = Z.of_nat (StreamWorker.units str) + 5)%Z <-> ascii_str str).
Proof.
  intros H.
  assert (Hn : (N.of_nat (StreamWorker.units str + 5) < 65536)%N) by lia.
  unfold StreamWorker.pktLine. cbv zeta. rewrite padded_digits by exact Hn.
  assert (L : length (encode (digits4 (N.of_nat (StreamWorker.units str + 5))
                              ++ str ++ nl))
              = 4 + length (encode str) + 1).
  { rewrite !encode_app, !length_app.
    rewrite (length_encode_ascii (digits4 _)) by (apply digits4_ascii, Hn).
    cbn [digits4 length]. simpl (length (encode nl)). lia. }
  rewrite L. destruct (units_le_bytes str) as [U1 U2]. split; [|split].
  - change (firstn 4 (digits4 (N.of_nat (StreamWorker.units str + 5))
                      ++ str ++ nl))
      with (digits4 (N.of_nat (StreamWorker.units str + 5))).
    rewrite parseInt16_digits4 by exact Hn. f_equal. lia.
  - lia.
  - rewrite <- U2. lia.
Qed.

Lemma stream_pkt_line_length_witness :
  parseInt16 (firstn 4 (StreamWorker.pktLine [233%N])) = Some 6%Z /\
  length (encode (StreamWorker.pktLine [233%N])) = 7.
Proof.
  assert (H : (Z.of_nat (StreamWorker.units [233%N]) + 5 < 65536)%Z)
    by (simpl; lia).
  split.
  - exact (proj1 (stream_pkt_line_length [233%N] H)).
  - reflexivity.
Defined.

(** ** A stream that ends inside a frame *)

(** X15. When the stream ends before the end of a frame, inside its
    header or inside its payload, [parsePktLine] returns [null] as it
    does for a flush or at the end of the stream, and the stream is
    read to its end: the bytes of the unfinished frame are dropped
    without an error. *)
Theorem truncated_stream_frame (p : bytes) (reader : list bytes) (k : nat) :
  (Z.of_nat (length p) <= 65531)%Z ->
  k < length (pktLine p) ->
  List.concat reader = firstn k (pktLine p) ->
  StreamWorker.parsePktLine reader = (None, []).
Proof.
  intros Hp Hk E. rewrite pktLine_eq in * by exact Hp.
  assert (Hn : (N.of_nat (length p + 4) < 65536)%N) by lia.
  set (h := header (N.of_nat (length p + 4))) in *.
  assert (Hh : length h = 4) by (apply length_header, Hn).
  assert (Dh : parseInt16 (decode h) = Some (Z.of_nat (length p) + 4)%Z).
  { unfold h. rewrite decode_header, parseInt16_digits4 by exact Hn.
    f_equal. lia. }
  rewrite length_app in Hk.
  assert (La : length (List.concat reader) = k)
    by (rewrite E, length_firstn, length_app; lia).
  unfold StreamWorker.parsePktLine.
  destruct (Nat.lt_ge_cases k 4) as [K|K].
  - destruct (read_short reader [] 4%Z) as [R1 R2]; [simpl; lia|].
    destruct (StreamWorker.read reader [] (Some 4%Z)) as [[lh buf] rd].
    cbn [fst snd] in R1, R2. now subst.
  - destruct (read_enough reader [] 4%Z ltac:(lia))
      as (used1 & rest1 & E1 & L1 & _ & R1); [simpl; lia|].
    cbn [app] in L1, R1.
    assert (C1 : List.concat used1 ++ List.concat rest1
                 = h ++ firstn (k - 4) p).
    { rewrite <- concat_app, <- E1, E, firstn_app, Hh.
      rewrite firstn_all2 by lia. reflexivity. }
    assert (F1 : firstn (Z.to_nat 4) (List.concat used1) = h).
    { pose proof (prefix_of_app _ _ h _ C1 ltac:(lia)) as P.
      change (Z.to_nat 4) with 4. rewrite <- Hh, P. apply firstn_app_exact. }
    rewrite R1, F1, Dh. cbn [is_zero nadd].
    assert (Z : (Z.of_nat (length p) + 4 =? 0)%Z = false)
      by (apply Z.eqb_neq; lia).
    rewrite Z.
    destruct (read_short rest1 (skipn (Z.to_nat 4) (List.concat used1))
                (Z.of_nat (length p) + 4 + -4)%Z) as [R2 R3].
    { rewrite length_skipn. apply (f_equal (@length byte)) in C1.
      rewrite !length_app, length_firstn in C1. lia. }
    destruct (StreamWorker.read rest1 _ _) as [[d buf] rd].
    cbn [fst snd] in R2, R3. now subst.
Qed.

Lemma truncated_stream_frame_witness :
  StreamWorker.parsePktLine
    [[x30; x30; x30]; [x37; x68]] = (None, []).
Proof.
  apply (truncated_stream_frame [x68; x69; x0a] _ 5).
  - simpl. lia.
  - simpl. lia.
  - reflexivity.
Defined.

(** ** The loop of a push *)

Lemma read_now reader buffer n :
  (0 <= n <= Z.of_nat (length buffer))%Z ->
  StreamWorker.read reader buffer (Some n)
  = (Some (firstn (Z.to_nat n) buffer), skipn (Z.to_nat n) buffer, reader).
Proof.
  intros H.
  assert (L : StreamWorker.lt_num (Z.of_nat (length buffer)) (Some n) = false)
    by (cbn [StreamWorker.lt_num]; apply Z.ltb_ge; lia).
  destruct reader; cbn [StreamWorker.read]; rewrite L; cbn [to_int];
    now rewrite slice_0_firstn, slice_from_skipn by lia.
Qed.

Lemma read_first c reader n :
  (0 < n)%Z ->
  StreamWorker.read (c :: reader) [] (Some n)
  = StreamWorker.read reader c (Some n).
Proof.
  intros H. cbn [StreamWorker.read length app].
  assert (L : StreamWorker.lt_num (Z.of_nat 0) (Some n) = true)
    by (cbn [StreamWorker.lt_num]; apply Z.ltb_lt; lia).
  now rewrite L.
Qed.

(** A chunk that starts with a frame: the frame is read, the rest of
    the chunk is dropped. *)
Lemma parsePktLine_chunk p extra rest :
  (Z.of_nat (length p) <= 65531)%Z ->
  StreamWorker.parsePktLine ((pktLine p ++ extra) :: rest)
  = (Some (decode p), rest).
Proof.
  intros Hp. rewrite pktLine_eq by exact Hp.
  assert (Hn : (N.of_nat (length p + 4) < 65536)%N) by lia.
  set (h := header (N.of_nat (length p + 4))).
  assert (Hh : length h = 4) by (apply length_header, Hn).
  assert (Dh : parseInt16 (decode h) = Some (Z.of_nat (length p) + 4)%Z).
  { unfold h. rewrite decode_header, parseInt16_digits4 by exact Hn.
    f_equal. lia. }
  unfold StreamWorker.parsePktLine.
  rewrite read_first, read_now by (rewrite ?length_app; lia).
  change (Z.to_nat 4) with 4. rewrite <- Hh, <- !app_assoc.
  rewrite firstn_app_exact, skipn_app_exact, Dh.
  cbn [is_zero nadd].
  assert (Z : (Z.of_nat (length p) + 4 =? 0)%Z = false)
    by (apply Z.eqb_neq; lia).
  rewrite Z.
  replace (Z.of_nat (length p) + 4 + -4)%Z with (Z.of_nat (length p)) by lia.
  rewrite read_now by (rewrite length_app; lia).
  now rewrite Nat2Z.id, firstn_app_exact.
Qed.

Lemma parsePktLine_stops tail :
  stops tail -> fst (StreamWorker.parsePktLine tail) = None.
Proof.
  destruct tail as [|c rest]; intros H; [reflexivity|].
  cbn [stops] in H. unfold StreamWorker.parsePktLine.
  assert (L : 4 <= length c).
  { apply (f_equal (@length byte)) in H. rewrite length_firstn in H.
    change (length pktFlush) with 4 in H. lia. }
  rewrite read_first, read_now by lia.
  change (Z.to_nat 4) with 4. rewrite H. reflexivity.
Qed.

Lemma push_loop_chunks now prefix tail :
  stops tail ->
  forall items env fuel line,
    Forall (fun it => (Z.of_nat (length (fst it)) <= 65531)%Z) items ->
    length items < fuel ->
    StreamWorker.push_loop fuel env now prefix (Some line)
      (map chunk_of items ++ tail)
    = Returned
        (fold_left
           (fun e it => StreamWorker.push_line e now prefix (decode (fst it)))
           items (StreamWorker.push_line env now prefix line)).
Proof.
  intros Ht. induction items as [|it items IH]; intros env fuel line Hi Hf;
    (destruct fuel as [|f]; [cbn [length] in Hf; lia|]);
    cbn [StreamWorker.push_loop map app fold_left].
  - pose proof (parsePktLine_stops tail Ht) as P.
    destruct (StreamWorker.parsePktLine tail) as [l r]. cbn [fst] in P.
    subst l. destruct f; reflexivity.
  - inversion Hi as [|? ? Hp Hi']; subst.
    unfold chunk_of at 1. rewrite parsePktLine_chunk by exact Hp.
    apply IH; [exact Hi'|]. cbn [length] in Hf. lia.
Qed.

Lemma push_chunks env now prefix items tail :
  Forall (fun it => (Z.of_nat (length (fst it)) <= 65531)%Z) items ->
  stops tail ->
  StreamWorker.push env now prefix (map chunk_of items ++ tail)
  = Returned
      (fold_left
         (fun e it => StreamWorker.push_line e now prefix (decode (fst it)))
         items env).
Proof.
  intros Hi Ht. unfold StreamWorker.push.
  destruct items as [|it items]; cbn [map app fold_left].
  - pose proof (parsePktLine_stops tail Ht) as P.
    destruct (StreamWorker.parsePktLine tail) as [l r]. cbn [fst] in P.
    subst l. destruct (length tail); reflexivity.
  - inversion Hi as [|? ? Hp Hi']; subst.
    unfold chunk_of at 1. rewrite parsePktLine_chunk by exact Hp.
    cbn [length]. apply push_loop_chunks; [exact Ht | exact Hi' |].
    rewrite length_app, length_map. apply Nat.lt_succ_r, Nat.le_add_r.
Qed.

(** X16. A push applies one line per chunk of the request stream: when
    every chunk starts with a frame, up to the end of the stream or to
    a chunk that starts with a flush, the Worker applies the line of
    the first frame of each chunk, in order, and nothing else.  What
    follows the first frame in a chunk (further commands), and what
    follows the flush (the pack), is never read. *)
Theorem push_reads_one_frame_per_chunk (env : bucket) (now : Z)
    (repoPrefix : ustring) (items : list (bytes * bytes))
    (tail : list bytes) :
  Forall (fun it => (Z.of_nat (length (fst it)) <= 65531)%Z) items ->
  stops tail ->
  StreamWorker.push env now repoPrefix (map chunk_of items ++ tail)
  = Returned
      (fold_left
         (fun e it =>
            StreamWorker.push_line e now repoPrefix (decode (fst it)))
         items env).
Proof. apply push_chunks. Qed.

(** Two commands in one chunk: only the first one is applied. *)
Lemma push_reads_one_frame_per_chunk_witness :
  StreamWorker.push [] 1%Z (lit "o/r")
    (map chunk_of
       [(encode (zeroOid ++ [sp] ++ oid_a ++ [sp] ++ lit "refs/heads/a" ++ nl),
         pktLineS (zeroOid ++ [sp] ++ oid_b ++ [sp] ++ lit "refs/heads/b" ++ nl))]
     ++ [pktFlush ++ pack1])
  = Returned
      [mkObj (lit "o/r/HEAD") (encode (lit "ref: refs/heads/a")) 1%Z;
       mkObj (lit "o/r/refs/heads/a") (encode oid_a) 1%Z].
Proof.
  rewrite (push_reads_one_frame_per_chunk [] 1%Z (lit "o/r")).
  - reflexivity.
  - repeat constructor. vm_compute. discriminate.
  - reflexivity.
Defined.

(** ** A push, then a clone *)

Lemma trim_id s c r r' d :
  s = c :: r -> is_js_space c = false ->
  s = r' ++ [d] -> is_js_space d = false ->
  trim s = s.
Proof.
  intros E1 H1 E2 H2. unfold trim.
  assert (T : trimStart s = s) by (rewrite E1; simpl; now rewrite H1).
  rewrite T, E2. now rewrite trimEnd_app by exact H2.
Qed.

Lemma trim_token s : is_token s = true -> trim s = s.
Proof.
  intros H.
  destruct (token_facts s H) as (_ & _ & _ & (c & r & E1 & H1)
                                 & (r' & d & E2 & H2)).
  exact (trim_id s c r r' d E1 H1 E2 H2).
Qed.

(** The three tokens of a command line that ends with a newline. *)
Lemma split_command_line o n r :
  is_token o = true -> is_token n = true -> is_token r = true ->
  ascii_str (o ++ [sp] ++ n ++ [sp] ++ r) /\
  split sp (trim ((o ++ [sp] ++ n ++ [sp] ++ r) ++ nl)) = [o; n; r].
Proof.
  intros Ho Hn Hr.
  destruct (token_facts o Ho) as (Ao & So & _ & (o0 & o' & Eo & Ho0) & _).
  destruct (token_facts n Hn) as (An & Sn & _ & _ & _).
  destruct (token_facts r Hr) as (Ar & Sr & _ & _ & (r' & rl & Er & Hrl)).
  split.
  { repeat (apply Forall_app; split); auto; repeat constructor. }
  assert (T : trim ((o ++ [sp] ++ n ++ [sp] ++ r) ++ nl)
              = o ++ [sp] ++ n ++ [sp] ++ r).
  { unfold trim.
    assert (T1 : trimStart ((o ++ [sp] ++ n ++ [sp] ++ r) ++ nl)
                 = (o ++ [sp] ++ n ++ [sp] ++ r) ++ nl)
      by (rewrite Eo; simpl; now rewrite Ho0).
    rewrite T1, Er.
    replace ((o ++ [sp] ++ n ++ [sp] ++ r' ++ [rl]) ++ nl)
      with ((o ++ [sp] ++ n ++ [sp] ++ r') ++ rl :: nl)
      by (rewrite <- !app_assoc; reflexivity).
    rewrite trimEnd_app by exact Hrl.
    change (trimEnd nl) with (@nil N).
    rewrite <- !app_assoc. reflexivity. }
  rewrite T.
  change (o ++ [sp] ++ n ++ [sp] ++ r) with (o ++ sp :: n ++ sp :: r).
  rewrite split_app_sep by exact So.
  rewrite split_app_sep by exact Sn.
  now rewrite split_no_sep by exact Sr.
Qed.

Lemma token_not_empty s : is_token s = true -> str_eqb s [] = false.
Proof.
  unfold is_token. intros H. apply andb_prop in H. destruct H as [H _].
  now apply negb_true_iff in H.
Qed.

Lemma substring_ref r : StreamWorker.substring 5 (lit "ref: " ++ r) = r.
Proof. destruct r; reflexivity. Qed.

(** One line of a push on a repository without [HEAD]. *)
Lemma push_line_command env now prefix o n r :
  is_token o = true -> is_token n = true -> is_token r = true ->
  r <> lit "HEAD" ->
  get env (prefix ++ lit "/HEAD") = None ->
  StreamWorker.push_line env now prefix ((o ++ [sp] ++ n ++ [sp] ++ r) ++ nl)
  = put_text (put_text env (prefix ++ lit "/" ++ r) n now)
      (prefix ++ lit "/HEAD") (lit "ref: " ++ r) now.
Proof.
  intros Ho Hn Hr Hne Hh. unfold StreamWorker.push_line.
  destruct (split_command_line o n r Ho Hn Hr) as [_ ->].
  rewrite (token_not_empty r Hr). cbv zeta. unfold put_text.
  rewrite get_put_other, Hh; [reflexivity|].
  change (lit "/HEAD") with (lit "/" ++ lit "HEAD").
  intros E. apply app_inv_head in E. apply app_inv_head in E. congruence.
Qed.

(** X17. A push is not checked against the stored record: on a
    repository that has no [HEAD] yet, a push whose body is one chunk
    that starts with the pkt-line of a command [<old> <new> <ref>]
    (three tokens, the ref not being [HEAD]) is answered 200 whatever
    the old id is and whatever the ref held; it stores the new id under
    the ref and makes [HEAD] point to the ref, and the clone that
    follows advertises the new id for [HEAD] and for the ref.  What
    follows the command in the chunk is ignored. *)
Theorem stream_clone_after_push (env : bucket) (now now' : Z)
    (org repo oldSha newSha ref : ustring) (extra : bytes)
    (stream : option (list bytes)) :
  is_name org = true -> is_name repo = true ->
  is_token oldSha = true -> is_token newSha = true -> is_token ref = true ->
  ref <> lit "HEAD" ->
  (Z.of_nat (length (oldSha ++ [sp] ++ newSha ++ [sp] ++ ref)) <= 65530)%Z ->
  get env (stream_base org repo ++ lit "/HEAD") = None ->
  exists env',
    StreamWorker.fetch env now
      (StreamWorker.mkReq (repo_url org repo (lit "git-receive-pack"))
         (Some (lit "git-receive-pack")) (lit "POST")
         (Some [encode (StreamWorker.pktLine
                          (oldSha ++ [sp] ++ newSha ++ [sp] ++ ref))
                ++ extra]))
    = (Returned (StreamWorker.mkResp 200 [] None), env') /\
    get env' (stream_base org repo ++ lit "/" ++ ref)
    = Some (mkObj (stream_base org repo ++ lit "/" ++ ref)
              (encode newSha) now) /\
    StreamWorker.fetch env' now'
      (StreamWorker.mkReq (repo_url org repo (lit "info/refs"))
         (Some (lit "git-upload-pack")) (lit "GET") stream)
    = (Returned
         (StreamWorker.advertisement
            (List.concat
               [StreamWorker.pktLine (lit "# service=git-upload-pack");
                StreamWorker.flushPkt;
                StreamWorker.pktLine
                  (newSha ++ lit " HEAD" ++ nul ++ StreamWorker.upload_caps
                   ++ ref);
                StreamWorker.pktLine (newSha ++ lit " " ++ ref);
                StreamWorker.flushPkt])),
       env').
Proof.
  intros Ho Hr Hold Hnew Href Hne Hlen Hhead.
  set (prefix := stream_base org repo) in *.
  set (line := oldSha ++ [sp] ++ newSha ++ [sp] ++ ref) in *.
  destruct (split_command_line oldSha newSha ref Hold Hnew Href) as [Al _].
  fold line in Al.
  assert (An : ascii_str (line ++ nl))
    by (apply Forall_app; split; [exact Al | repeat constructor]).
  set (env1 := put_text env (prefix ++ lit "/" ++ ref) newSha now).
  set (env' := put_text env1 (prefix ++ lit "/HEAD") (lit "ref: " ++ ref) now).
  assert (Kne : prefix ++ lit "/" ++ ref <> prefix ++ lit "/HEAD").
  { change (lit "/HEAD") with (lit "/" ++ lit "HEAD").
    intros E. apply app_inv_head in E. apply app_inv_head in E. congruence. }
  assert (Gref : get env' (prefix ++ lit "/" ++ ref)
                 = Some (mkObj (prefix ++ lit "/" ++ ref) (encode newSha) now)).
  { unfold env', put_text. rewrite get_put_other by exact Kne.
    apply get_put_same. }
  exists env'. split; [|split; [exact Gref|]].
  - unfold StreamWorker.fetch. cbn [StreamWorker.pathname].
    rewrite match_repo_url by (assumption || reflexivity).
    cbn [StreamWorker.method StreamWorker.service StreamWorker.chunks
         StreamWorker.service_is].
    change (str_eqb (lit "POST") (lit "GET")) with false.
    rewrite !str_eqb_refl. cbn [andb].
    change (org ++ lit "/" ++ repo) with prefix.
    rewrite stream_pktLine_bytes by assumption.
    pose proof (push_chunks env now prefix [(encode (line ++ nl), extra)] [])
      as P.
    unfold chunk_of in P. cbn [map app fst snd fold_left] in P.
    unfold bytes in P |- *. rewrite P.
    + rewrite decode_encode_ascii by exact An.
      unfold line. rewrite push_line_command by assumption. reflexivity.
    + repeat constructor. cbn [fst].
      rewrite length_encode_ascii, length_app by exact An.
      cbn [length nl]. lia.
    + exact I.
  - unfold StreamWorker.fetch. cbn [StreamWorker.pathname].
    rewrite match_repo_url by (assumption || reflexivity).
    cbn [StreamWorker.method StreamWorker.service StreamWorker.service_is].
    rewrite !str_eqb_refl. cbn [andb].
    change (org ++ lit "/" ++ repo) with prefix.
    unfold StreamWorker.clone.
    assert (Ghead : get env' (prefix ++ lit "/HEAD")
                    = Some (mkObj (prefix ++ lit "/HEAD")
                              (encode (lit "ref: " ++ ref)) now))
      by apply get_put_same.
    rewrite Ghead. cbv zeta. unfold text. cbn [body].
    destruct (token_facts ref Href) as (Ar & _ & _ & _ & (r' & d & Er & Hd)).
    destruct (token_facts newSha Hnew) as (Anew & _).
    rewrite decode_encode_ascii
      by (apply Forall_app; split; [repeat constructor | exact Ar]).
    rewrite (trim_id (lit "ref: " ++ ref) 114%N (skipn 1 (lit "ref: ") ++ ref)
               (lit "ref: " ++ r') d)
      by (try reflexivity; try exact Hd; rewrite Er, app_assoc; reflexivity).
    rewrite substring_ref.
    rewrite Gref. cbn [body].
    rewrite decode_encode_ascii by exact Anew.
    rewrite trim_token by exact Hnew. reflexivity.
Qed.

Lemma stream_clone_after_push_witness :
  exists env',
    StreamWorker.fetch [] 1%Z
      (StreamWorker.mkReq (repo_url (lit "o") (lit "r") (lit "git-receive-pack"))
         (Some (lit "git-receive-pack")) (lit "POST")
         (Some [encode (StreamWorker.pktLine
                          (oid_c ++ [sp] ++ oid_a ++ [sp] ++ main_ref))
                ++ pack1]))
    = (Returned (StreamWorker.mkResp 200 [] None), env') /\
    get env' (stream_base (lit "o") (lit "r") ++ lit "/" ++ main_ref)
    = Some (mkObj (stream_base (lit "o") (lit "r") ++ lit "/" ++ main_ref)
              (encode oid_a) 1%Z) /\
    StreamWorker.fetch env' 2%Z
      (StreamWorker.mkReq (repo_url (lit "o") (lit "r") (lit "info/refs"))
         (Some (lit "git-upload-pack")) (lit "GET") None)
    = (Returned
         (StreamWorker.advertisement
            (List.concat
               [StreamWorker.pktLine (lit "# service=git-upload-pack");
                StreamWorker.flushPkt;
                StreamWorker.pktLine
                  (oid_a ++ lit " HEAD" ++ nul ++ StreamWorker.upload_caps
                   ++ main_ref);
                StreamWorker.pktLine (oid_a ++ lit " " ++ main_ref);
                StreamWorker.flushPkt])),
       env').
Proof.
  apply (stream_clone_after_push [] 1%Z 2%Z (lit "o") (lit "r")
           oid_c oid_a main_ref pack1 None);
    try reflexivity.
  - discriminate.
  - vm_compute. discriminate.
Defined.

(** ** Every request is answered *)

Lemma read_length : forall reader buffer n,
  length (snd (StreamWorker.read reader buffer n)) <= length reader.
Proof.
  induction reader as [|value reader IH]; intros buffer n;
    cbn [StreamWorker.read].
  - destruct (StreamWorker.lt_num _ n); cbn [snd length]; lia.
  - destruct (StreamWorker.lt_num _ n); cbn [snd length].
    + specialize (IH (buffer ++ value) n). lia.
    + lia.
Qed.

(** A call that returns a line has taken at least one chunk from the
    stream. *)
Lemma parsePktLine_progress reader l r :
  StreamWorker.parsePktLine reader = (Some l, r) ->
  length r < length reader.
Proof.
  unfold StreamWorker.parsePktLine.
  destruct reader as [|c reader]; [discriminate|].
  rewrite read_first by lia.
  pose proof (read_length reader c (Some 4%Z)) as L1.
  destruct (StreamWorker.read reader c (Some 4%Z)) as [[lh buffer] r1].
  cbn [snd] in L1.
  destruct lh as [lh|]; [|discriminate].
  destruct (is_zero _); [discriminate|].
  pose proof (read_length r1 buffer
                (nadd (parseInt16 (decode lh)) (Some (-4)%Z))) as L2.
  destruct (StreamWorker.read r1 buffer _) as [[d b2] r2].
  cbn [snd] in L2.
  destruct d; [|discriminate].
  intros [= _ <-]. cbn [length]. lia.
Qed.

Lemma push_line_get_outside env now prefix line k :
  starts_with (prefix ++ lit "/") k = false ->
  get (StreamWorker.push_line env now prefix line) k = get env k.
Proof.
  intros Hk. unfold StreamWorker.push_line.
  destruct (split sp (trim line)) as [|a [|n [|r rest]]]; try reflexivity.
  destruct (str_eqb r []); [reflexivity|]. cbv zeta. unfold put_text.
  assert (G1 : get (put env (prefix ++ lit "/" ++ r) (encode n) now) k
               = get env k).
  { apply (get_put_outside env (prefix ++ lit "/")); [|exact Hk].
    rewrite app_assoc. apply starts_with_app. }
  destruct (get (put env _ _ _) (prefix ++ lit "/HEAD")); [exact G1|].
  rewrite <- G1.
  apply (get_put_outside _ (prefix ++ lit "/")); [|exact Hk].
  change (lit "/HEAD") with (lit "/" ++ lit "HEAD").
  rewrite app_assoc. apply starts_with_app.
Qed.

(** The loop of a push ends before the stream is exhausted, and writes
    under the prefix of the repository only. *)
Lemma push_loop_returns now prefix : forall fuel env line reader,
  (line = None \/ length reader < fuel) ->
  exists env',
    StreamWorker.push_loop fuel env now prefix line reader = Returned env' /\
    forall k, starts_with (prefix ++ lit "/") k = false ->
              get env' k = get env k.
Proof.
  induction fuel as [|f IH]; intros env line reader H.
  - destruct H as [->|H]; [|lia]. exists env. split; reflexivity.
  - destruct line as [l|].
    + destruct H as [H|H]; [discriminate|].
      cbn [StreamWorker.push_loop].
      destruct (StreamWorker.parsePktLine reader) as [line' r'] eqn:P.
      destruct (IH (StreamWorker.push_line env now prefix l) line' r')
        as (env' & E & G).
      { destruct line' as [l'|]; [right|now left].
        apply parsePktLine_progress in P. lia. }
      exists env'. split; [exact E|].
      intros k Hk. rewrite (G k Hk). now apply push_line_get_outside.
    + exists env. split; reflexivity.
Qed.

Lemma push_returns env now prefix reader :
  exists env',
    StreamWorker.push env now prefix reader = Returned env' /\
    forall k, starts_with (prefix ++ lit "/") k = false ->
              get env' k = get env k.
Proof.
  unfold StreamWorker.push.
  destruct (StreamWorker.parsePktLine reader) as [line r'] eqn:P.
  apply push_loop_returns.
  destruct line as [l|]; [right|now left].
  now apply parsePktLine_progress in P.
Qed.

(** X18. The stream Worker answers every request, whatever the stream
    of the body holds: the loop of a push ends, and nothing throws.  A
    request whose path does not match is answered 404 and changes
    nothing, a request that is not a POST changes nothing, and a
    request on the repository [<org>/<repo>] changes no record whose key
    does not start with [<org>/<repo>/]. *)
Theorem stream_fetch_answers (env : bucket) (now : Z)
    (rq : StreamWorker.request) :
  exists resp env',
    StreamWorker.fetch env now rq = (Returned resp, env') /\
    (str_eqb (StreamWorker.method rq) (lit "POST") = false -> env' = env) /\
    match StreamWorker.match_repoRegex (StreamWorker.pathname rq) with
    | None => StreamWorker.status resp = 404%Z /\ env' = env
    | Some (org, repo, _) =>
        forall k, starts_with (stream_base org repo ++ lit "/") k = false ->
                  get env' k = get env k
    end.
Proof.
  unfold StreamWorker.fetch.
  destruct (StreamWorker.match_repoRegex (StreamWorker.pathname rq))
    as [[[org repo] action]|].
  - cbv zeta.
    destruct (str_eqb (StreamWorker.method rq) (lit "GET") && _ && _).
    { eexists _, env. repeat split; reflexivity. }
    destruct (str_eqb (StreamWorker.method rq) (lit "POST")) eqn:M;
      cbn [andb].
    + destruct (str_eqb action (lit "git-receive-pack") && _).
      * destruct (StreamWorker.chunks rq) as [reader|].
        -- destruct (push_returns env now (org ++ lit "/" ++ repo) reader)
             as (env' & -> & G).
           eexists _, env'. repeat split; [discriminate|exact G].
        -- eexists _, env. repeat split; reflexivity.
      * eexists _, env. repeat split; reflexivity.
    + eexists _, env. repeat split; reflexivity.
  - eexists _, env. repeat split; reflexivity.
Qed.

(** * The earlier version of the Worker *)

(** ** [extractNewHead] *)

Lemma new_head_at_spec text id :
  new_head_at text = Some id <-> new_head_match text id.
Proof.
  unfold new_head_at, new_head_match. split.
  - destruct (starts_with (zeroOid ++ [sp]) text) eqn:S; [|discriminate].
    apply starts_with_skipn in S.
    change (length (zeroOid ++ [sp])) with 41 in S.
    cbv zeta. remember (skipn 41 text) as t eqn:Et.
    remember (firstn 40 t) as m eqn:Em.
    destruct ((length m =? 40) && forallb is_lower_hex_char m) eqn:C;
      [|discriminate].
    apply andb_prop in C. destruct C as [L F]. apply Nat.eqb_eq in L.
    intros [= <-]. split; [exact L|]. split; [exact F|].
    exists (skipn 40 t).
    rewrite S, <- app_assoc, Em. f_equal. f_equal.
    symmetry. apply firstn_skipn.
  - intros (L & F & post & ->).
    rewrite (app_assoc zeroOid [sp]), starts_with_app.
    change 41 with (length (zeroOid ++ [sp])). rewrite skipn_app_exact.
    rewrite <- L, firstn_app_exact, L, F. reflexivity.
Qed.

Lemma new_head_match_fun text a b :
  new_head_match text a -> new_head_match text b -> a = b.
Proof.
  intros Ha Hb. apply new_head_at_spec in Ha, Hb. congruence.
Qed.

(** The scan returns the group of the first position where the pattern
    stands. *)
Lemma new_head_scan_spec : forall s id,
  new_head_scan s = Some id <->
  exists pre rest,
    s = pre ++ rest /\ new_head_match rest id /\
    forall pre1 rest1 id1,
      s = pre1 ++ rest1 -> length pre1 < length pre ->
      ~ new_head_match rest1 id1.
Proof.
  induction s as [|c r IH]; intros id.
  - cbn [new_head_scan]. split.
    + destruct (new_head_at []) as [m|] eqn:E; [|discriminate].
      intros [= <-]. exists [], []. split; [reflexivity|].
      split; [now apply new_head_at_spec|].
      intros pre1 rest1 id1 _ H. cbn [length] in H. lia.
    + intros (pre & rest & E & M & _).
      symmetry in E. apply app_eq_nil in E. destruct E as [-> ->].
      apply new_head_at_spec in M. now rewrite M.
  - cbn [new_head_scan]. split.
    + destruct (new_head_at (c :: r)) as [m|] eqn:E.
      * intros [= <-]. exists [], (c :: r). split; [reflexivity|].
        split; [now apply new_head_at_spec|].
        intros pre1 rest1 id1 _ H. cbn [length] in H. lia.
      * intros H. apply IH in H. destruct H as (pre & rest & -> & M & F).
        exists (c :: pre), rest. split; [reflexivity|]. split; [exact M|].
        intros pre1 rest1 id1 E1 L1 M1.
        destruct pre1 as [|c1 pre1]; cbn [app] in E1.
        -- subst rest1. apply new_head_at_spec in M1. congruence.
        -- inversion E1; subst. apply (F pre1 rest1 id1); auto.
           cbn [length] in L1. lia.
    + intros (pre & rest & E & M & F).
      destruct (new_head_at (c :: r)) as [m|] eqn:A.
      * apply new_head_at_spec in A.
        destruct pre as [|c1 pre].
        -- cbn [app] in E. subst rest. f_equal.
           exact (new_head_match_fun _ _ _ A M).
        -- exfalso. apply (F [] (c :: r) m); [reflexivity|simpl; lia|exact A].
      * destruct pre as [|c1 pre]; cbn [app] in E.
        -- subst rest. apply new_head_at_spec in M. congruence.
        -- inversion E; subst. apply IH. exists pre, rest.
           split; [reflexivity|]. split; [exact M|].
           intros pre1 rest1 id1 E1 L1.
           apply (F (c1 :: pre1) rest1 id1); [now rewrite E1|].
           cbn [length]. lia.
Qed.

Lemma lower_hex_is_oid id :
  length id = 40 -> forallb is_lower_hex_char id = true -> is_oid id = true.
Proof.
  intros L F. unfold is_oid. rewrite L. cbn [andb Nat.eqb].
  change (40 =? 40) with true. cbn [andb].
  rewrite forallb_forall in *. intros c Hc. specialize (F c Hc).
  unfold is_lower_hex_char in F. unfold is_hex_char, hex_val.
  apply orb_prop in F. destruct F as [F|F]; rewrite F; [reflexivity|].
  now destruct ((48 <=? c) && (c <=? 57))%N.
Qed.

(** X19. [extractNewHead] returns an id exactly when the decoded body
    holds the zero id, a space and 40 lowercase hexadecimal characters
    in a row, and the id is the one of the first such place; what it
    returns is always a syntactically valid id. *)
Theorem extractNewHead_first_match (buf : bytes) (id : ustring) :
  (extractNewHead buf = Some id <->
   exists pre rest,
     decode buf = pre ++ rest /\ new_head_match rest id /\
     forall pre1 rest1 id1,
       decode buf = pre1 ++ rest1 -> length pre1 < length pre ->
       ~ new_head_match rest1 id1) /\
  (extractNewHead buf = Some id -> is_oid id = true).
Proof.
  unfold extractNewHead. cbv zeta. split; [apply new_head_scan_spec|].
  intros H. apply new_head_scan_spec in H.
  destruct H as (_ & _ & _ & (L & F & _) & _).
  now apply lower_hex_is_oid.
Qed.

(** Two commands that create a ref: the id of the first one. *)
Lemma extractNewHead_first_match_witness :
  extractNewHead
    (encode (lit "0077" ++ zeroOid ++ [sp] ++ oid_a ++ [sp]
             ++ main_ref ++ nl
             ++ lit "0076" ++ zeroOid ++ [sp] ++ oid_b ++ [sp]
             ++ lit "refs/heads/dev" ++ nl ++ lit "0000"))
  = Some oid_a /\ is_oid oid_a = true.
Proof.
  assert (E : extractNewHead
                (encode (lit "0077" ++ zeroOid ++ [sp] ++ oid_a ++ [sp]
                         ++ main_ref ++ nl
                         ++ lit "0076" ++ zeroOid ++ [sp] ++ oid_b ++ [sp]
                         ++ lit "refs/heads/dev" ++ nl ++ lit "0000"))
              = Some oid_a) by reflexivity.
  split; [exact E|].
  exact (proj2 (extractNewHead_first_match _ oid_a) E).
Defined.

(** ** A push to the earlier Worker *)

Lemma decode_from_ascii_app s r :
  ascii_str s -> decode_from d0 (map byte_of_N s ++ r) = s ++ decode_from d0 r.
Proof.
  induction 1 as [|c s Hc _ IH]; [reflexivity|].
  cbn [map app decode_from]. rewrite to_N_byte_of_N by lia.
  unfold dstep. cbn [needed d0]. unfold lead.
  apply N.ltb_lt in Hc. assert (Hc' : (c <? 128)%N = true) by exact Hc.
  rewrite Hc'. fold d0. rewrite IH. reflexivity.
Qed.

(** Bytes that start with ASCII text decode to that text and what the
    rest decodes to. *)
Lemma decode_ascii_app s r :
  ascii_str s -> s <> [] ->
  decode (map byte_of_N s ++ r) = s ++ decode_from d0 r.
Proof.
  intros H Hne. unfold decode. rewrite decode_from_ascii_app by exact H.
  destruct s as [|c s]; [congruence|]. cbn [app].
  inversion H as [|? ? Hc _]; subst.
  assert (E : (c =? 65279)%N = false) by (apply N.eqb_neq; lia).
  now rewrite E.
Qed.

(** The id of a command that creates a ref, in the first frame of the
    body. *)
Lemma extract_create_command newId r tail rest :
  wf_line (mkCmd zeroOid newId r, tail) ->
  length newId = 40 -> forallb is_lower_hex_char newId = true ->
  extractNewHead (pktLineS (command_text (mkCmd zeroOid newId r) tail) ++ rest)
  = Some newId.
Proof.
  intros W L F.
  destruct (wf_line_text _ W) as (A & Le & _). cbn [fst snd] in A, Le.
  set (line := command_text (mkCmd zeroOid newId r) tail) in *.
  unfold pktLineS. rewrite pktLine_eq by exact Le.
  assert (Hn : (N.of_nat (length (encode line) + 4) < 65536)%N) by lia.
  rewrite header_digits by exact Hn.
  rewrite (encode_ascii line A), <- map_app.
  set (n := N.of_nat (length (map byte_of_N line) + 4)).
  unfold extractNewHead. cbv zeta.
  rewrite decode_ascii_app.
  2:{ apply Forall_app. split; [apply digits4_ascii|exact A].
      unfold n. rewrite <- (encode_ascii line A). exact Hn. }
  2:{ unfold digits4. discriminate. }
  apply new_head_scan_spec.
  exists (digits4 n), (line ++ decode_from d0 rest).
  split; [now rewrite app_assoc|]. split.
  - split; [exact L|]. split; [exact F|].
    exists ([sp] ++ r ++ tail ++ decode_from d0 rest).
    unfold line, command_text. cbn [old new ref].
    now rewrite <- !app_assoc.
  - intros pre1 rest1 id1 E1 L1 (_ & _ & post & M).
    unfold line, command_text, digits4 in E1. cbn [old new ref] in E1.
    unfold digits4 in L1. cbn [length] in L1.
    destruct pre1 as [|x1 [|x2 [|x3 [|x4 pre1]]]];
      [| | | |cbn [length] in L1; lia];
      cbn [app] in E1;
      [|injection E1 as _ E1|injection E1 as _ _ E1|injection E1 as _ _ _ E1];
      rewrite <- E1 in M;
      apply (f_equal (fun l => nth_error l 40)) in M;
      vm_compute in M; discriminate M.
Qed.

(** X20. The earlier Worker ignores the ref that a push names: a push
    whose first frame creates a branch other than [main], with a
    lowercase id, is answered 200 with [unpack ok] and
    [ok refs/heads/main]; the id is written to [refs/heads/main], and
    the record of the branch that the push named is not touched. *)
Theorem earlier_push_sets_main (env : bucket) (now : Z)
    (hash org repo newId name tail : ustring) (rest : bytes) :
  wf_line (mkCmd zeroOid newId (lit "refs/heads/" ++ name), tail) ->
  length newId = 40 -> forallb is_lower_hex_char newId = true ->
  name <> lit "main" ->
  exists env',
    Earlier.handleReceivePack env now hash org repo
      (pktLineS (command_text (mkCmd zeroOid newId (lit "refs/heads/" ++ name))
                   tail) ++ rest)
    = (Returned
         (mkResp 200 (Some receive_result_type)
            (pktLineS (lit "unpack ok" ++ nl)
             ++ pktLineS (lit "ok refs/heads/main" ++ nl) ++ pktFlush)),
       env') /\
    get env' (join [repo_base org repo; main_ref])
    = Some (mkObj (join [repo_base org repo; main_ref])
              (encode (newId ++ nl)) now) /\
    get env' (join [repo_base org repo; lit "refs/heads/" ++ name])
    = get env (join [repo_base org repo; lit "refs/heads/" ++ name]).
Proof.
  intros W L F Hne. unfold Earlier.handleReceivePack. cbv zeta.
  rewrite extract_create_command by assumption.
  fold (repo_base org repo). set (base := repo_base org repo).
  eexists. split; [|split].
  - rewrite concat_flat. cbn [List.concat]. rewrite app_nil_r. reflexivity.
  - unfold put_text. apply get_put_same.
  - unfold put_text. rewrite !get_put_other; [reflexivity| |].
    + cbn [join]. intros E. apply app_inv_head in E. apply app_inv_head in E.
      discriminate E.
    + cbn [join]. intros E. apply app_inv_head in E. apply app_inv_head in E.
      change (lit "refs/heads/main") with (lit "refs/heads/" ++ lit "main") in E.
      apply app_inv_head in E. congruence.
Qed.

Lemma earlier_push_sets_main_witness :
  exists env',
    Earlier.handleReceivePack [] 1%Z (lit "h") (lit "o") (lit "r")
      (pktLineS (command_text (mkCmd zeroOid oid_a (lit "refs/heads/" ++ lit "dev"))
                   nl) ++ pktFlush ++ pack1)
    = (Returned
         (mkResp 200 (Some receive_result_type)
            (pktLineS (lit "unpack ok" ++ nl)
             ++ pktLineS (lit "ok refs/heads/main" ++ nl) ++ pktFlush)),
       env') /\
    get env' (join [repo_base (lit "o") (lit "r"); main_ref])
    = Some (mkObj (join [repo_base (lit "o") (lit "r"); main_ref])
              (encode (oid_a ++ nl)) 1%Z) /\
    get env' (join [repo_base (lit "o") (lit "r"); lit "refs/heads/" ++ lit "dev"])
    = get [] (join [repo_base (lit "o") (lit "r"); lit "refs/heads/" ++ lit "dev"]).
Proof.
  apply (earlier_push_sets_main [] 1%Z (lit "h") (lit "o") (lit "r")
           oid_a (lit "dev") nl (pktFlush ++ pack1)).
  - repeat split; vm_compute; discriminate.
  - reflexivity.
  - reflexivity.
  - discriminate.
Defined.

(** ** A clone from the earlier Worker *)

Lemma length_pktLine_any p : length (pktLine p) = length p + 4.
Proof.
  rewrite pktLine_shape, length_app, length_firstn.
  destruct (length_header_any (N.of_nat (length p + 4)) ltac:(lia)). lia.
Qed.

(** X21. The earlier Worker sends a pack as one side-band frame.  When
    the bucket holds one object per key and a pack is stored, it
    answers 200 with the frame of the channel byte 1 and the whole
    content of a pack than which none was uploaded later, and a flush.
    The length field of that frame reads back as the length of the
    frame only for a pack of at most 65530 bytes. *)
Theorem earlier_upload_single_frame (env : bucket) (org repo : ustring) :
  bucket_ok env ->
  r2_list env (pack_prefix org repo) <> [] ->
  exists latest,
    In latest (r2_list env (pack_prefix org repo)) /\
    (forall o, In o (r2_list env (pack_prefix org repo)) ->
               (uploaded o <= uploaded latest)%Z) /\
    Earlier.handleUploadPack env org repo
    = Returned (mkResp 200 (Some upload_result_type)
                  (pktLine (x01 :: body latest) ++ pktFlush)) /\
    length (pktLine (x01 :: body latest)) = length (body latest) + 5 /\
    (frame_len (pktLine (x01 :: body latest) ++ pktFlush) (Some 0%Z)
     = Some (Z.of_nat (length (body latest)) + 5)%Z
     <-> (Z.of_nat (length (body latest)) <= 65530)%Z).
Proof.
  intros Hok Hne. unfold Earlier.handleUploadPack.
  fold (pack_prefix org repo).
  set (packs := r2_list env (pack_prefix org repo)) in *.
  assert (L : (length packs =? 0) = false)
    by (destruct packs; [congruence|reflexivity]).
  rewrite L.
  pose proof (sort_by_head packs) as S. fold by_upload_desc.
  destruct (sort_by by_upload_desc packs) as [|latest r]; [congruence|].
  destruct S as [Hin Hmax].
  assert (Henv : In latest env).
  { unfold packs, r2_list in Hin. apply filter_In in Hin. tauto. }
  rewrite (bucket_ok_get env latest Hok Henv). unfold arrayBuffer.
  exists latest. split; [exact Hin|]. split; [exact Hmax|]. split.
  { rewrite concat_flat. cbn [List.concat]. now rewrite app_nil_r. }
  split.
  { rewrite length_pktLine_any. cbn [length]. lia. }
  split.
  - intros E. apply frame_len_bound in E. lia.
  - intros Hl.
    destruct (frame_at [] (x01 :: body latest) pktFlush) as [E _].
    { cbn [length]. lia. }
    cbn [app length] in E. change (Z.of_nat 0) with 0%Z in E.
    rewrite E. f_equal. lia.
Qed.

Lemma earlier_upload_single_frame_witness :
  exists latest,
    In latest (r2_list two_packs (pack_prefix (lit "o") (lit "r"))) /\
    (forall o, In o (r2_list two_packs (pack_prefix (lit "o") (lit "r"))) ->
               (uploaded o <= uploaded latest)%Z) /\
    Earlier.handleUploadPack two_packs (lit "o") (lit "r")
    = Returned (mkResp 200 (Some upload_result_type)
                  (pktLine (x01 :: body latest) ++ pktFlush)) /\
    length (pktLine (x01 :: body latest)) = length (body latest) + 5 /\
    (frame_len (pktLine (x01 :: body latest) ++ pktFlush) (Some 0%Z)
     = Some (Z.of_nat (length (body latest)) + 5)%Z
     <-> (Z.of_nat (length (body latest)) <= 65530)%Z).
Proof.
  apply (earlier_upload_single_frame two_packs (lit "o") (lit "r")).
  - repeat constructor.
  - discriminate.
Defined.

(** ** The first advertisement of the earlier Worker *)

Lemma earlier_listRefs_after_init env now org repo :
  repoExists env org repo = false ->
  listRefs (Earlier.initRepo env now org repo) org repo = Returned [].
Proof.
  intros H. apply repoExists_false in H.
  set (base := join [lit "repos"; org; repo]) in *.
  assert (K : join [base; lit "refs/heads/main"]
              = (base ++ lit "/" ++ lit "refs/heads/") ++ lit "main")
    by (cbn [join]; now rewrite <- !app_assoc).
  assert (Li : r2_list (Earlier.initRepo env now org repo)
                 (join [lit "repos"; org; repo; lit "refs/heads/"])
               = [mkObj (join [base; lit "refs/heads/main"]) (encode []) now]).
  { rewrite refs_prefix_eq. unfold Earlier.initRepo, put_text. fold base.
    apply r2_list_put_inside.
    - cbn [join]. rewrite starts_with_app_inv. reflexivity.
    - rewrite r2_list_put_outside.
      + now apply r2_list_longer.
      + cbn [join]. rewrite starts_with_app_inv. reflexivity. }
  unfold listRefs. rewrite Li. cbn [listRefs_loop key].
  assert (G : get (Earlier.initRepo env now org repo)
                (join [base; lit "refs/heads/main"])
              = Some (mkObj (join [base; lit "refs/heads/main"])
                        (encode []) now))
    by (unfold Earlier.initRepo, put_text; fold base; apply get_put_same).
  rewrite G. reflexivity.
Qed.

(** X22. In the earlier Worker a repository created by the first
    advertisement for a push has an empty record for [refs/heads/main],
    which [listRefs] leaves out: the advertisement holds the service
    line and two flushes, and so no capability line. *)
Theorem earlier_first_advertisement (env : bucket) (now : Z)
    (org repo : ustring) :
  repoExists env org repo = false ->
  Earlier.handleInfoRefs env now org repo (lit "git-receive-pack")
  = (Returned
       (mkResp 200
          (Some (lit "application/x-git-receive-pack-advertisement"))
          (pktLineS (lit "# service=git-receive-pack" ++ nl)
           ++ pktFlush ++ pktFlush)),
     Earlier.initRepo env now org repo) /\
  get (Earlier.initRepo env now org repo)
    (join [repo_base org repo; main_ref])
  = Some (mkObj (join [repo_base org repo; main_ref]) [] now).
Proof.
  intros H. split.
  - unfold Earlier.handleInfoRefs. rewrite H. cbv zeta.
    rewrite str_eqb_refl. cbn [negb andb].
    change (str_eqb (lit "git-receive-pack") (lit "git-upload-pack"))
      with false.
    cbv iota. rewrite (earlier_listRefs_after_init env now org repo H).
    cbn [advertise_loop app]. rewrite concat_flat. reflexivity.
  - unfold Earlier.initRepo, put_text. apply get_put_same.
Qed.

Lemma earlier_first_advertisement_witness :
  Earlier.handleInfoRefs [] 1%Z (lit "o") (lit "r") (lit "git-receive-pack")
  = (Returned
       (mkResp 200
          (Some (lit "application/x-git-receive-pack-advertisement"))
          (pktLineS (lit "# service=git-receive-pack" ++ nl)
           ++ pktFlush ++ pktFlush)),
     Earlier.initRepo [] 1%Z (lit "o") (lit "r")) /\
  get (Earlier.initRepo [] 1%Z (lit "o") (lit "r"))
    (join [repo_base (lit "o") (lit "r"); main_ref])
  = Some (mkObj (join [repo_base (lit "o") (lit "r"); main_ref]) [] 1%Z).
Proof.
  apply (earlier_first_advertisement [] 1%Z (lit "o") (lit "r")).
  reflexivity.
Defined.

(** ** What a request to the earlier Worker may write *)

Lemma earlier_initRepo_get_outside env now org repo k :
  starts_with (repo_base org repo ++ lit "/") k = false ->
  get (Earlier.initRepo env now org repo) k = get env k.
Proof.
  intros Hk. unfold Earlier.initRepo, put_text. fold (repo_base org repo).
  rewrite (get_put_outside _ (repo_base org repo ++ lit "/"))
    by (auto using under_base).
  apply (get_put_outside _ (repo_base org repo ++ lit "/"));
    [apply under_base|exact Hk].
Qed.

Lemma earlier_handleInfoRefs_get_outside env now org repo service k :
  starts_with (repo_base org repo ++ lit "/") k = false ->
  get (snd (Earlier.handleInfoRefs env now org repo service)) k = get env k.
Proof.
  intros Hk. unfold Earlier.handleInfoRefs.
  set (env1 := if negb (repoExists env org repo)
                  && str_eqb service (lit "git-receive-pack")
               then Earlier.initRepo env now org repo else env).
  assert (G : get env1 k = get env k).
  { unfold env1. destruct (negb _ && _); [|reflexivity].
    now apply earlier_initRepo_get_outside. }
  destruct (negb (repoExists env org repo)
            && str_eqb service (lit "git-upload-pack")); [exact G|].
  destruct (listRefs env1 org repo); try exact G.
  destruct (header_value_ok _); exact G.
Qed.

Lemma earlier_handleReceivePack_get_outside env now hash org repo raw k :
  starts_with (repo_base org repo ++ lit "/") k = false ->
  get (snd (Earlier.handleReceivePack env now hash org repo raw)) k
  = get env k.
Proof.
  intros Hk. unfold Earlier.handleReceivePack. cbv zeta. cbn [snd].
  fold (repo_base org repo).
  assert (G : get (put env
                     (join [repo_base org repo;
                            lit "objects/pack/pack-" ++ hash ++ lit ".pack"])
                     (slice_from raw (findPackStart raw)) now) k
              = get env k)
    by (apply (get_put_outside _ (repo_base org repo ++ lit "/"));
        [apply under_base|exact Hk]).
  destruct (extractNewHead raw); [|exact G].
  rewrite <- G. unfold put_text.
  apply (get_put_outside _ (repo_base org repo ++ lit "/"));
    [apply under_base|exact Hk].
Qed.

Lemma parseRepoPath_some_segments path p :
  parseRepoPath path = Some p ->
  segment (p_org p) = true /\ segment (p_repo p) = true.
Proof.
  intros P. unfold parseRepoPath in P. fold not_empty in P.
  assert (F : Forall (fun x => segment x = true)
                (filter not_empty (split 47%N path))).
  { apply Forall_forall. intros x Hx. apply filter_In in Hx.
    destruct Hx as [Hin Hn]. unfold segment. fold (not_empty x).
    rewrite Hn. cbn [andb].
    pose proof (split_pieces 47%N path) as Q.
    rewrite Forall_forall in Q. auto. }
  destruct (filter not_empty (split 47%N path))
    as [|o [|r' rest]]; try discriminate.
  inversion P; subst p. cbn [p_org p_repo].
  inversion F as [|? ? Fo F']; subst. inversion F'; subst. auto.
Qed.

(** X23. A request to the earlier Worker is confined to the repository
    of its path: when the path has no two segments nothing is written;
    otherwise no key outside [repos/<org>/<repo>/] changes, whatever
    the body of a push holds, and so no record of another repository
    changes. *)
Theorem earlier_fetch_keeps_to_repository (env : bucket) (now : Z)
    (hash : ustring) (rq : request) :
  match parseRepoPath (pathname rq) with
  | None => snd (Earlier.fetch env now hash rq) = env
  | Some p =>
      (forall k,
          starts_with (repo_base (p_org p) (p_repo p) ++ lit "/") k = false ->
          get (snd (Earlier.fetch env now hash rq)) k = get env k) /\
      (forall org repo r,
          segment org = true -> segment repo = true ->
          (org, repo) <> (p_org p, p_repo p) ->
          get (snd (Earlier.fetch env now hash rq))
            (join [repo_base org repo; r])
          = get env (join [repo_base org repo; r]))
  end.
Proof.
  destruct (parseRepoPath (pathname rq)) as [p|] eqn:P.
  - assert (K : forall k,
               starts_with (repo_base (p_org p) (p_repo p) ++ lit "/") k
               = false ->
               get (snd (Earlier.fetch env now hash rq)) k = get env k).
    { intros k Hk. unfold Earlier.fetch. rewrite P.
      destruct p as [org repo sub]. cbn [p_org p_repo] in Hk.
      destruct (str_eqb sub (lit "info/refs")).
      - destruct (service_param rq) as [service|]; [|reflexivity].
        destruct (str_eqb service []); [reflexivity|].
        now apply earlier_handleInfoRefs_get_outside.
      - destruct (str_eqb sub (lit "git-upload-pack") && _); [reflexivity|].
        destruct (str_eqb sub (lit "git-receive-pack") && _); [|reflexivity].
        now apply earlier_handleReceivePack_get_outside. }
    split; [exact K|].
    intros org repo r Ho Hr Hne. apply K.
    destruct (parseRepoPath_some_segments _ _ P) as [So Sr].
    now apply other_repository.
  - unfold Earlier.fetch. now rewrite P.
Qed.

(** * Further edge cases *)

(** ** A length field that is not a number, in the stream Worker *)

Lemma read_nan reader buffer :
  StreamWorker.read reader buffer None = (Some [], buffer, reader).
Proof.
  destruct reader; cbn [StreamWorker.read StreamWorker.lt_num to_int];
    rewrite slice_from_0, (slice_empty buffer 0 0) by apply Z.le_refl;
    reflexivity.
Qed.

(** X24. The stream Worker does not reject a frame whose length field
    is not a hexadecimal number: when the first chunk of the stream has
    four bytes or more and [parseInt] of the first four is NaN,
    [parsePktLine] returns the empty string (not [null], so the loop of
    a push goes on) and the rest of the chunk is dropped; for the empty
    line the loop of a push writes nothing. *)
Theorem malformed_stream_header_is_skipped (c : bytes) (rest : list bytes) :
  4 <= length c ->
  parseInt16 (decode (firstn 4 c)) = None ->
  StreamWorker.parsePktLine (c :: rest) = (Some [], rest) /\
  forall env now repoPrefix,
    StreamWorker.push_line env now repoPrefix [] = env.
Proof.
  intros L H. split; [|reflexivity].
  unfold StreamWorker.parsePktLine.
  rewrite read_first, read_now by lia.
  change (Z.to_nat 4) with 4. rewrite H.
  cbn [is_zero nadd]. rewrite read_nan. reflexivity.
Qed.

Lemma malformed_stream_header_is_skipped_witness :
  StreamWorker.parsePktLine
    [list_byte_of_string "zzzz0032"; list_byte_of_string "0000"]
  = (Some [], [list_byte_of_string "0000"]) /\
  forall env now repoPrefix,
    StreamWorker.push_line env now repoPrefix [] = env.
Proof.
  apply (malformed_stream_header_is_skipped
           (list_byte_of_string "zzzz0032") [list_byte_of_string "0000"]).
  - simpl. lia.
  - reflexivity.
Defined.

(** ** [concat] *)

Lemma length_concat_sum (chunks : list bytes) :
  length (List.concat chunks) = list_sum (map (@length byte) chunks).
Proof.
  induction chunks as [|c chunks IH]; [reflexivity|].
  cbn [List.concat map list_sum]. now rewrite length_app, IH.
Qed.

(** X25. [concat], which allocates the total length and copies every
    chunk at its running offset, returns the chunks one after the
    other: its length is the sum of their lengths, and [concat] of two
    lists of chunks is [concat] of the first followed by [concat] of the
    second. *)
Theorem concat_joins_chunks (chunks more : list bytes) :
  concat chunks = List.concat chunks /\
  length (concat chunks) = list_sum (map (@length byte) chunks) /\
  concat (chunks ++ more) = concat chunks ++ concat more.
Proof.
  rewrite !concat_flat. split; [reflexivity|].
  split; [apply length_concat_sum|apply concat_app].
Qed.

(** ** Requests that fail *)

Lemma handleInfoRefs_outcome env now org repo service :
  match fst (handleInfoRefs env now org repo service) with
  | Returned resp =>
      status resp = 200%Z \/
      (status resp = 404%Z /\
       snd (handleInfoRefs env now org repo service) = env)
  | Thrown => snd (handleInfoRefs env now org repo service) = env
  | OutOfFuel => False
  end.
Proof.
  unfold handleInfoRefs.
  set (env1 := if negb (repoExists env org repo)
                  && str_eqb service (lit "git-receive-pack")
               then initRepo env now org repo else env).
  destruct (negb (repoExists env org repo)
            && str_eqb service (lit "git-upload-pack")) eqn:U.
  - cbn [fst snd status]. right. split; [reflexivity|].
    apply andb_prop in U. destruct U as [_ U]. apply str_eqb_eq in U.
    unfold env1. rewrite U.
    change (str_eqb (lit "git-upload-pack") (lit "git-receive-pack"))
      with false.
    now rewrite andb_false_r.
  - destruct (listRefs_returns env1 org repo) as (refs & E & _).
    rewrite E.
    destruct (header_value_ok _) eqn:V; cbn [fst snd status]; [now left|].
    unfold env1.
    destruct (str_eqb service (lit "git-receive-pack")) eqn:S;
      [|now rewrite andb_false_r].
    apply str_eqb_eq in S. subst service. discriminate V.
Qed.

Lemma handleUploadPack_outcome env org repo :
  match handleUploadPack env org repo with
  | Returned resp => status resp = 200%Z
  | Thrown => True
  | OutOfFuel => False
  end.
Proof.
  unfold handleUploadPack.
  destruct (length _ =? 0); [reflexivity|].
  destruct (sort_by _ _) as [|latest r]; [exact I|].
  destruct (get env (key latest)); [reflexivity|exact I].
Qed.

(** X26. [fetch] answers 200, 400 or 404, or throws, and a request that
    is not answered 200 leaves the bucket as it was: a path without two
    segments, a missing service, an unknown route, upload-pack on a
    repository that does not exist and a push whose commands cannot be
    parsed write nothing. *)
Theorem fetch_failure_writes_nothing (env : bucket) (now : Z)
    (hash : ustring) (rq : request) :
  match fst (fetch env now hash rq) with
  | Returned resp =>
      (status resp = 200%Z \/ status resp = 400%Z \/ status resp = 404%Z) /\
      (status resp <> 200%Z -> snd (fetch env now hash rq) = env)
  | Thrown => snd (fetch env now hash rq) = env
  | OutOfFuel => False
  end.
Proof.
  unfold fetch.
  destruct (parseRepoPath (pathname rq)) as [[org repo sub]|];
    [|cbn; split; [auto|reflexivity]].
  destruct (str_eqb sub (lit "info/refs")).
  - destruct (service_param rq) as [service|];
      [|cbn; split; [auto|reflexivity]].
    destruct (str_eqb service []); [cbn; split; [auto|reflexivity]|].
    pose proof (handleInfoRefs_outcome env now org repo service) as O.
    destruct (handleInfoRefs env now org repo service) as [[resp| |] env'];
      cbn [fst snd] in *; [|exact O|exact O].
    destruct O as [S|[S ->]]; (split; [auto|]); [congruence|reflexivity].
  - destruct (str_eqb sub (lit "git-upload-pack") && _).
    { cbn [fst snd]. pose proof (handleUploadPack_outcome env org repo) as U.
      destruct (handleUploadPack env org repo) as [resp| |];
        [split; [auto|congruence] | reflexivity | exact U]. }
    destruct (str_eqb sub (lit "git-receive-pack") && _);
      [|cbn; split; [auto|reflexivity]].
    destruct (parseReceiveCommands (req_body rq)) as [[cmds ps]| |] eqn:E.
    + rewrite (handleReceivePack_returned _ _ _ _ _ _ cmds ps E).
      cbn [fst status]. split; [auto|congruence].
    + unfold handleReceivePack. rewrite E. reflexivity.
    + now apply parseReceiveCommands_total in E.
Qed.
